(** * toktok: a shallow embedding of the [Tokenizer] class of [src/index.js]

    The class keeps its scan state in private instance fields and builds the
    token tree by mutating block objects that are reachable from three places
    at once (the parent's [children] array, [#tokenStack], [#currentBlock]).
    The embedding therefore threads an explicit instance record through every
    method and keeps block objects in a store addressed by location.

    Characters are the code units below 256 ([ascii]); JavaScript strings are
    [string]; offsets, lines and columns are [nat]. *)

From Stdlib Require Import String Ascii List Arith Bool Lia DecimalString.
Import ListNotations.
Local Open Scope string_scope.
Local Open Scope list_scope.
Local Open Scope nat_scope.

(** ** Characters and strings as the source uses them *)

Module Char.

Definition dquote : ascii := "034"%char.
Definition squote : ascii := "'"%char.
Definition backtick : ascii := "`"%char.
Definition backslash : ascii := "\"%char.
Definition newline : ascii := "010"%char.
Definition cr : ascii := "013"%char.
Definition slash : ascii := "/"%char.
Definition dot : ascii := "."%char.

Definition code (c : ascii) : nat := nat_of_ascii c.

Definition between (lo hi : nat) (c : ascii) : bool :=
  (lo <=? code c) && (code c <=? hi).

(** [/[0-9]/] *)
Definition is_digit (c : ascii) : bool := between 48 57 c.

(** [/[a-zA-Z]/] *)
Definition is_letter (c : ascii) : bool := between 97 122 c || between 65 90 c.

(** [/\s/] on code units below 256: TAB, LF, VT, FF, CR, SPACE, NBSP. *)
Definition is_space (c : ascii) : bool :=
  between 9 13 c || (code c =? 32) || (code c =? 160).

(** The quote class of the dispatch: backtick, single quote, double quote. *)
Definition is_quote (c : ascii) : bool :=
  Ascii.eqb c backtick || Ascii.eqb c squote || Ascii.eqb c dquote.

(** [/[a-zA-Z#._$-]/] *)
Definition is_ident (c : ascii) : bool :=
  is_letter c || Ascii.eqb c "#" || Ascii.eqb c "." || Ascii.eqb c "_"
  || Ascii.eqb c "$" || Ascii.eqb c "-".

(** [/[gimsuvy]/] *)
Definition is_flag (c : ascii) : bool :=
  existsb (Ascii.eqb c) ["g"; "i"; "m"; "s"; "u"; "v"; "y"]%char.

(** [/[0-9.]/], the alphabet of the number test in [#flushBuffer]. *)
Definition is_numeric (c : ascii) : bool := is_digit c || Ascii.eqb c dot.

End Char.

Module Str.

(** [s + c] for a one-character [c] *)
Definition push (s : string) (c : ascii) : string := (s ++ String c "")%string.

(** [s.slice(from, to)] for [0 <= from] *)
Definition slice (s : string) (from to : nat) : string :=
  substring from (to - from) s.

(** [s.slice(from)] *)
Definition slice_from (s : string) (from : nat) : string :=
  substring from (String.length s - from) s.

(** [s.startsWith(p)] *)
Fixpoint startsWith (s p : string) : bool :=
  match p, s with
  | EmptyString, _ => true
  | String _ _, EmptyString => false
  | String a p', String b s' => Ascii.eqb a b && startsWith s' p'
  end.

(** [set.includes(c)] for a one-character [c] *)
Fixpoint includes (set : string) (c : ascii) : bool :=
  match set with
  | EmptyString => false
  | String d rest => Ascii.eqb c d || includes rest c
  end.

(** [array.includes(s)] for an array of strings *)
Definition one_of (s : string) (array : list string) : bool :=
  existsb (String.eqb s) array.

(** Offset, counted from the head of [s], of the first place where [p] is a
    prefix. *)
Fixpoint find (p s : string) : option nat :=
  if startsWith s p then Some 0
  else match s with
       | EmptyString => None
       | String _ rest => option_map S (find p rest)
       end.

(** [s.indexOf(p, from)], with [None] for [-1] *)
Definition indexOf (s p : string) (from : nat) : option nat :=
  if String.length s <? from then None
  else option_map (Nat.add from) (find p (slice_from s from)).

(** [s.split(sep)] for a one-character separator *)
Fixpoint split (sep : ascii) (s : string) : list string :=
  match s with
  | EmptyString => [EmptyString]
  | String c rest =>
      if Ascii.eqb c sep then EmptyString :: split sep rest
      else match split sep rest with
           | [] => [String c EmptyString]
           | piece :: pieces => String c piece :: pieces
           end
  end.

(** [c.repeat(n)] *)
Fixpoint repeat (c : ascii) (n : nat) : string :=
  match n with
  | 0 => EmptyString
  | S m => String c (repeat c m)
  end.

(** Number of occurrences of [c], as [(s.match(/c/g) || []).length]. *)
Fixpoint count (c : ascii) (s : string) : nat :=
  match s with
  | EmptyString => 0
  | String d rest => (if Ascii.eqb d c then 1 else 0) + count c rest
  end.

(** [/^[set]+$/.test(s)] for a character class [set] and a non-empty [s] *)
Fixpoint all (p : ascii -> bool) (s : string) : bool :=
  match s with
  | EmptyString => true
  | String c rest => p c && all p rest
  end.

(** Template interpolation of a number. *)
Definition of_nat (n : nat) : string := NilZero.string_of_uint (Nat.to_uint n).

End Str.

(** ** Data model *)

(** [{line, column}] and [{start, end}], the shape [toString] reads from
    [token.position] ([stop] stands for [end]). *)
Record Point := { pt_line : nat; pt_column : nat }.
Record Position := { start : Point; stop : Point }.

(** Block objects live in the store; a token array holds references to them. *)
Definition loc := nat.

(** A token as an array element: an object literal [{type, value}] (its
    [position] property is [None] when the object has none), or a reference
    to a block object. *)
Inductive Token :=
| Atom (type : string) (value : string) (position : option Position)
| BlockRef (l : loc).

(** [{type: 'block', opener, closer, children}] *)
Record Block := { opener : ascii; closer : ascii; children : list Token }.

Definition Heap := list Block.

Module Heap.

Definition get (h : Heap) (l : loc) : option Block := nth_error h l.

(** A new object; its location is the next free one. *)
Definition alloc (h : Heap) (b : Block) : loc * Heap := (length h, h ++ [b]).

Fixpoint update (h : Heap) (l : loc) (f : Block -> Block) : Heap :=
  match h, l with
  | [], _ => []
  | b :: rest, 0 => f b :: rest
  | b :: rest, S l' => b :: update rest l' f
  end.

Definition children_of (h : Heap) (l : loc) : list Token :=
  match get h l with
  | Some b => children b
  | None => []
  end.

(** [block.children = cs] *)
Definition set_children (h : Heap) (l : loc) (cs : list Token) : Heap :=
  update h l (fun b => {| opener := opener b; closer := closer b; children := cs |}).

(** [block.children.push(tok)] *)
Definition push_child (h : Heap) (l : loc) (tok : Token) : Heap :=
  update h l (fun b => {| opener := opener b; closer := closer b;
                          children := children b ++ [tok] |}).

End Heap.

(** [token.type] *)
Definition type_of (tok : Token) : string :=
  match tok with
  | Atom ty _ _ => ty
  | BlockRef _ => "block"
  end.

(** [token.value], undefined on a block *)
Definition value_of (tok : Token) : option string :=
  match tok with
  | Atom _ v _ => Some v
  | BlockRef _ => None
  end.

(** [token.position], undefined unless the object carries one *)
Definition position_of (tok : Token) : option Position :=
  match tok with
  | Atom _ _ p => p
  | BlockRef _ => None
  end.

(** The options object after the defaults have been merged in. *)
Record Options := {
  trackPosition : bool;
  preserveWhitespace : bool;
  preserveComments : bool;
  allowRegex : bool;
  customOperators : list string;
  hexNumbers : bool;
  binaryNumbers : bool;
  octalNumbers : bool;
  templateLiterals : bool
}.

Definition default_options : Options := {|
  trackPosition := true;
  preserveWhitespace := false;
  preserveComments := true;
  allowRegex := true;
  customOperators := [];
  hexNumbers := true;
  binaryNumbers := true;
  octalNumbers := true;
  templateLiterals := true
|}.

(** ** Diagnostics *)

(** The message argument of each [throw this.#error(...)] site. *)
Inductive ErrorKind :=
| UnexpectedCharacter (c : ascii)
| UnclosedBlock (opener : ascii)
| UnclosedString (delimiter : option ascii)
| UnclosedComment
| UnterminatedRegex
| UnbalancedClosing (c : ascii)
| MismatchedBrackets (expected actual : ascii)
| InvalidNumberFormat (buffer : string).

Definition chr (c : ascii) : string := String c "".

Definition null_or_chr (c : option ascii) : string :=
  match c with Some d => chr d | None => "null" end.

Definition describe (k : ErrorKind) : string :=
  (match k with
   | UnexpectedCharacter c => "Unexpected character: " ++ chr c
   | UnclosedBlock o => "Unclosed block starting with '" ++ chr o ++ "'"
   | UnclosedString d => "Unclosed string starting with '" ++ null_or_chr d ++ "'"
   | UnclosedComment => "Unclosed multi-line comment"
   | UnterminatedRegex => "Unterminated regular expression"
   | UnbalancedClosing c => "Unbalanced closing bracket '" ++ chr c ++ "'"
   | MismatchedBrackets e a =>
       "Mismatched brackets: expected '" ++ chr e ++ "' but got '" ++ chr a ++ "'"
   | InvalidNumberFormat b => "Invalid number format: " ++ b
   end)%string.

(** The thrown [Error]: [message] is the text the source builds; the other
    fields expose the values interpolated into it. *)
Record Error := {
  kind : ErrorKind;
  offset : nat;
  at_line : nat;
  at_column : nat;
  message : string
}.

(** A call returns or throws; [Stuck] is the model's own third outcome (no
    turn of the loop left, or a reference to no object), which
    [tokenize_total] excludes. *)
Inductive outcome (A : Type) :=
| Return (a : A)
| Throw (e : Error)
| Stuck.

Arguments Return {A} a.
Arguments Throw {A} e.
Arguments Stuck {A}.

Definition bind {A B : Type} (m : outcome A) (k : A -> outcome B) : outcome B :=
  match m with
  | Return a => k a
  | Throw e => Throw e
  | Stuck => Stuck
  end.

Notation "x <- m ;; k" := (bind m (fun x => k))
  (at level 61, m at next level, right associativity).

(** ** The instance *)

Record Tokenizer := {
  input : string;
  tokens : list Token;
  tokenBuffer : string;
  tokenStack : list loc;
  position : nat;
  line : nat;
  column : nat;
  inString : bool;
  stringDelimiter : option ascii;
  currentBlock : option loc;
  options : Options;
  heap : Heap
}.

(** [new Tokenizer(input, options)] *)
Definition new_Tokenizer (text : string) (opts : Options) : Tokenizer := {|
  input := text;
  tokens := [];
  tokenBuffer := "";
  tokenStack := [];
  position := 0;
  line := 1;
  column := 1;
  inString := false;
  stringDelimiter := None;
  currentBlock := None;
  options := opts;
  heap := []
|}.

(** Field assignments. *)
Definition set_tokens (v : list Token) (t : Tokenizer) : Tokenizer :=
  {| input := input t; tokens := v; tokenBuffer := tokenBuffer t;
     tokenStack := tokenStack t; position := position t; line := line t;
     column := column t; inString := inString t;
     stringDelimiter := stringDelimiter t; currentBlock := currentBlock t;
     options := options t; heap := heap t |}.

Definition set_tokenBuffer (v : string) (t : Tokenizer) : Tokenizer :=
  {| input := input t; tokens := tokens t; tokenBuffer := v;
     tokenStack := tokenStack t; position := position t; line := line t;
     column := column t; inString := inString t;
     stringDelimiter := stringDelimiter t; currentBlock := currentBlock t;
     options := options t; heap := heap t |}.

Definition set_tokenStack (v : list loc) (t : Tokenizer) : Tokenizer :=
  {| input := input t; tokens := tokens t; tokenBuffer := tokenBuffer t;
     tokenStack := v; position := position t; line := line t;
     column := column t; inString := inString t;
     stringDelimiter := stringDelimiter t; currentBlock := currentBlock t;
     options := options t; heap := heap t |}.

Definition set_position (v : nat) (t : Tokenizer) : Tokenizer :=
  {| input := input t; tokens := tokens t; tokenBuffer := tokenBuffer t;
     tokenStack := tokenStack t; position := v; line := line t;
     column := column t; inString := inString t;
     stringDelimiter := stringDelimiter t; currentBlock := currentBlock t;
     options := options t; heap := heap t |}.

Definition set_line (v : nat) (t : Tokenizer) : Tokenizer :=
  {| input := input t; tokens := tokens t; tokenBuffer := tokenBuffer t;
     tokenStack := tokenStack t; position := position t; line := v;
     column := column t; inString := inString t;
     stringDelimiter := stringDelimiter t; currentBlock := currentBlock t;
     options := options t; heap := heap t |}.

Definition set_column (v : nat) (t : Tokenizer) : Tokenizer :=
  {| input := input t; tokens := tokens t; tokenBuffer := tokenBuffer t;
     tokenStack := tokenStack t; position := position t; line := line t;
     column := v; inString := inString t;
     stringDelimiter := stringDelimiter t; currentBlock := currentBlock t;
     options := options t; heap := heap t |}.

Definition set_string (flag : bool) (d : option ascii) (t : Tokenizer) : Tokenizer :=
  {| input := input t; tokens := tokens t; tokenBuffer := tokenBuffer t;
     tokenStack := tokenStack t; position := position t; line := line t;
     column := column t; inString := flag;
     stringDelimiter := d; currentBlock := currentBlock t;
     options := options t; heap := heap t |}.

Definition set_currentBlock (v : option loc) (t : Tokenizer) : Tokenizer :=
  {| input := input t; tokens := tokens t; tokenBuffer := tokenBuffer t;
     tokenStack := tokenStack t; position := position t; line := line t;
     column := column t; inString := inString t;
     stringDelimiter := stringDelimiter t; currentBlock := v;
     options := options t; heap := heap t |}.

Definition set_heap (v : Heap) (t : Tokenizer) : Tokenizer :=
  {| input := input t; tokens := tokens t; tokenBuffer := tokenBuffer t;
     tokenStack := tokenStack t; position := position t; line := line t;
     column := column t; inString := inString t;
     stringDelimiter := stringDelimiter t; currentBlock := currentBlock t;
     options := options t; heap := v |}.

(** [this.#input[i]], undefined past the end *)
Definition char_at (t : Tokenizer) (i : nat) : option ascii := String.get i (input t).

Definition is_char (o : option ascii) (c : ascii) : bool :=
  match o with Some d => Ascii.eqb d c | None => false end.

(** [/[0-9]/.test(x)] for [x] a character or undefined *)
Definition test_digit (o : option ascii) : bool :=
  match o with Some d => Char.is_digit d | None => false end.

(** ** Private methods, in the order of the source *)

(** [#error(message)] *)
Definition error (k : ErrorKind) (t : Tokenizer) : Error :=
  let start := position t - 20 in
  let stop := Nat.min (String.length (input t)) (position t + 20) in
  let context := Str.slice (input t) start stop in
  let pointer := (Str.repeat " " (position t - start) ++ "^")%string in
  let errorMsg :=
    (if trackPosition (options t)
     then describe k ++ " at line " ++ Str.of_nat (line t) ++ ", column "
          ++ Str.of_nat (column t) ++ " (position " ++ Str.of_nat (position t) ++ ")"
     else describe k ++ " at position " ++ Str.of_nat (position t))%string in
  {| kind := k; offset := position t; at_line := line t; at_column := column t;
     message := (errorMsg ++ String Char.newline "Context: " ++ context
                 ++ String Char.newline "         " ++ pointer)%string |}.

(** [#addToken(token)] *)
Definition addToken (tok : Token) (t : Tokenizer) : Tokenizer :=
  match currentBlock t with
  | Some b => set_heap (Heap.push_child (heap t) b tok) t
  | None => set_tokens (tokens t ++ [tok]) t
  end.

(** [#finishToken(type)] *)
Definition finishToken (type : string) (t : Tokenizer) : Tokenizer :=
  if 0 <? String.length (tokenBuffer t)
  then set_tokenBuffer "" (addToken (Atom type (tokenBuffer t) None) t)
  else t.

(** [#flushBuffer()] *)
Definition flushBuffer (t : Tokenizer) : outcome Tokenizer :=
  if 0 <? String.length (tokenBuffer t) then
    if Str.all Char.is_numeric (tokenBuffer t) then
      let dotCount := Str.count Char.dot (tokenBuffer t) in
      if 1 <? dotCount
      then Throw (error (InvalidNumberFormat (tokenBuffer t)) t)
      else Return (finishToken "number" t)
    else Return (finishToken "identifier" t)
  else Return t.

(** [#peek(offset = 1)] *)
Definition peek (t : Tokenizer) : option ascii := char_at t (position t + 1).

(** [#handleStringContent(char)] *)
Definition handleStringContent (char : ascii) (t : Tokenizer) : Tokenizer :=
  if Ascii.eqb char Char.backslash && (position t + 1 <? String.length (input t)) then
    let t := set_tokenBuffer (Str.push (tokenBuffer t) char) t in
    let t := set_position (position t + 1) t in
    match char_at t (position t) with
    | Some next => set_tokenBuffer (Str.push (tokenBuffer t) next) t
    | None => t
    end
  else if is_char (stringDelimiter t) char then
    set_string false None (finishToken "string" t)
  else set_tokenBuffer (Str.push (tokenBuffer t) char) t.

(** [#startString(delimiter)] *)
Definition startString (delimiter : ascii) (t : Tokenizer) : outcome Tokenizer :=
  t <- flushBuffer t ;;
  Return (set_string true (Some delimiter) t).

(** [#checkComment()] *)
Definition checkComment (t : Tokenizer) : bool :=
  let remaining := Str.slice_from (input t) (position t) in
  Str.startsWith remaining "//" || Str.startsWith remaining "/*".

(** [#handleComment()] *)
Definition handleComment (t : Tokenizer) : outcome Tokenizer :=
  t <- flushBuffer t ;;
  let remaining := Str.slice_from (input t) (position t) in
  if Str.startsWith remaining "//" then
    let endIndex := Str.indexOf (input t) (chr Char.newline) (position t) in
    let commentEnd :=
      match endIndex with None => String.length (input t) | Some i => i end in
    let comment := Str.slice (input t) (position t) commentEnd in
    let t := if preserveComments (options t)
             then addToken (Atom "comment" comment None) t else t in
    Return (set_position (commentEnd - 1) t)
  else if Str.startsWith remaining "/*" then
    match Str.indexOf (input t) "*/" (position t + 2) with
    | None => Throw (error UnclosedComment t)
    | Some endIndex =>
        let comment := Str.slice (input t) (position t) (endIndex + 2) in
        let t := if preserveComments (options t)
                 then addToken (Atom "comment" comment None) t else t in
        let lines := Str.split Char.newline comment in
        let t := set_line (line t + (length lines - 1)) t in
        let t := if 1 <? length lines
                 then set_column (String.length (last lines "")) t else t in
        Return (set_position (endIndex + 1) t)
    end
  else Return t.

(** [#getLastMeaningfulToken()]: the scan from the end of the array is the
    first hit in the reversed array. *)
Definition getLastMeaningfulToken (t : Tokenizer) : option Token :=
  let toks := match currentBlock t with
              | Some b => Heap.children_of (heap t) b
              | None => tokens t
              end in
  List.find (fun tok => negb (String.eqb (type_of tok) "whitespace")
                        && negb (String.eqb (type_of tok) "comment")) (rev toks).

(** [#checkRegex()] *)
Definition checkRegex (t : Tokenizer) : bool :=
  if negb (is_char (char_at t (position t)) Char.slash) then false
  else
    let lastToken := getLastMeaningfulToken t in
    let regexContext :=
      match lastToken with
      | None => true
      | Some tok =>
          Str.one_of (type_of tok) ["symbol"; "keyword"]
          && match value_of tok with
             | Some v => Str.one_of v ["="; "("; "["; ","; "return"; "throw"]
             | None => false
             end
      end in
    regexContext && (position t + 1 <? String.length (input t))
    && negb (is_char (char_at t (position t + 1)) Char.slash)
    && negb (is_char (char_at t (position t + 1)) "=").

(** The flag loop of [#handleRegex], run over the text from [pos] on. *)
Fixpoint scan_flags (rest : string) (pos : nat) (regex : string) : nat * string :=
  match rest with
  | String c rest' =>
      if Char.is_flag c then scan_flags rest' (pos + 1) (Str.push regex c)
      else (pos, regex)
  | EmptyString => (pos, regex)
  end.

(** The scanning loop of [#handleRegex], run over the text from [pos] on:
    [Some (pos, regex)] at the closing slash, [None] where the source throws. *)
Fixpoint scan_regex (rest : string) (pos : nat) (regex : string)
    (escaped inCharClass : bool) : option (nat * string) :=
  match rest with
  | EmptyString => None
  | String char rest' =>
      let regex := Str.push regex char in
      if escaped then scan_regex rest' (pos + 1) regex false inCharClass
      else if Ascii.eqb char Char.backslash
      then scan_regex rest' (pos + 1) regex true inCharClass
      else if Ascii.eqb char "[" && negb inCharClass
      then scan_regex rest' (pos + 1) regex escaped true
      else if Ascii.eqb char "]" && inCharClass
      then scan_regex rest' (pos + 1) regex escaped false
      else if Ascii.eqb char Char.slash && negb inCharClass
      then Some (scan_flags rest' (pos + 1) regex)
      else if Ascii.eqb char Char.newline then None
      else scan_regex rest' (pos + 1) regex escaped inCharClass
  end.

(** [#handleRegex()] *)
Definition handleRegex (t : Tokenizer) : outcome Tokenizer :=
  t <- flushBuffer t ;;
  let pos := position t + 1 in
  match scan_regex (Str.slice_from (input t) pos) pos "/" false false with
  | Some (pos, regex) =>
      Return (set_position (pos - 1) (addToken (Atom "regex" regex None) t))
  | None => Throw (error UnterminatedRegex t)
  end.

(** [#updatePosition(char)] *)
Definition updatePosition (char : ascii) (t : Tokenizer) : Tokenizer :=
  if Ascii.eqb char Char.newline then set_column 1 (set_line (line t + 1) t)
  else if Ascii.eqb char Char.cr then
    let t := if is_char (peek t) Char.newline
             then set_position (position t + 1) t else t in
    set_column 1 (set_line (line t + 1) t)
  else t.

Definition threeCharOps : list string := ["==="; "!=="].

Definition twoCharOps : list string :=
  ["=="; "!="; "<="; ">="; "=>"; "&&"; "||"; "++"; "--"; "+="; "-="; "*="; "/="].

(** [#checkMultiCharOperator()] *)
Definition checkMultiCharOperator (t : Tokenizer) : bool :=
  let remaining := Str.slice (input t) (position t) (position t + 3) in
  if Str.one_of (Str.slice remaining 0 3) threeCharOps then true
  else Str.one_of (Str.slice remaining 0 2) twoCharOps.

(** [#handleMultiCharOperator()] *)
Definition handleMultiCharOperator (t : Tokenizer) : outcome Tokenizer :=
  t <- flushBuffer t ;;
  let remaining := Str.slice (input t) (position t) (position t + 3) in
  if Str.one_of (Str.slice remaining 0 3) threeCharOps then
    let t := addToken (Atom "symbol" (Str.slice remaining 0 3) None) t in
    Return (set_position (position t + 2) t)
  else
    let twoChar := Str.slice remaining 0 2 in
    if Str.one_of twoChar twoCharOps then
      let t := addToken (Atom "symbol" twoChar None) t in
      Return (set_position (position t + 1) t)
    else Return t.

(** The [closers] table of [#startBlock]; the dispatch only passes one of the
    three openers. *)
Definition closers (char : ascii) : ascii :=
  if Ascii.eqb char "[" then "]"%char
  else if Ascii.eqb char "{" then "}"%char
  else ")"%char.

(** [array[array.length - 1]] *)
Definition top (stack : list loc) : option loc := nth_error stack (length stack - 1).

(** The body of [#startBlock(char)] after the flush: the new object is
    appended to the current array, pushed on the stack and made current. *)
Definition openBlock (char : ascii) (t : Tokenizer) : Tokenizer :=
  let (block, h) :=
    Heap.alloc (heap t) {| opener := char; closer := closers char; children := [] |} in
  let t := addToken (BlockRef block) (set_heap h t) in
  let t := set_tokenStack (tokenStack t ++ [block]) t in
  set_currentBlock (Some block) t.

(** [#startBlock(char)] *)
Definition startBlock (char : ascii) (t : Tokenizer) : outcome Tokenizer :=
  t <- flushBuffer t ;;
  Return (openBlock char t).

(** The last two statements of [#finishBlock]: pop, then the new top (or
    null) becomes current. *)
Definition closeBlock (t : Tokenizer) : Tokenizer :=
  let t := set_tokenStack (removelast (tokenStack t)) t in
  set_currentBlock (top (tokenStack t)) t.

(** [#finishBlock(char)]; [Stuck] stands for a reference to no object, which
    the source cannot hold. *)
Definition finishBlock (char : ascii) (t : Tokenizer) : outcome Tokenizer :=
  t <- flushBuffer t ;;
  match top (tokenStack t) with
  | None => Throw (error (UnbalancedClosing char) t)
  | Some l =>
      match Heap.get (heap t) l with
      | None => Stuck
      | Some current =>
          if negb (Ascii.eqb (closer current) char)
          then Throw (error (MismatchedBrackets (closer current) char) t)
          else Return (closeBlock t)
      end
  end.

(** ** [tokenize()] *)

(** The branch chain of the loop body. *)
Definition dispatch (char : ascii) (t : Tokenizer) : outcome Tokenizer :=
  if inString t then Return (handleStringContent char t)
  else if checkComment t then handleComment t
  else if allowRegex (options t) && checkRegex t then handleRegex t
  else if Char.is_quote char then startString char t
  else if Char.is_space char then
    t <- flushBuffer t ;;
    let t := if preserveWhitespace (options t)
             then addToken (Atom "whitespace" (chr char) None) t else t in
    Return (updatePosition char t)
  else if Char.is_digit char || (Ascii.eqb char Char.dot && test_digit (peek t))
  then Return (set_tokenBuffer (Str.push (tokenBuffer t) char) t)
  else if Char.is_ident char
  then Return (set_tokenBuffer (Str.push (tokenBuffer t) char) t)
  else if checkMultiCharOperator t then handleMultiCharOperator t
  else if Str.includes "+-*/:;,=<>!&|%^~?" char then
    t <- flushBuffer t ;;
    Return (addToken (Atom "symbol" (chr char) None) t)
  else if Str.includes "[{(" char then startBlock char t
  else if Str.includes "]})" char then finishBlock char t
  else Throw (error (UnexpectedCharacter char) t).

(** One turn of the [while] loop; the loop condition guarantees the
    character. *)
Definition iteration (t : Tokenizer) : outcome Tokenizer :=
  match char_at t (position t) with
  | None => Stuck
  | Some char =>
      t <- dispatch char t ;;
      let t := set_position (position t + 1) t in
      Return (if negb (Ascii.eqb char Char.newline) && negb (Ascii.eqb char Char.cr)
              then set_column (column t + 1) t else t)
  end.

(** [while (this.#position < this.#input.length) { ... }], at most [fuel]
    turns. *)
Fixpoint scan (fuel : nat) (t : Tokenizer) : outcome Tokenizer :=
  if position t <? String.length (input t) then
    match fuel with
    | 0 => Stuck
    | S fuel' => t <- iteration t ;; scan fuel' t
    end
  else Return t.

(** [this.#currentBlock || this.#tokens] *)
Inductive Scanned :=
| TokenArray (toks : list Token)
| OpenBlock (l : loc).

Definition scanned (t : Tokenizer) : Scanned :=
  match currentBlock t with
  | Some b => OpenBlock b
  | None => TokenArray (tokens t)
  end.

(** What follows the loop in [tokenize()]. *)
Definition finish (t : Tokenizer) : outcome (Scanned * Tokenizer) :=
  t <- flushBuffer t ;;
  match top (tokenStack t) with
  | Some l =>
      match Heap.get (heap t) l with
      | Some unclosed => Throw (error (UnclosedBlock (opener unclosed)) t)
      | None => Stuck
      end
  | None =>
      if inString t then Throw (error (UnclosedString (stringDelimiter t)) t)
      else Return (scanned t, t)
  end.

(** Every turn moves [position] forward, so the characters still ahead bound
    the number of turns (lemma [scan_enough_fuel]). *)
Definition tokenize (t : Tokenizer) : outcome (Scanned * Tokenizer) :=
  t <- scan (String.length (input t) - position t) t ;;
  finish t.

(** ** [filter(type)] *)

(** [filterRecursive(tokens)]: the callback is applied left to right, and for
    a block it assigns the filtered array to [token.children] in the store.
    [depth] bounds the nesting; [None] when it is exceeded or a reference
    leads to no object. The source recurses on the call stack of the engine;
    the limit of that stack, a [RangeError] on very deep nesting, has no
    counterpart here or in [searchRecursive], [countRecursive] and
    [printToken], and the statements on [filter], [find], [getStats] and
    [toString] speak of the calls that return. *)
Fixpoint filterRecursive (depth : nat) (type : string) (toks : list Token) (h : Heap)
    : option (list Token * Heap) :=
  match depth with
  | 0 => None
  | S d =>
      fold_left
        (fun acc token =>
           match acc with
           | None => None
           | Some (kept, h) =>
               if String.eqb (type_of token) type then Some (kept ++ [token], h)
               else match token with
                    | BlockRef l =>
                        match Heap.get h l with
                        | None => None
                        | Some b =>
                            match filterRecursive d type (children b) h with
                            | None => None
                            | Some (cs, h') =>
                                Some (if 0 <? length cs then kept ++ [token] else kept,
                                      Heap.set_children h' l cs)
                            end
                        end
                    | Atom _ _ _ => Some (kept, h)
                    end
           end)
        toks (Some ([], h))
  end.

(** [filter(type)]: the new array and the instance as the call leaves it.
    [None] also when [#currentBlock] is set, where the source calls [filter]
    on a block object. *)
Definition filter (type : string) (t : Tokenizer) : option (list Token * Tokenizer) :=
  match scanned t with
  | OpenBlock _ => None
  | TokenArray toks =>
      match filterRecursive (S (length (heap t))) type toks (heap t) with
      | Some (kept, h) => Some (kept, set_heap h t)
      | None => None
      end
  end.

(** [find(predicate)], the read-only sibling of [filter]. *)
Fixpoint searchRecursive (depth : nat) (predicate : Token -> bool) (h : Heap)
    (toks : list Token) : list Token :=
  match depth with
  | 0 => []
  | S d =>
      flat_map (fun token =>
                  (if predicate token then [token] else [])
                  ++ match token with
                     | BlockRef l => searchRecursive d predicate h (Heap.children_of h l)
                     | Atom _ _ _ => []
                     end) toks
  end.

Definition find (predicate : Token -> bool) (t : Tokenizer) : option (list Token) :=
  match scanned t with
  | OpenBlock _ => None
  | TokenArray toks => Some (searchRecursive (S (length (heap t))) predicate (heap t) toks)
  end.

(** Entry point used by the scenarios. *)
Definition run (text : string) (opts : Options) : outcome (Scanned * Tokenizer) :=
  tokenize (new_Tokenizer text opts).

(** The value of a call, without the instance it leaves. *)
Definition result_of {A} (o : outcome (A * Tokenizer)) : outcome A :=
  x <- o ;; Return (fst x).

(** [n] completed turns of the loop: the instance the scanner is in when it
    reaches the character at the resulting [position]. *)
Fixpoint turns (n : nat) (t : Tokenizer) : outcome Tokenizer :=
  match n with
  | 0 => Return t
  | S m => t <- iteration t ;; turns m t
  end.

(** ** Vocabulary of the statements *)

(** Everything but the buffer, the token array and the store. *)
Record same_cursor (t t' : Tokenizer) : Prop := {
  sc_input : input t' = input t;
  sc_options : options t' = options t;
  sc_position : position t' = position t;
  sc_line : line t' = line t;
  sc_column : column t' = column t;
  sc_stack : tokenStack t' = tokenStack t;
  sc_current : currentBlock t' = currentBlock t;
  sc_inString : inString t' = inString t;
  sc_delimiter : stringDelimiter t' = stringDelimiter t
}.

(** Same text and configuration, and the offset not behind. *)
Definition moved (t t' : Tokenizer) : Prop :=
  input t' = input t /\ options t' = options t /\ position t <= position t'.

(** [{...o, preserveComments: v}] *)
Definition with_preserveComments (v : bool) (o : Options) : Options := {|
  trackPosition := trackPosition o;
  preserveWhitespace := preserveWhitespace o;
  preserveComments := v;
  allowRegex := allowRegex o;
  customOperators := customOperators o;
  hexNumbers := hexNumbers o;
  binaryNumbers := binaryNumbers o;
  octalNumbers := octalNumbers o;
  templateLiterals := templateLiterals o
|}.

(** A token object without a [position] property. *)
Definition bare (tok : Token) : Prop := position_of tok = None.

(** Every token of the top-level array and of every block is bare. *)
Definition positionless (t : Tokenizer) : Prop :=
  Forall bare (tokens t) /\ Forall (fun b => Forall bare (children b)) (heap t).

(** The references the instance holds: [#currentBlock] is the top of the
    stack (or null), and every stacked reference leads to an object. *)
Definition well_formed (t : Tokenizer) : Prop :=
  currentBlock t = top (tokenStack t)
  /\ Forall (fun l => l < length (heap t)) (tokenStack t).

(** Emitting a token never changes the brackets of a block. *)
Definition same_brackets (h h' : Heap) : Prop :=
  forall l b, Heap.get h l = Some b ->
              exists b', Heap.get h' l = Some b'
                         /\ opener b' = opener b /\ closer b' = closer b.

(** The flush fails only on a digits-and-dots buffer with several dots. *)
Definition malformed_number (buffer : string) : bool :=
  Str.all Char.is_numeric buffer && (1 <? Str.count Char.dot buffer).

(** The body of a literal, cut where the scanner cuts it: a character other
    than the delimiter and the backslash, or a backslash with the character
    after it. *)
Inductive piece :=
| Plain (c : ascii)
| Escape (c : ascii).

(** A piece that does not end the literal delimited by [q]. *)
Definition piece_ok (q : ascii) (p : piece) : bool :=
  match p with
  | Plain c => negb (Ascii.eqb c q) && negb (Ascii.eqb c Char.backslash)
  | Escape _ => true
  end.

(** The source text of a body, escapes as written. *)
Fixpoint raw (ps : list piece) : string :=
  match ps with
  | [] => ""
  | Plain c :: rest => String c (raw rest)
  | Escape c :: rest => String Char.backslash (String c (raw rest))
  end.

(** The instance inside a string after more of the body has been copied. *)
Definition copied (body : string) (col : nat) (t : Tokenizer) : Tokenizer :=
  set_column col
    (set_position (position t + String.length body)
       (set_tokenBuffer (tokenBuffer t ++ body) t)).

(** The instance once a literal with body [body] has been scanned from the
    flushed instance [t1]: the string token is emitted, the scanner is out of
    string mode and two characters past the body. *)
Definition after_literal (body : string) (col : nat) (t1 : Tokenizer) : Tokenizer :=
  set_column col
    (set_position (position t1 + String.length body + 2)
       (set_string false None (addToken (Atom "string" body None) t1))).

(** ** [getStats()] *)

(** [stats.byType]: an object used as a map from type to count, keys in the
    order of their first use. *)
Definition ByType := list (string * nat).

(** [byType[type]], undefined for a type never counted *)
Fixpoint lookup (type : string) (m : ByType) : option nat :=
  match m with
  | [] => None
  | (k, n) :: rest => if String.eqb k type then Some n else lookup type rest
  end.

(** [byType[type] = (byType[type] || 0) + 1] *)
Fixpoint bump (type : string) (m : ByType) : ByType :=
  match m with
  | [] => [(type, 1)]
  | (k, n) :: rest =>
      if String.eqb k type then (k, n + 1) :: rest else (k, n) :: bump type rest
  end.

(** [{total, byType, lines}] *)
Record Stats := { total : nat; byType : ByType; lines : nat }.

(** [countRecursive(tokens)], updating [stats.total] and [stats.byType];
    [depth] bounds the nesting as in [searchRecursive]. *)
Fixpoint countRecursive (depth : nat) (h : Heap) (toks : list Token)
    (stats : nat * ByType) : nat * ByType :=
  match depth with
  | 0 => stats
  | S d =>
      fold_left
        (fun stats token =>
           let stats := (fst stats + 1, bump (type_of token) (snd stats)) in
           match token with
           | BlockRef l => countRecursive d h (Heap.children_of h l) stats
           | Atom _ _ _ => stats
           end)
        toks stats
  end.

(** [getStats()]; [None] where the source would iterate over a block object
    ([#currentBlock] set). *)
Definition getStats (t : Tokenizer) : option Stats :=
  match scanned t with
  | OpenBlock _ => None
  | TokenArray toks =>
      let (n, m) := countRecursive (S (length (heap t))) (heap t) toks (0, []) in
      Some {| total := n; byType := m; lines := line t |}
  end.

(** ** Pieces of [#error] *)

(** [const start], [const context] and [const pointer] of [#error]. *)
Definition context_start (t : Tokenizer) : nat := position t - 20.

Definition context_of (t : Tokenizer) : string :=
  Str.slice (input t) (context_start t)
    (Nat.min (String.length (input t)) (position t + 20)).

Definition pointer_of (t : Tokenizer) : string :=
  (Str.repeat " " (position t - context_start t) ++ "^")%string.

(** ** Vocabulary of the further statements *)

(** [l'] is [l] with elements appended. *)
Definition extends {A : Type} (l l' : list A) : Prop := exists more, l' = l ++ more.

(** [l'] is [l] with elements removed, the order kept. *)
Inductive subseq {A : Type} : list A -> list A -> Prop :=
| subseq_nil : subseq [] []
| subseq_keep x l l' : subseq l l' -> subseq (x :: l) (x :: l')
| subseq_drop x l l' : subseq l l' -> subseq l (x :: l').

(** What a scan may do to an instance: the text and configuration stay, the
    line counter does not go back, the top-level array and the children of
    every block only get longer, no block changes its brackets or leaves the
    store. *)
Record grown (t t' : Tokenizer) : Prop := {
  grown_input : input t' = input t;
  grown_options : options t' = options t;
  grown_line : line t <= line t';
  grown_tokens : extends (tokens t) (tokens t');
  grown_heap :
    forall l b, Heap.get (heap t) l = Some b ->
                exists b', Heap.get (heap t') l = Some b'
                           /\ opener b' = opener b /\ closer b' = closer b
                           /\ extends (children b) (children b')
}.

(** The characters and operators the symbol branches can emit: the minus
    sign is an identifier character, so it never starts a symbol. *)
Definition symbolChars : string := "+*/:;,=<>!&|%^~?".

Definition symbolOps : list string :=
  ["==="; "!=="; "=="; "!="; "<="; ">="; "=>"; "&&"; "||"; "++"; "+="; "*="; "/="].

(** The shape of a token object as one of the emitting branches builds it. *)
Definition token_ok (tok : Token) : bool :=
  match tok with
  | BlockRef _ => true
  | Atom type value position =>
      match position with None => true | Some _ => false end
      && negb (String.eqb value "")
      && (if String.eqb type "number"
          then Str.all Char.is_numeric value && (Str.count Char.dot value <=? 1)
          else if String.eqb type "identifier"
          then negb (Str.all Char.is_numeric value)
          else if String.eqb type "string" then true
          else if String.eqb type "symbol"
          then match value with
               | String c EmptyString => Str.includes symbolChars c
               | _ => Str.one_of value symbolOps
               end
          else if String.eqb type "whitespace"
          then match value with
               | String c EmptyString => Char.is_space c
               | _ => false
               end
          else if String.eqb type "comment"
          then Str.startsWith value "//" || Str.startsWith value "/*"
          else if String.eqb type "regex" then Str.startsWith value "/"
          else false)
  end.

(** The brackets of a block object as [#startBlock] builds it. *)
Definition block_ok (b : Block) : bool :=
  Str.includes "[{(" (opener b) && Ascii.eqb (closer b) (closers (opener b)).

(** Every token object reachable from the instance has the shape [Q]. *)
Definition all_tokens (Q : Token -> Prop) (t : Tokenizer) : Prop :=
  Forall Q (tokens t) /\ Forall (fun b => Forall Q (children b)) (heap t).

(** A reference to a block allocated after [lo] and present in a store of
    [n] objects. *)
Definition later_ref (lo n : nat) (tok : Token) : Prop :=
  match tok with
  | BlockRef l => lo <= l /\ l < n
  | Atom _ _ _ => True
  end.

(** The store is a forest: the top-level array and every block refer only to
    objects in the store, and a block only to objects allocated after it. *)
Definition forest (toks : list Token) (h : Heap) : Prop :=
  Forall (later_ref 0 (length h)) toks
  /\ forall l b, Heap.get h l = Some b ->
                 Forall (later_ref (S l) (length h)) (children b).

(** Every token object has the shape its branch gives it, and every block
    the brackets of [#startBlock]. *)
Definition shaped (t : Tokenizer) : Prop :=
  all_tokens (fun tok => token_ok tok = true) t
  /\ Forall (fun b => block_ok b = true) (heap t).

(** A token object reachable from the instance: an element of the top-level
    array or of some block's [children]. *)
Definition reachable (tok : Token) (t : Tokenizer) : Prop :=
  In tok (tokens t)
  \/ exists l b, Heap.get (heap t) l = Some b /\ In tok (children b).

(** The references of the instance are sound: the stack and [#currentBlock]
    agree, and the store is a forest under the top-level array. *)
Definition sound (t : Tokenizer) : Prop :=
  well_formed t /\ forest (tokens t) (heap t).

(** [tok] lies at most [depth] arrays deep under [toks]: in [toks] itself, or
    under the [children] of a block that [toks] refers to. *)
Fixpoint at_depth (h : Heap) (toks : list Token) (depth : nat) (tok : Token) : Prop :=
  match depth with
  | 0 => False
  | S d =>
      In tok toks
      \/ exists l, In (BlockRef l) toks /\ at_depth h (Heap.children_of h l) d tok
  end.

(** Every block object of the store is referred to from the top-level array
    or from a block allocated before it. *)
Definition connected (toks : list Token) (h : Heap) : Prop :=
  forall l, l < length h ->
            In (BlockRef l) toks
            \/ exists l' b', l' < l /\ Heap.get h l' = Some b'
                             /\ In (BlockRef l) (children b').

(** [byType[type] || 0] *)
Definition count_of (type : string) (m : ByType) : nat :=
  match lookup type m with Some n => n | None => 0 end.

(** What [filter] may do to the store: no object is added or dropped, no
    block changes its brackets, and the children of a block are its former
    children with some removed. *)
Definition shrunk (h h' : Heap) : Prop :=
  length h' = length h
  /\ forall l b, Heap.get h l = Some b ->
                 exists b', Heap.get h' l = Some b'
                            /\ opener b' = opener b /\ closer b' = closer b
                            /\ subseq (children b') (children b).

(** A token that may stay when filtering for [type]: an object of that type,
    or a block. *)
Definition stays (type : string) (tok : Token) : Prop :=
  match tok with
  | Atom ty _ _ => ty = type
  | BlockRef _ => True
  end.

(** Every block of [h'] has the children it has in [h] or children that may
    all stay. *)
Definition filtered (type : string) (h h' : Heap) : Prop :=
  forall l, Heap.children_of h' l = Heap.children_of h l
            \/ Forall (stays type) (Heap.children_of h' l).

(** What each [throw] site has checked when it raises an error of kind [k]
    on the instance [t]. *)
Definition raised (k : ErrorKind) (t : Tokenizer) : Prop :=
  match k with
  | UnexpectedCharacter c | UnbalancedClosing c =>
      char_at t (position t) = Some c
  | MismatchedBrackets expected c =>
      char_at t (position t) = Some c /\ expected <> c
  | UnclosedComment | UnterminatedRegex =>
      char_at t (position t) = Some Char.slash
  | UnclosedBlock _ =>
      position t = String.length (input t) /\ tokenStack t <> []
  | UnclosedString d =>
      position t = String.length (input t) /\ tokenStack t = []
      /\ inString t = true /\ d = stringDelimiter t
  | InvalidNumberFormat b =>
      b = tokenBuffer t /\ malformed_number b = true
  end.

(** The three options that switch a kind of token on or off. *)
Definition permitted (o : Options) (tok : Token) : bool :=
  if String.eqb (type_of tok) "whitespace" then preserveWhitespace o
  else if String.eqb (type_of tok) "comment" then preserveComments o
  else if String.eqb (type_of tok) "regex" then allowRegex o
  else true.

Definition allowed (t : Tokenizer) : Prop :=
  all_tokens (fun tok => permitted (options t) tok = true) t.

(** ** [toString(indent)] *)

(** A lower-case hexadecimal digit, as in a [\uXXXX] escape. *)
Definition hex_digit (n : nat) : ascii :=
  match String.get n "0123456789abcdef" with
  | Some c => c
  | None => "0"%char
  end.

(** What [JSON.stringify] writes for one character of a string: the short
    escapes, [\u00XX] for the other control characters, the character itself
    otherwise. *)
Definition quote_char (c : ascii) : string :=
  let n := Char.code c in
  if n =? 8 then "\b"
  else if n =? 9 then "\t"
  else if n =? 10 then "\n"
  else if n =? 12 then "\f"
  else if n =? 13 then "\r"
  else if n =? 34 then String Char.backslash (String Char.dquote "")
  else if n =? 92 then "\\"
  else if n <? 32
  then ("\u00" ++ String (hex_digit (n / 16)) (String (hex_digit (n mod 16)) ""))%string
  else String c "".

Fixpoint quote_chars (s : string) : string :=
  match s with
  | EmptyString => EmptyString
  | String c rest => (quote_char c ++ quote_chars rest)%string
  end.

(** [JSON.stringify(s)] for a string [s] *)
Definition JSON_stringify (s : string) : string :=
  String Char.dquote (quote_chars s ++ String Char.dquote "")%string.

(** [s.repeat(n)] *)
Fixpoint repeat_string (s : string) (n : nat) : string :=
  match n with
  | 0 => EmptyString
  | S m => (s ++ repeat_string s m)%string
  end.

(** [printToken(token, level)]; [depth] bounds the nesting as in
    [searchRecursive], and a reference to no object, which the source cannot
    hold, prints nothing. *)
Fixpoint printToken (depth : nat) (h : Heap) (token : Token) (level : nat) : string :=
  match depth with
  | 0 => EmptyString
  | S d =>
      let spaces := repeat_string "  " level in
      match token with
      | BlockRef l =>
          match Heap.get h l with
          | None => EmptyString
          | Some b =>
              fold_left
                (fun result child =>
                   (result ++ printToken d h child (level + 1))%string)
                (children b)
                (spaces ++ "block" ++ ": " ++ chr (opener b) ++ "..."
                 ++ chr (closer b) ++ chr Char.newline)%string
          end
      | Atom type value position =>
          let pos := match position with
                     | Some p =>
                         (" [" ++ Str.of_nat (pt_line (start p)) ++ ":"
                          ++ Str.of_nat (pt_column (start p)) ++ "]")%string
                     | None => ""
                     end in
          (spaces ++ type ++ ": " ++ JSON_stringify value ++ pos
           ++ chr Char.newline)%string
      end
  end.

(** [toString(indent = 0)]; [None] where the source would call [map] on a
    block object ([#currentBlock] set). *)
Definition toString (indent : nat) (t : Tokenizer) : option string :=
  match scanned t with
  | OpenBlock _ => None
  | TokenArray toks =>
      Some (String.concat ""
              (map (fun token => printToken (S (length (heap t))) (heap t) token indent)
                 toks))
  end.

(** A token object that [printToken] can print: of the shape its branch
    gives it, and a reference only to an object of the store. *)
Definition printable (h : Heap) (tok : Token) : Prop :=
  token_ok tok = true /\ later_ref 0 (length h) tok.

(** Every block refers only to objects of the store allocated after it. *)
Definition nested (h : Heap) : Prop :=
  forall l b, Heap.get h l = Some b ->
              Forall (later_ref (S l) (length h)) (children b).

(** ** The options the scanner reads *)

(** The instance with another options object. *)
Definition set_options (o : Options) (t : Tokenizer) : Tokenizer :=
  {| input := input t; tokens := tokens t; tokenBuffer := tokenBuffer t;
     tokenStack := tokenStack t; position := position t; line := line t;
     column := column t; inString := inString t;
     stringDelimiter := stringDelimiter t; currentBlock := currentBlock t;
     options := o; heap := heap t |}.

(** Two options objects with the same four properties that the class reads:
    [trackPosition], [preserveWhitespace], [preserveComments] and
    [allowRegex]. *)
Definition agree (o o' : Options) : Prop :=
  trackPosition o = trackPosition o'
  /\ preserveWhitespace o = preserveWhitespace o'
  /\ preserveComments o = preserveComments o'
  /\ allowRegex o = allowRegex o'.

Definition map_outcome {A B : Type} (f : A -> B) (m : outcome A) : outcome B :=
  match m with
  | Return a => Return (f a)
  | Throw e => Throw e
  | Stuck => Stuck
  end.

(** ** Vocabulary of the statements on the flush and on [find] *)

(** The array [#addToken] pushes to when [here] is [#currentBlock], as it is
    in the instance [t]: the children of that block, or the top-level array. *)
Definition array_of (here : option loc) (t : Tokenizer) : list Token :=
  match here with
  | Some b => Heap.children_of (heap t) b
  | None => tokens t
  end.

(** The characters at which the loop, outside a string literal, flushes the
    buffer: quotes, whitespace, the symbol characters and the brackets, but
    no digit and no identifier character, which are buffered. *)
Definition delimits (c : ascii) : bool :=
  negb (Char.is_digit c) && negb (Char.is_ident c)
  && (Char.is_quote c || Char.is_space c
      || Str.includes "+-*/:;,=<>!&|%^~?" c
      || Str.includes "[{(" c || Str.includes "]})" c).

(** The list [searchRecursive] builds, without a bound on the nesting: a
    token that satisfies the predicate, then, for a block, the listing of its
    children, then the listing of the rest of the array. *)
Inductive listing (predicate : Token -> bool) (h : Heap)
  : list Token -> list Token -> Prop :=
| listing_nil : listing predicate h [] []
| listing_atom type value position rest out :
    listing predicate h rest out ->
    listing predicate h (Atom type value position :: rest)
      ((if predicate (Atom type value position)
        then [Atom type value position] else []) ++ out)
| listing_block l b rest inner out :
    Heap.get h l = Some b ->
    listing predicate h (children b) inner ->
    listing predicate h rest out ->
    listing predicate h (BlockRef l :: rest)
      ((if predicate (BlockRef l) then [BlockRef l] else []) ++ inner ++ out).

(** The last two lines of the message of [#error]. *)
Definition context_line (t : Tokenizer) : string :=
  ("Context: " ++ context_of t)%string.

Definition pointer_line (t : Tokenizer) : string :=
  ("         " ++ pointer_of t)%string.

(** * Properties *)

(** ** Strings *)

Lemma get_lt (s : string) (n : nat) (c : ascii) :
  String.get n s = Some c -> n < String.length s.
Proof.
  revert n; induction s as [|a s IH]; intros [|n] H; simpl in *;
    try discriminate; try lia.
  apply IH in H; lia.
Qed.

Lemma get_ge (s : string) (n : nat) :
  String.get n s = None -> String.length s <= n.
Proof.
  revert n; induction s as [|a s IH]; intros [|n] H; simpl in *;
    try discriminate; try lia.
  apply IH in H; lia.
Qed.

Lemma slice_from_get (s : string) (n : nat) (c : ascii) :
  String.get n s = Some c -> exists rest, Str.slice_from s n = String c rest.
Proof.
  unfold Str.slice_from.
  revert n; induction s as [|a s IH]; intros [|n] H; simpl in *; try discriminate.
  - injection H as ->. eexists; reflexivity.
  - apply IH in H. exact H.
Qed.

Lemma substring_get (s : string) (n m : nat) (c : ascii) :
  String.get n s = Some c ->
  substring n (S m) s = String c (substring (S n) m s).
Proof.
  revert n; induction s as [|a s IH]; intros [|n] H; simpl in *; try discriminate.
  - injection H as ->. destruct s; destruct m; reflexivity.
  - apply IH in H. rewrite H. reflexivity.
Qed.

Lemma find_prefix_zero (p s : string) (k : nat) :
  Str.find p s = Some k -> Str.startsWith s p = false -> 0 < k.
Proof.
  intros H Hp. destruct s as [|a s]; cbn [Str.find] in H; rewrite Hp in H.
  - discriminate.
  - destruct (Str.find p s); simpl in H; [injection H as <-; lia|discriminate].
Qed.

Lemma indexOf_ge (s p : string) (from i : nat) :
  Str.indexOf s p from = Some i -> from <= i.
Proof.
  unfold Str.indexOf. destruct (String.length s <? from); [discriminate|].
  destruct (Str.find p (Str.slice_from s from)); simpl; [|discriminate].
  intros [= <-]. lia.
Qed.

Lemma scan_flags_ge (rest : string) (pos : nat) (regex : string) :
  pos <= fst (scan_flags rest pos regex).
Proof.
  revert pos regex; induction rest as [|c rest IH]; intros pos regex; simpl; [lia|].
  destruct (Char.is_flag c); simpl; [|lia].
  specialize (IH (pos + 1) (Str.push regex c)). lia.
Qed.

Lemma scan_regex_gt (rest : string) (pos : nat) (regex : string)
    (escaped inCharClass : bool) (p : nat) (r : string) :
  scan_regex rest pos regex escaped inCharClass = Some (p, r) -> pos < p.
Proof.
  revert pos regex escaped inCharClass.
  induction rest as [|c rest IH]; intros pos regex escaped inCharClass; simpl;
    [discriminate|].
  intros H.
  repeat match type of H with
         | (if ?b then _ else _) = _ => destruct b
         end;
    try discriminate;
    try (apply IH in H; lia).
  injection H as H.
  pose proof (scan_flags_ge rest (pos + 1) (Str.push regex c)) as G.
  rewrite H in G. simpl in G. lia.
Qed.

(** ** What the emitting methods leave alone *)

Lemma same_cursor_refl (t : Tokenizer) : same_cursor t t.
Proof. constructor; reflexivity. Qed.

Lemma addToken_same_cursor (tok : Token) (t : Tokenizer) :
  same_cursor t (addToken tok t).
Proof. unfold addToken; destruct (currentBlock t); constructor; reflexivity. Qed.

Lemma finishToken_same_cursor (type : string) (t : Tokenizer) :
  same_cursor t (finishToken type t).
Proof.
  unfold finishToken. destruct (0 <? String.length (tokenBuffer t)).
  - destruct (addToken_same_cursor (Atom type (tokenBuffer t) None) t).
    constructor; simpl; assumption.
  - apply same_cursor_refl.
Qed.

Lemma finishToken_buffer (type : string) (t : Tokenizer) :
  tokenBuffer (finishToken type t) = "".
Proof.
  unfold finishToken. destruct (tokenBuffer t) eqn:E; simpl; [exact E|reflexivity].
Qed.

Lemma flushBuffer_same_cursor (t t' : Tokenizer) :
  flushBuffer t = Return t' -> same_cursor t t'.
Proof.
  unfold flushBuffer. intros H.
  repeat match type of H with
         | (if ?b then _ else _) = _ => destruct b
         end;
    try discriminate; injection H as <-;
    auto using finishToken_same_cursor, same_cursor_refl.
Qed.

Lemma flushBuffer_buffer (t t' : Tokenizer) :
  flushBuffer t = Return t' -> tokenBuffer t' = "".
Proof.
  unfold flushBuffer. intros H.
  destruct (tokenBuffer t) eqn:E; simpl in H.
  - injection H as <-. exact E.
  - rewrite <- E in H.
    repeat match type of H with
           | (if ?b then _ else _) = _ => destruct b
           end;
      try discriminate; injection H as <-; apply finishToken_buffer.
Qed.

Lemma flushBuffer_empty (t : Tokenizer) :
  tokenBuffer t = "" -> flushBuffer t = Return t.
Proof. unfold flushBuffer. intros ->. reflexivity. Qed.

(** ** Every turn of the loop moves forward *)

Ltac cursor H :=
  let C := fresh "C" in
  pose proof (flushBuffer_same_cursor _ _ H) as C; destruct C.

Ltac bind_case H t E :=
  match type of H with
  | bind ?m _ = _ => destruct m as [t| |] eqn:E; simpl in H; try discriminate
  end.

Lemma handleStringContent_moved (char : ascii) (t : Tokenizer) :
  moved t (handleStringContent char t).
Proof.
  unfold handleStringContent, moved.
  destruct (_ && _).
  - unfold char_at; simpl. destruct (String.get _ _); simpl; intuition lia.
  - destruct (is_char _ _); simpl.
    + destruct (finishToken_same_cursor "string" t). intuition lia.
    + intuition lia.
Qed.

Lemma handleComment_moved (t t' : Tokenizer) :
  position t < String.length (input t) ->
  handleComment t = Return t' -> moved t t'.
Proof.
  unfold handleComment, moved. intros Hlt H.
  bind_case H t1 E. cursor E.
  rewrite sc_input0, sc_position0 in H.
  destruct (Str.startsWith _ "//") eqn:S1.
  - injection H as <-.
    assert (K : position t <
                match Str.indexOf (input t) (chr Char.newline) (position t) with
                | Some i => i | None => String.length (input t) end).
    { destruct (Str.indexOf _ _ _) as [i|] eqn:I; [|exact Hlt].
      unfold Str.indexOf in I.
      destruct (String.length (input t) <? position t); [discriminate|].
      destruct (Str.find _ _) as [k|] eqn:F; [|discriminate].
      injection I as <-.
      apply find_prefix_zero in F; [lia|].
      destruct (Str.slice_from (input t) (position t)) as [|a rest];
        cbn [Str.startsWith chr] in S1 |- *; [discriminate|].
      destruct (Ascii.eqb_spec "/" a) as [<-|]; [reflexivity|discriminate]. }
    destruct (preserveComments (options t1));
      [destruct (addToken_same_cursor
                   (Atom "comment"
                      (Str.slice (input t) (position t)
                         match Str.indexOf (input t) (chr Char.newline) (position t) with
                         | Some i => i | None => String.length (input t) end) None) t1)|];
      simpl; repeat split; try congruence; lia.
  - destruct (Str.startsWith _ "/*").
    + destruct (Str.indexOf _ _ _) as [endIndex|] eqn:I; [|discriminate].
      apply indexOf_ge in I. injection H as <-.
      destruct (preserveComments (options t1));
        [destruct (addToken_same_cursor
                     (Atom "comment"
                        (Str.slice (input t) (position t) (endIndex + 2)) None) t1)|];
        destruct (1 <? _); simpl; repeat split; try congruence; lia.
    + injection H as <-. repeat split; try congruence; lia.
Qed.

Lemma handleRegex_moved (t t' : Tokenizer) :
  handleRegex t = Return t' -> moved t t'.
Proof.
  unfold handleRegex, moved. intros H.
  bind_case H t1 E. cursor E.
  destruct (scan_regex _ _ _ _ _) as [[p r]|] eqn:R; [|discriminate].
  apply scan_regex_gt in R. injection H as <-.
  destruct (addToken_same_cursor (Atom "regex" r None) t1).
  simpl. repeat split; try congruence; lia.
Qed.

Lemma updatePosition_moved (char : ascii) (t : Tokenizer) :
  moved t (updatePosition char t).
Proof.
  unfold updatePosition, moved.
  destruct (Ascii.eqb char Char.newline); simpl; [intuition lia|].
  destruct (Ascii.eqb char Char.cr); simpl; [|intuition lia].
  destruct (is_char _ _); simpl; intuition lia.
Qed.

Lemma handleMultiCharOperator_moved (t t' : Tokenizer) :
  handleMultiCharOperator t = Return t' -> moved t t'.
Proof.
  unfold handleMultiCharOperator, moved. intros H.
  bind_case H t1 E. cursor E.
  repeat match type of H with
         | (if ?b then _ else _) = _ => destruct b
         end;
    injection H as <-; simpl;
    try match goal with
        | |- context [addToken ?tok t1] => destruct (addToken_same_cursor tok t1)
        end;
    repeat split; try congruence; lia.
Qed.

Lemma startBlock_moved (char : ascii) (t t' : Tokenizer) :
  startBlock char t = Return t' -> moved t t'.
Proof.
  unfold startBlock, moved. intros H.
  bind_case H t1 E. cursor E. injection H as <-.
  unfold openBlock, addToken; simpl. destruct (currentBlock t1); simpl;
    repeat split; try congruence; lia.
Qed.

Lemma finishBlock_moved (char : ascii) (t t' : Tokenizer) :
  finishBlock char t = Return t' -> moved t t'.
Proof.
  unfold finishBlock, moved. intros H.
  bind_case H t1 E. cursor E.
  destruct (top _); [|discriminate].
  destruct (Heap.get _ _); [|discriminate].
  destruct (negb _); [discriminate|].
  injection H as <-. simpl. repeat split; try congruence; lia.
Qed.

Lemma dispatch_moved (char : ascii) (t t' : Tokenizer) :
  position t < String.length (input t) ->
  dispatch char t = Return t' -> moved t t'.
Proof.
  unfold dispatch. intros Hlt H.
  destruct (inString t).
  { injection H as <-. apply handleStringContent_moved. }
  destruct (checkComment t); [eauto using handleComment_moved|].
  destruct (_ && checkRegex t); [eauto using handleRegex_moved|].
  destruct (Char.is_quote char).
  { unfold startString in H. bind_case H t1 E. cursor E. injection H as <-.
    unfold moved; simpl. repeat split; try congruence; lia. }
  destruct (Char.is_space char).
  { bind_case H t1 E. cursor E. injection H as <-.
    match goal with
    | |- moved _ (updatePosition _ ?u) =>
        assert (G : same_cursor t1 u)
          by (destruct (preserveWhitespace (options t1));
              auto using addToken_same_cursor, same_cursor_refl);
        destruct G; destruct (updatePosition_moved char u) as (? & ? & ?)
    end.
    unfold moved. repeat split; try congruence; lia. }
  destruct (_ || _); [injection H as <-; unfold moved; simpl; intuition lia|].
  destruct (Char.is_ident char); [injection H as <-; unfold moved; simpl; intuition lia|].
  destruct (checkMultiCharOperator t); [eauto using handleMultiCharOperator_moved|].
  destruct (Str.includes _ char).
  { bind_case H t1 E. cursor E. injection H as <-.
    destruct (addToken_same_cursor (Atom "symbol" (chr char) None) t1).
    unfold moved. repeat split; try congruence; lia. }
  destruct (Str.includes _ char); [eauto using startBlock_moved|].
  destruct (Str.includes _ char); [eauto using finishBlock_moved|discriminate].
Qed.

Lemma iteration_advances (t t' : Tokenizer) :
  iteration t = Return t' ->
  input t' = input t /\ options t' = options t /\ position t < position t'
  /\ position t < String.length (input t).
Proof.
  unfold iteration, char_at. intros H.
  destruct (String.get _ _) as [char|] eqn:G; [|discriminate].
  apply get_lt in G.
  bind_case H t1 E. apply dispatch_moved in E; [|exact G].
  destruct E as (? & ? & ?). injection H as <-.
  destruct (_ && _); simpl; repeat split; try congruence; lia.
Qed.

(** The loop is bounded by the text still ahead: fuel beyond it changes
    nothing. *)
Lemma scan_fuel (f1 f2 : nat) (t : Tokenizer) :
  String.length (input t) - position t <= f1 ->
  String.length (input t) - position t <= f2 ->
  scan f1 t = scan f2 t.
Proof.
  revert f2 t. induction f1 as [|f1 IH]; intros [|f2] t H1 H2; simpl;
    destruct (position t <? String.length (input t)) eqn:L; try reflexivity;
    try (apply Nat.ltb_lt in L; lia).
  destruct (iteration t) as [t1| |] eqn:E; simpl; try reflexivity.
  apply iteration_advances in E. destruct E as (Ei & _ & Ep & _).
  apply IH; rewrite Ei; lia.
Qed.

Lemma scan_enough_fuel (t : Tokenizer) (fuel : nat) :
  String.length (input t) - position t <= fuel ->
  scan fuel t = scan (String.length (input t) - position t) t.
Proof. intros H. apply scan_fuel; [exact H|lia]. Qed.

(** One turn of the loop and then [tokenize()] is [tokenize()]. *)
Lemma tokenize_iteration (t t' : Tokenizer) :
  iteration t = Return t' -> tokenize t = tokenize t'.
Proof.
  intros E. pose proof (iteration_advances _ _ E) as (Ei & _ & Ep & El).
  unfold tokenize.
  destruct (String.length (input t) - position t) as [|f] eqn:F; [lia|].
  simpl. apply Nat.ltb_lt in El. rewrite El, E. simpl.
  apply Nat.ltb_lt in El.
  rewrite (scan_enough_fuel t' f) by (rewrite Ei; lia).
  reflexivity.
Qed.

Lemma tokenize_iteration_throw (t : Tokenizer) (e : Error) :
  position t < String.length (input t) ->
  iteration t = Throw e -> tokenize t = Throw e.
Proof.
  intros L E. unfold tokenize.
  destruct (String.length (input t) - position t) as [|f] eqn:F; [lia|].
  simpl. apply Nat.ltb_lt in L. rewrite L, E. reflexivity.
Qed.

Lemma tokenize_turns (n : nat) (t t' : Tokenizer) :
  turns n t = Return t' -> tokenize t = tokenize t'.
Proof.
  revert t. induction n as [|n IH]; intros t H; simpl in H.
  - injection H as <-. reflexivity.
  - bind_case H t1 E. rewrite (tokenize_iteration _ _ E). apply IH, H.
Qed.

(** The loop only ends at the end of the text. *)
Lemma scan_end (fuel : nat) (t t' : Tokenizer) :
  scan fuel t = Return t' -> String.length (input t') <= position t'.
Proof.
  revert t. induction fuel as [|fuel IH]; intros t; simpl;
    destruct (position t <? String.length (input t)) eqn:L;
    try discriminate;
    try (intros [= <-]; apply Nat.ltb_ge in L; exact L).
  intros H. bind_case H t1 E. eauto.
Qed.

Lemma tokenize_at_end (t : Tokenizer) :
  String.length (input t) <= position t -> tokenize t = finish t.
Proof.
  intros H. unfold tokenize.
  replace (String.length (input t) - position t) with 0 by lia.
  simpl. apply Nat.ltb_ge in H. rewrite H. reflexivity.
Qed.

(** ** A second call of [tokenize()] on the same instance *)

Lemma finish_return (t t' : Tokenizer) (res : Scanned) :
  finish t = Return (res, t') ->
  flushBuffer t = Return t' /\ top (tokenStack t') = None
  /\ inString t' = false /\ res = scanned t'.
Proof.
  unfold finish. intros H. bind_case H t1 E.
  destruct (top _) as [l|] eqn:T; [destruct (Heap.get _ _); discriminate|].
  destruct (inString t1) eqn:S; [discriminate|].
  injection H as <- <-. auto.
Qed.

(** C9. When a first [tokenize()] on a fresh instance succeeds with a
    non-empty token sequence, a second [tokenize()] on the same instance does
    not return an empty result: it succeeds again, leaves the instance as it
    was, and returns the same non-empty sequence. *)
Theorem tokenize_again_same_tokens (text : string) (opts : Options)
    (toks : list Token) (t' : Tokenizer) :
  run text opts = Return (TokenArray toks, t') ->
  toks <> [] ->
  exists toks', tokenize t' = Return (TokenArray toks', t')
                /\ toks' = toks /\ toks' <> [].
Proof.
  unfold run, tokenize. intros H Hne.
  bind_case H t1 E.
  apply scan_end in E.
  apply finish_return in H. destruct H as (F & Htop & Hstr & Hres).
  pose proof (flushBuffer_buffer _ _ F) as Hbuf.
  destruct (flushBuffer_same_cursor _ _ F).
  exists toks. split; [|auto].
  fold (tokenize t'). rewrite tokenize_at_end by (rewrite sc_input0, sc_position0; exact E).
  unfold finish. rewrite (flushBuffer_empty _ Hbuf). simpl.
  rewrite Htop, Hstr, <- Hres. reflexivity.
Qed.

Lemma tokenize_again_same_tokens_witness :
  exists t' toks',
    run "x" default_options = Return (TokenArray [Atom "identifier" "x" None], t')
    /\ tokenize t' = Return (TokenArray toks', t')
    /\ toks' = [Atom "identifier" "x" None] /\ toks' <> [].
Proof.
  eexists.
  destruct (@tokenize_again_same_tokens "x" default_options
              [Atom "identifier" "x" None] _ eq_refl) as (toks' & H1 & H2 & H3).
  - discriminate.
  - exists toks'. split; [reflexivity|]. split; [exact H1|]. split; assumption.
Defined.

(** ** The scenarios, evaluated *)

(** Replace a closed call by its value. *)
Ltac evaluate x :=
  let r := fresh "r" in
  let R := fresh "R" in
  remember x as r eqn:R; vm_compute in R; subst r.

Ltac evaluate_calls :=
  repeat match goal with
         | |- context [run ?s ?o] => evaluate (run s o)
         | |- context [turns ?n ?t] => evaluate (turns n t)
         | |- context [filter ?ty ?t] => evaluate (filter ty t)
         end.

Lemma is_quote_cases (q : ascii) :
  Char.is_quote q = true ->
  q = Char.backtick \/ q = Char.squote \/ q = Char.dquote.
Proof.
  unfold Char.is_quote. intros H.
  apply orb_true_iff in H. destruct H as [H|H];
    [apply orb_true_iff in H; destruct H as [H|H]|];
    apply Ascii.eqb_eq in H; auto.
Qed.

(** The documented scenarios on which code and documentation agree. *)
Lemma scenario_let_statement :
  result_of (run "let x=1;" default_options)
  = Return (TokenArray [Atom "identifier" "let" None; Atom "identifier" "x" None;
                        Atom "symbol" "=" None; Atom "number" "1" None;
                        Atom "symbol" ";" None]).
Proof. vm_compute. reflexivity. Qed.

Lemma scenario_strict_equality :
  result_of (run "a === b" default_options)
  = Return (TokenArray [Atom "identifier" "a" None; Atom "symbol" "===" None;
                        Atom "identifier" "b" None]).
Proof. vm_compute. reflexivity. Qed.

(** C10. An empty string literal emits no token: closing a string whose
    buffer is empty adds nothing, and the two-character input made of one
    quote character twice tokenizes, under every configuration, to the empty
    token sequence. *)
Theorem empty_string_literal_no_token (q : ascii) (opts : Options) :
  Char.is_quote q = true ->
  (forall t : Tokenizer,
      tokenBuffer t = "" -> stringDelimiter t = Some q ->
      handleStringContent q t = set_string false None t)
  /\ result_of (run (String q (String q "")) opts) = Return (TokenArray []).
Proof.
  intros Hq. split.
  - intros t Hb Hd. unfold handleStringContent, finishToken.
    rewrite Hb, Hd. simpl. rewrite Ascii.eqb_refl.
    destruct (is_quote_cases _ Hq) as [ -> | [ -> | -> ] ]; reflexivity.
  - destruct opts as [tp pw pc ar co hx bn oc tl].
    destruct (is_quote_cases _ Hq) as [ -> | [ -> | -> ] ]; destruct ar;
      vm_compute; reflexivity.
Qed.

Lemma empty_string_literal_no_token_witness :
  Char.is_quote Char.dquote = true
  /\ result_of (run (String Char.dquote (String Char.dquote "")) default_options)
     = Return (TokenArray []).
Proof.
  split; [reflexivity|].
  exact (proj2 (@empty_string_literal_no_token Char.dquote default_options eq_refl)).
Defined.

(** C4. On [return /a/;] the slash after [return] is not taken for a regex:
    the word was emitted as an identifier, so the type test of the heuristic
    rejects it, and the scan yields the two slashes as symbols. *)
Theorem return_then_slash_is_not_regex :
  result_of (run "return /a/;" default_options)
  = Return (TokenArray [Atom "identifier" "return" None; Atom "symbol" "/" None;
                        Atom "identifier" "a" None; Atom "symbol" "/" None;
                        Atom "symbol" ";" None])
  /\ exists t, turns 7 (new_Tokenizer "return /a/;" default_options) = Return t
               /\ char_at t (position t) = Some Char.slash
               /\ getLastMeaningfulToken t = Some (Atom "identifier" "return" None)
               /\ checkRegex t = false.
Proof.
  split; [vm_compute; reflexivity|].
  evaluate_calls. eexists. split; [reflexivity|]. vm_compute. repeat split.
Qed.

(** The part of the heuristic that does fire: after the symbol [=], and at
    the start of a block. *)
Lemma regex_after_assignment_and_opener :
  result_of (run "x = /a/g;" default_options)
  = Return (TokenArray [Atom "identifier" "x" None; Atom "symbol" "=" None;
                        Atom "regex" "/a/g" None; Atom "symbol" ";" None])
  /\ (exists t, run "(/a/)" default_options = Return (TokenArray [BlockRef 0], t)
                /\ Heap.children_of (heap t) 0 = [Atom "regex" "/a/" None]).
Proof.
  split; [vm_compute; reflexivity|].
  evaluate_calls. eexists; split; reflexivity.
Qed.

(** The heuristic on every instance: an identifier before the slash, whatever
    its value, rules a regex out; no token before it, or one of the listed
    symbols, lets one start when the next character allows it. *)
Lemma checkRegex_after_identifier (t : Tokenizer) (v : string) (p : option Position) :
  getLastMeaningfulToken t = Some (Atom "identifier" v p) -> checkRegex t = false.
Proof.
  unfold checkRegex. intros ->.
  destruct (negb _); reflexivity.
Qed.

Lemma checkRegex_in_context (t : Tokenizer) (c : ascii) :
  char_at t (position t) = Some Char.slash ->
  char_at t (position t + 1) = Some c ->
  c <> Char.slash -> c <> "="%char ->
  (getLastMeaningfulToken t = None
   \/ exists v p, getLastMeaningfulToken t = Some (Atom "symbol" v p)
                  /\ Str.one_of v ["="; "("; "["; ","; "return"; "throw"] = true) ->
  checkRegex t = true.
Proof.
  unfold checkRegex. intros G G1 N1 N2 L.
  pose proof (get_lt _ _ _ G1) as Lt. apply Nat.ltb_lt in Lt.
  apply Ascii.eqb_neq in N1, N2.
  rewrite G, G1, Lt. cbn [is_char negb]. rewrite Ascii.eqb_refl, N1, N2.
  destruct L as [ -> | (v & p & -> & E) ]; [reflexivity|].
  cbn [type_of value_of]. rewrite E. reflexivity.
Qed.

(** C5. With comments discarded, [/* a */x] yields the single identifier
    [x]; the scanner reaches [x] at offset 7 on line 1 with its column at 2,
    the comment having advanced the column by one only. *)
Theorem discarded_comment_column :
  let opts := with_preserveComments false default_options in
  result_of (run "/* a */x" opts) = Return (TokenArray [Atom "identifier" "x" None])
  /\ exists t, turns 1 (new_Tokenizer "/* a */x" opts) = Return t
               /\ position t = 7 /\ char_at t (position t) = Some "x"%char
               /\ line t = 1 /\ column t = 2.
Proof.
  split; [vm_compute; reflexivity|].
  evaluate_calls. eexists. split; [reflexivity|]. vm_compute. repeat split.
Qed.

(** What the stale column does to a diagnostic: the unexpected character at
    offset 7 is reported in column 2. *)
Lemma discarded_comment_column_in_error :
  exists e, run "/* a */@" (with_preserveComments false default_options) = Throw e
            /\ kind e = UnexpectedCharacter "@" /\ offset e = 7 /\ at_column e = 2.
Proof. evaluate_calls. eexists. split; [reflexivity|]. repeat split. Qed.

(** C3. [filter] assigns the filtered array to the [children] of every block
    it visits: after [filter('identifier')] on the tree of [(a 1)] the block
    the [tokenize()] result refers to has lost its number token, and a later
    [filter('number')] on the same instance finds nothing. *)
Theorem filter_rewrites_block_children :
  exists t t',
    run "(a 1)" default_options = Return (TokenArray [BlockRef 0], t)
    /\ Heap.children_of (heap t) 0
       = [Atom "identifier" "a" None; Atom "number" "1" None]
    /\ filter "identifier" t = Some ([BlockRef 0], t')
    /\ tokens t' = tokens t
    /\ Heap.children_of (heap t') 0 = [Atom "identifier" "a" None]
    /\ option_map fst (filter "number" t) = Some [BlockRef 0]
    /\ option_map fst (filter "number" t') = Some [].
Proof.
  evaluate_calls. do 2 eexists. split; [reflexivity|].
  split; [reflexivity|]. split; [vm_compute; reflexivity|].
  vm_compute. repeat split.
Qed.

(** [filter] touches nothing but the store. *)
Lemma filter_keeps_fields (type : string) (t t' : Tokenizer) (kept : list Token) :
  filter type t = Some (kept, t') ->
  tokens t' = tokens t /\ same_cursor t t' /\ tokenBuffer t' = tokenBuffer t.
Proof.
  unfold filter. destruct (scanned t); [|discriminate].
  destruct (filterRecursive _ _ _ _) as [[k h]|]; [|discriminate].
  intros [= _ <-]. repeat split.
Qed.

(** The read-only sibling sees the damage: [find] for numbers meets the
    nested [1] before the call of [filter] and nothing after it. *)
Lemma find_after_filter :
  let is_number tok := String.eqb (type_of tok) "number" in
  exists t t',
    run "(a 1)" default_options = Return (TokenArray [BlockRef 0], t)
    /\ filter "identifier" t = Some ([BlockRef 0], t')
    /\ find is_number t = Some [Atom "number" "1" None]
    /\ find is_number t' = Some [].
Proof.
  intros is_number. evaluate_calls. do 2 eexists.
  split; [reflexivity|]. split; [vm_compute; reflexivity|].
  split; vm_compute; reflexivity.
Qed.

(** ** Invariants of the scan *)

(** A property of the instance that every elementary update keeps is kept by
    each method and by [tokenize()] as a whole. *)
Section Invariant.

Variable P : Tokenizer -> Prop.

Hypothesis P_tokenBuffer : forall v t, P t -> P (set_tokenBuffer v t).
Hypothesis P_position : forall v t, P t -> P (set_position v t).
Hypothesis P_line : forall v t, P t -> P (set_line v t).
Hypothesis P_column : forall v t, P t -> P (set_column v t).
Hypothesis P_string : forall flag d t, P t -> P (set_string flag d t).
Hypothesis P_addToken :
  forall type value t, P t -> P (addToken (Atom type value None) t).
Hypothesis P_openBlock : forall char t, P t -> P (openBlock char t).
Hypothesis P_closeBlock : forall t, P t -> P (closeBlock t).

Lemma finishToken_keeps (type : string) (t : Tokenizer) :
  P t -> P (finishToken type t).
Proof. unfold finishToken. destruct (0 <? _); auto. Qed.

Lemma flushBuffer_keeps (t t' : Tokenizer) :
  P t -> flushBuffer t = Return t' -> P t'.
Proof.
  unfold flushBuffer. intros Ht H.
  repeat match type of H with
         | (if ?b then _ else _) = _ => destruct b
         end;
    try discriminate; injection H as <-; auto using finishToken_keeps.
Qed.

Lemma handleStringContent_keeps (char : ascii) (t : Tokenizer) :
  P t -> P (handleStringContent char t).
Proof.
  unfold handleStringContent. intros Ht.
  destruct (_ && _).
  - destruct (char_at _ _); auto.
  - destruct (is_char _ _); auto using finishToken_keeps.
Qed.

Lemma handleComment_keeps (t t' : Tokenizer) :
  P t -> handleComment t = Return t' -> P t'.
Proof.
  unfold handleComment. intros Ht H.
  bind_case H t1 E. apply flushBuffer_keeps in E; [|exact Ht].
  destruct (Str.startsWith _ "//").
  { injection H as <-. destruct (preserveComments _); auto. }
  destruct (Str.startsWith _ "/*"); [|injection H as <-; exact E].
  destruct (Str.indexOf _ _ _); [|discriminate].
  injection H as <-.
  destruct (preserveComments _), (1 <? _); auto 6.
Qed.

Lemma handleRegex_keeps (t t' : Tokenizer) :
  P t -> handleRegex t = Return t' -> P t'.
Proof.
  unfold handleRegex. intros Ht H.
  bind_case H t1 E. apply flushBuffer_keeps in E; [|exact Ht].
  destruct (scan_regex _ _ _ _ _) as [[p r]|]; [|discriminate].
  injection H as <-. auto.
Qed.

Lemma updatePosition_keeps (char : ascii) (t : Tokenizer) :
  P t -> P (updatePosition char t).
Proof.
  unfold updatePosition. intros Ht.
  destruct (Ascii.eqb char Char.newline); auto.
  destruct (Ascii.eqb char Char.cr); auto.
  destruct (is_char _ _); auto.
Qed.

Lemma handleMultiCharOperator_keeps (t t' : Tokenizer) :
  P t -> handleMultiCharOperator t = Return t' -> P t'.
Proof.
  unfold handleMultiCharOperator. intros Ht H.
  bind_case H t1 E. apply flushBuffer_keeps in E; [|exact Ht].
  repeat match type of H with
         | (if ?b then _ else _) = _ => destruct b
         end;
    injection H as <-; auto.
Qed.

Lemma startBlock_keeps (char : ascii) (t t' : Tokenizer) :
  P t -> startBlock char t = Return t' -> P t'.
Proof.
  unfold startBlock. intros Ht H.
  bind_case H t1 E. apply flushBuffer_keeps in E; [|exact Ht].
  injection H as <-. auto.
Qed.

Lemma finishBlock_keeps (char : ascii) (t t' : Tokenizer) :
  P t -> finishBlock char t = Return t' -> P t'.
Proof.
  unfold finishBlock. intros Ht H.
  bind_case H t1 E. apply flushBuffer_keeps in E; [|exact Ht].
  destruct (top _); [|discriminate].
  destruct (Heap.get _ _); [|discriminate].
  destruct (negb _); [discriminate|].
  injection H as <-. auto.
Qed.

Lemma dispatch_keeps (char : ascii) (t t' : Tokenizer) :
  P t -> dispatch char t = Return t' -> P t'.
Proof.
  unfold dispatch. intros Ht H.
  destruct (inString t);
    [injection H as <-; auto using handleStringContent_keeps|].
  destruct (checkComment t); [eauto using handleComment_keeps|].
  destruct (_ && checkRegex t); [eauto using handleRegex_keeps|].
  destruct (Char.is_quote char).
  { unfold startString in H. bind_case H t1 E.
    apply flushBuffer_keeps in E; [|exact Ht]. injection H as <-. auto. }
  destruct (Char.is_space char).
  { bind_case H t1 E. apply flushBuffer_keeps in E; [|exact Ht].
    injection H as <-. apply updatePosition_keeps.
    destruct (preserveWhitespace _); auto. }
  destruct (_ || _); [injection H as <-; auto|].
  destruct (Char.is_ident char); [injection H as <-; auto|].
  destruct (checkMultiCharOperator t); [eauto using handleMultiCharOperator_keeps|].
  destruct (Str.includes _ char).
  { bind_case H t1 E. apply flushBuffer_keeps in E; [|exact Ht].
    injection H as <-. auto. }
  destruct (Str.includes _ char); [eauto using startBlock_keeps|].
  destruct (Str.includes _ char); [eauto using finishBlock_keeps|discriminate].
Qed.

Lemma iteration_keeps (t t' : Tokenizer) :
  P t -> iteration t = Return t' -> P t'.
Proof.
  unfold iteration. intros Ht H.
  destruct (char_at _ _) as [char|]; [|discriminate].
  bind_case H t1 E. apply dispatch_keeps in E; [|exact Ht].
  injection H as <-. destruct (_ && _); auto.
Qed.

Lemma turns_keeps (n : nat) (t t' : Tokenizer) :
  P t -> turns n t = Return t' -> P t'.
Proof.
  revert t. induction n as [|n IH]; intros t Ht H; simpl in H.
  - injection H as <-. exact Ht.
  - bind_case H t1 E. apply (IH t1); [|exact H].
    exact (iteration_keeps _ _ Ht E).
Qed.

Lemma scan_keeps (fuel : nat) (t t' : Tokenizer) :
  P t -> scan fuel t = Return t' -> P t'.
Proof.
  revert t. induction fuel as [|fuel IH]; intros t Ht; simpl;
    destruct (position t <? String.length (input t));
    try discriminate; try (intros [= <-]; exact Ht).
  intros H. bind_case H t1 E. apply (IH t1); [|exact H].
  exact (iteration_keeps _ _ Ht E).
Qed.

Lemma tokenize_keeps (t t' : Tokenizer) (res : Scanned) :
  P t -> tokenize t = Return (res, t') -> P t'.
Proof.
  unfold tokenize. intros Ht H.
  bind_case H t1 E. apply scan_keeps in E; [|exact Ht].
  apply finish_return in H. destruct H as (F & _).
  exact (flushBuffer_keeps _ _ E F).
Qed.

End Invariant.

(** ** The store *)

Lemma update_length (h : Heap) (l : loc) (f : Block -> Block) :
  length (Heap.update h l f) = length h.
Proof.
  revert l; induction h as [|b h IH]; intros [|l]; simpl; auto.
Qed.

Lemma update_Forall (Q : Block -> Prop) (h : Heap) (l : loc) (f : Block -> Block) :
  (forall b, Q b -> Q (f b)) -> Forall Q h -> Forall Q (Heap.update h l f).
Proof.
  intros Hf. revert l; induction h as [|b h IH]; intros [|l] H; simpl;
    inversion H; subst; constructor; auto.
Qed.

Lemma get_update (h : Heap) (l l' : loc) (f : Block -> Block) :
  Heap.get (Heap.update h l' f) l
  = if l =? l' then option_map f (Heap.get h l) else Heap.get h l.
Proof.
  unfold Heap.get. revert l l'; induction h as [|b h IH]; intros [|l] [|l']; simpl;
    try reflexivity.
  - destruct (l =? l'); reflexivity.
  - apply IH.
Qed.

Lemma top_snoc (stack : list loc) (l : loc) : top (stack ++ [l]) = Some l.
Proof.
  unfold top. rewrite length_app, Nat.add_sub. simpl.
  rewrite nth_error_app2 by lia. rewrite Nat.sub_diag. reflexivity.
Qed.

Lemma top_In (stack : list loc) (l : loc) : top stack = Some l -> In l stack.
Proof. unfold top. apply nth_error_In. Qed.

Lemma removelast_In (A : Type) (x : A) (l : list A) :
  In x (removelast l) -> In x l.
Proof.
  induction l as [|a l IH]; simpl; [tauto|].
  destruct l as [|b l]; [simpl; tauto|].
  intros [H|H]; [left; exact H|right; apply IH, H].
Qed.

(** ** [tokenize()] returns or throws *)

Lemma addToken_well_formed (tok : Token) (t : Tokenizer) :
  well_formed t -> well_formed (addToken tok t).
Proof.
  unfold well_formed, addToken. intros [Hc Hs].
  destruct (currentBlock t) eqn:C; simpl; rewrite ?C; split; auto.
  unfold Heap.push_child. rewrite update_length. exact Hs.
Qed.

Lemma openBlock_well_formed (char : ascii) (t : Tokenizer) :
  well_formed t -> well_formed (openBlock char t).
Proof.
  unfold well_formed, openBlock, addToken. intros [Hc Hs]. simpl.
  destruct (currentBlock t); simpl; rewrite top_snoc; (split; [reflexivity|]);
    apply Forall_app; unfold Heap.push_child; rewrite ?update_length, length_app;
    simpl; (split; [|repeat constructor; lia]);
    (eapply Forall_impl; [|exact Hs]); simpl; intros; lia.
Qed.

Lemma closeBlock_well_formed (t : Tokenizer) :
  well_formed t -> well_formed (closeBlock t).
Proof.
  unfold well_formed, closeBlock. intros [Hc Hs]. simpl. split; [reflexivity|].
  rewrite Forall_forall in *. intros l I. apply Hs, removelast_In, I.
Qed.

Lemma well_formed_kept :
  (forall t t', well_formed t -> flushBuffer t = Return t' -> well_formed t')
  /\ (forall t t', well_formed t -> iteration t = Return t' -> well_formed t').
Proof.
  split; intros t t'.
  - apply flushBuffer_keeps; try (intros; assumption).
    intros; apply addToken_well_formed; assumption.
  - apply iteration_keeps; try (intros; assumption).
    + intros; apply addToken_well_formed; assumption.
    + apply openBlock_well_formed.
    + apply closeBlock_well_formed.
Qed.

Lemma well_formed_top (t : Tokenizer) (l : loc) :
  well_formed t -> top (tokenStack t) = Some l ->
  exists b, Heap.get (heap t) l = Some b.
Proof.
  intros [_ Hs] T. apply top_In in T. rewrite Forall_forall in Hs.
  apply Hs in T. unfold Heap.get.
  destruct (nth_error (heap t) l) eqn:E; [eauto|].
  apply nth_error_None in E. lia.
Qed.

Lemma flushBuffer_settles (t : Tokenizer) : flushBuffer t <> Stuck.
Proof.
  unfold flushBuffer.
  repeat match goal with
         | |- (if ?b then _ else _) <> _ => destruct b
         end; discriminate.
Qed.

Ltac settle :=
  repeat match goal with
         | |- bind (flushBuffer ?t) _ <> Stuck =>
             let E := fresh "E" in
             destruct (flushBuffer t) eqn:E; simpl;
             [|discriminate|destruct (flushBuffer_settles _ E)]
         | |- (if ?b then _ else _) <> Stuck => destruct b
         | |- match ?x with _ => _ end <> Stuck => destruct x
         end;
  try discriminate.

Lemma finishBlock_settles (char : ascii) (t : Tokenizer) :
  well_formed t -> finishBlock char t <> Stuck.
Proof.
  unfold finishBlock. intros W.
  destruct (flushBuffer t) as [t1| |] eqn:E; simpl;
    [|discriminate|destruct (flushBuffer_settles _ E)].
  apply (proj1 well_formed_kept _ _ W) in E.
  destruct (top _) as [l|] eqn:T; [|discriminate].
  destruct (well_formed_top _ _ E T) as [b ->].
  destruct (negb _); discriminate.
Qed.

Lemma dispatch_settles (char : ascii) (t : Tokenizer) :
  well_formed t -> dispatch char t <> Stuck.
Proof.
  unfold dispatch. intros W.
  destruct (inString t); [discriminate|].
  destruct (checkComment t); [unfold handleComment; settle|].
  destruct (_ && checkRegex t); [unfold handleRegex; settle|].
  destruct (Char.is_quote char); [unfold startString; settle|].
  destruct (Char.is_space char); [settle|].
  destruct (_ || _); [discriminate|].
  destruct (Char.is_ident char); [discriminate|].
  destruct (checkMultiCharOperator t); [unfold handleMultiCharOperator; settle|].
  destruct (Str.includes _ char); [settle|].
  destruct (Str.includes _ char); [unfold startBlock; settle|].
  destruct (Str.includes _ char); [apply finishBlock_settles, W|discriminate].
Qed.

Lemma iteration_settles (t : Tokenizer) :
  well_formed t -> position t < String.length (input t) -> iteration t <> Stuck.
Proof.
  unfold iteration, char_at. intros W L.
  destruct (String.get _ _) as [char|] eqn:G; [|apply get_ge in G; lia].
  pose proof (dispatch_settles char t W) as D.
  destruct (dispatch char t); simpl; [discriminate|discriminate|contradiction].
Qed.

Lemma scan_settles (fuel : nat) (t : Tokenizer) :
  well_formed t -> String.length (input t) - position t <= fuel ->
  scan fuel t <> Stuck.
Proof.
  revert t. induction fuel as [|fuel IH]; intros t W F; simpl;
    destruct (position t <? String.length (input t)) eqn:L; try discriminate;
    apply Nat.ltb_lt in L; [lia|].
  pose proof (iteration_settles t W L) as I.
  destruct (iteration t) as [t1| |] eqn:E; simpl; [|discriminate|contradiction].
  pose proof (iteration_advances _ _ E) as (Ei & _ & Ep & _).
  apply IH; [exact (proj2 well_formed_kept _ _ W E)|rewrite Ei; lia].
Qed.

Lemma finish_settles (t : Tokenizer) : well_formed t -> finish t <> Stuck.
Proof.
  unfold finish. intros W.
  destruct (flushBuffer t) as [t1| |] eqn:E; simpl;
    [|discriminate|destruct (flushBuffer_settles _ E)].
  apply (proj1 well_formed_kept _ _ W) in E.
  destruct (top _) as [l|] eqn:T.
  - destruct (well_formed_top _ _ E T) as [b ->]. discriminate.
  - destruct (inString t1); discriminate.
Qed.

(** X18. [tokenize()] on a fresh instance ends, on every text and
    configuration, by returning or by throwing an error of [#error]: every
    turn of the loop moves the offset forward, so the loop runs at most as
    many turns as the text has characters, and the top of [#tokenStack] is
    always a block object. The model's [Stuck] is never the outcome. *)
Theorem tokenize_total (text : string) (opts : Options) :
  (exists res t', run text opts = Return (res, t'))
  \/ (exists e, run text opts = Throw e).
Proof.
  assert (W : well_formed (new_Tokenizer text opts)) by (split; constructor).
  unfold run, tokenize.
  pose proof (scan_settles (String.length (input (new_Tokenizer text opts))
                            - position (new_Tokenizer text opts)) _ W (le_n _)) as S.
  destruct (scan _ _) as [t1| |] eqn:E; simpl; [|right; eauto|contradiction].
  assert (W1 : well_formed t1).
  { revert E. apply scan_keeps; try (intros; assumption).
    - intros; apply addToken_well_formed; assumption.
    - apply openBlock_well_formed.
    - apply closeBlock_well_formed. }
  pose proof (finish_settles t1 W1) as F.
  destruct (finish t1) as [[res t']| |]; [left; eauto|right; eauto|contradiction].
Qed.

(** On success nothing is left open: the result is the top-level array. *)
Lemma tokenize_returns_array (text : string) (opts : Options)
    (res : Scanned) (t' : Tokenizer) :
  run text opts = Return (res, t') -> res = TokenArray (tokens t').
Proof.
  intros H.
  assert (W : well_formed t').
  { revert H. apply tokenize_keeps; try (intros; assumption).
    - intros; apply addToken_well_formed; assumption.
    - apply openBlock_well_formed.
    - apply closeBlock_well_formed.
    - split; constructor. }
  unfold run, tokenize in H. bind_case H t1 E.
  apply finish_return in H. destruct H as (_ & T & _ & ->).
  destruct W as [C _]. unfold scanned. rewrite C, T. reflexivity.
Qed.

(** ** No token object carries a position *)

Lemma addToken_positionless (tok : Token) (t : Tokenizer) :
  bare tok -> positionless t -> positionless (addToken tok t).
Proof.
  unfold positionless, addToken. intros Hb [Ht Hh].
  destruct (currentBlock t); simpl; split; auto.
  - apply update_Forall; [|exact Hh].
    intros b Q; simpl. apply Forall_app; auto.
  - apply Forall_app; auto.
Qed.

Lemma openBlock_positionless (char : ascii) (t : Tokenizer) :
  positionless t -> positionless (openBlock char t).
Proof.
  intros [Ht Hh].
  assert (G : positionless
                (addToken (BlockRef (length (heap t)))
                   (set_heap (heap t ++ [{| opener := char; closer := closers char;
                                            children := [] |}]) t))).
  { apply addToken_positionless; [reflexivity|].
    split; simpl; [exact Ht|]. apply Forall_app; split; [exact Hh|].
    repeat constructor. }
  exact G.
Qed.

Lemma tokenize_positionless (t t' : Tokenizer) (res : Scanned) :
  positionless t -> tokenize t = Return (res, t') -> positionless t'.
Proof.
  apply tokenize_keeps; try (intros; assumption).
  - intros type value u. apply addToken_positionless. reflexivity.
  - apply openBlock_positionless.
Qed.

(** C1. With position tracking enabled (or not), no token that [tokenize()]
    emits carries a position: every element of the top-level array and of
    every block's [children] has no [position] property. *)
Theorem emitted_tokens_have_no_position (text : string) (opts : Options)
    (res : Scanned) (t' : Tokenizer) :
  run text opts = Return (res, t') ->
  (forall toks tok, res = TokenArray toks -> In tok toks -> position_of tok = None)
  /\ (forall l b tok, Heap.get (heap t') l = Some b -> In tok (children b) ->
                      position_of tok = None).
Proof.
  intros H. pose proof (tokenize_returns_array _ _ _ _ H) as R.
  apply tokenize_positionless in H.
  - destruct H as [Ht Hh]. split.
    + intros toks tok E. rewrite R in E. injection E as <-.
      revert tok. apply Forall_forall, Ht.
    + intros l b tok G I. apply nth_error_In in G.
      rewrite Forall_forall in Hh. specialize (Hh b G).
      rewrite Forall_forall in Hh. apply Hh, I.
  - split; constructor.
Qed.

Lemma emitted_tokens_have_no_position_witness :
  trackPosition default_options = true
  /\ exists t', run "x" default_options
                = Return (TokenArray [Atom "identifier" "x" None], t')
                /\ forall tok, In tok [Atom "identifier" "x" None] ->
                               position_of tok = None.
Proof.
  split; [reflexivity|]. eexists. split; [vm_compute; reflexivity|].
  exact (fun tok =>
           proj1 (@emitted_tokens_have_no_position "x" default_options _ _ eq_refl)
             _ tok eq_refl).
Defined.

(** ** What the flush does to the store *)

Lemma addToken_brackets (tok : Token) (t : Tokenizer) :
  same_brackets (heap t) (heap (addToken tok t)).
Proof.
  unfold same_brackets, addToken. intros l b G.
  destruct (currentBlock t) as [c|]; simpl; [|eauto].
  unfold Heap.push_child. rewrite get_update, G.
  destruct (l =? c); simpl; eauto.
Qed.

Lemma flushBuffer_brackets (t t' : Tokenizer) :
  flushBuffer t = Return t' -> same_brackets (heap t) (heap t').
Proof.
  unfold flushBuffer, finishToken. intros H.
  repeat match type of H with
         | (if ?b then _ else _) = _ => destruct b
         end;
    try discriminate; injection H as <-;
    try apply addToken_brackets; intros l b G; eauto.
Qed.

Lemma flushBuffer_returns (t : Tokenizer) :
  malformed_number (tokenBuffer t) = false -> exists t', flushBuffer t = Return t'.
Proof.
  unfold malformed_number, flushBuffer. intros H.
  destruct (0 <? _); [|eauto].
  destruct (Str.all _ _); [|eauto].
  simpl in H. rewrite H. eauto.
Qed.

Lemma turns_input (n : nat) (t t' : Tokenizer) :
  turns n t = Return t' -> input t' = input t /\ options t' = options t.
Proof.
  revert t. induction n as [|n IH]; intros t H; simpl in H.
  - injection H as <-. auto.
  - bind_case H t1 E. apply iteration_advances in E. apply IH in H.
    destruct E as (E1 & E2 & _), H as [H1 H2]. split; congruence.
Qed.

Lemma turns_well_formed (n : nat) (text : string) (opts : Options) (t : Tokenizer) :
  turns n (new_Tokenizer text opts) = Return t -> well_formed t.
Proof.
  apply turns_keeps; try (intros; assumption).
  - intros; apply addToken_well_formed; assumption.
  - apply openBlock_well_formed.
  - apply closeBlock_well_formed.
  - split; constructor.
Qed.

(** ** End of input inside a string *)

(** C6, as the code has it. When the scan of a text reaches end-of-input
    still inside a string literal and the pending body is not a
    digits-and-dots run with several dots, [tokenize()] fails at the
    end-of-input offset: with the unclosed-string error naming the delimiter
    when no block is open, and with the unclosed-block error naming the
    innermost opener when one is. *)
Theorem end_of_input_inside_string (text : string) (opts : Options)
    (n : nat) (t : Tokenizer) :
  turns n (new_Tokenizer text opts) = Return t ->
  String.length text <= position t ->
  inString t = true ->
  malformed_number (tokenBuffer t) = false ->
  exists e, run text opts = Throw e
            /\ offset e = position t
            /\ match top (tokenStack t) with
               | None => kind e = UnclosedString (stringDelimiter t)
               | Some l => exists b, Heap.get (heap t) l = Some b
                                     /\ kind e = UnclosedBlock (opener b)
               end.
Proof.
  intros T L S M.
  pose proof (turns_well_formed _ _ _ _ T) as W.
  pose proof (turns_input _ _ _ T) as [I _]. simpl in I.
  unfold run. rewrite (tokenize_turns _ _ _ T).
  rewrite tokenize_at_end by (rewrite I; exact L).
  unfold finish.
  destruct (flushBuffer_returns _ M) as [t1 F]. rewrite F. simpl.
  destruct (flushBuffer_same_cursor _ _ F).
  rewrite sc_stack0, sc_inString0, sc_delimiter0, S.
  destruct (top (tokenStack t)) as [l|] eqn:Top.
  - destruct (well_formed_top _ _ W Top) as [b G].
    destruct (flushBuffer_brackets _ _ F _ _ G) as (b' & -> & O & _).
    eexists. split; [reflexivity|]. split; [exact sc_position0|].
    exists b. rewrite <- O. auto.
  - eexists. split; [reflexivity|]. split; [exact sc_position0|reflexivity].
Qed.

Lemma end_of_input_inside_string_witness :
  exists e, run (String Char.dquote "unterminated") default_options = Throw e
            /\ offset e = 13
            /\ kind e = UnclosedString (Some Char.dquote).
Proof.
  pose (t := set_string true (Some Char.dquote)
              (set_tokenBuffer "unterminated"
                 (set_column 14
                    (set_position 13
                       (new_Tokenizer (String Char.dquote "unterminated")
                          default_options))))).
  destruct (@end_of_input_inside_string
              (String Char.dquote "unterminated") default_options 13 t)
    as (e & R & O & K).
  - vm_compute. reflexivity.
  - simpl. lia.
  - reflexivity.
  - reflexivity.
  - exists e. split; [exact R|]. split; [exact O|exact K].
Defined.

(** The claim as the spec words it fails: inside an open block the
    unclosed-block error is thrown, and a body of digits and dots makes the
    final flush throw first. *)
Lemma unclosed_string_other_errors :
  (exists e, run (String "(" (String Char.dquote "a")) default_options = Throw e
             /\ kind e = UnclosedBlock "("
             /\ forall d, kind e <> UnclosedString d)
  /\ (exists e, run (String Char.dquote "1.2.3") default_options = Throw e
                /\ kind e = InvalidNumberFormat "1.2.3"
                /\ forall d, kind e <> UnclosedString d).
Proof.
  split; evaluate_calls; eexists; (split; [reflexivity|]);
    (split; [reflexivity|discriminate]).
Qed.

(** ** Closing brackets *)

Lemma closer_cases (c : ascii) :
  Str.includes "]})" c = true -> c = "]"%char \/ c = "}"%char \/ c = ")"%char.
Proof.
  cbn [Str.includes]. rewrite orb_false_r, !orb_true_iff, !Ascii.eqb_eq. tauto.
Qed.

Lemma checkComment_first (t : Tokenizer) (c : ascii) :
  char_at t (position t) = Some c -> Ascii.eqb c Char.slash = false ->
  checkComment t = false.
Proof.
  unfold checkComment, char_at. intros G N.
  destruct (slice_from_get _ _ _ G) as [rest ->].
  cbn [Str.startsWith]. rewrite (Ascii.eqb_sym "/" c). fold Char.slash.
  rewrite N. reflexivity.
Qed.

Lemma checkRegex_first (t : Tokenizer) (c : ascii) :
  char_at t (position t) = Some c -> Ascii.eqb c Char.slash = false ->
  checkRegex t = false.
Proof.
  unfold checkRegex. intros -> N. simpl. rewrite N. reflexivity.
Qed.

Lemma checkMultiCharOperator_first (t : Tokenizer) (c : ascii) :
  char_at t (position t) = Some c -> Str.includes "=!<>&|+-*/" c = false ->
  checkMultiCharOperator t = false.
Proof.
  unfold checkMultiCharOperator, char_at, Str.slice. intros G N.
  replace (position t + 3 - position t) with 3 by lia.
  rewrite (substring_get _ _ _ _ G).
  cbn [Str.includes] in N. rewrite !orb_false_iff in N.
  destruct N as (N1 & N2 & N3 & N4 & N5 & N6 & N7 & N8 & N9 & N10 & _).
  cbn [substring Nat.sub Str.one_of threeCharOps twoCharOps existsb String.eqb].
  rewrite N1, N2, N3, N4, N5, N6, N7, N8, N9, N10. reflexivity.
Qed.

(** A closing bracket outside a string goes to [#finishBlock]. *)
Lemma dispatch_closer (t : Tokenizer) (c : ascii) :
  char_at t (position t) = Some c -> Str.includes "]})" c = true ->
  inString t = false -> dispatch c t = finishBlock c t.
Proof.
  intros G C S. unfold dispatch. rewrite S.
  apply closer_cases in C.
  rewrite (checkComment_first t c G), (checkRegex_first t c G),
    (checkMultiCharOperator_first t c G), andb_false_r
    by (destruct C as [ -> | [ -> | -> ] ]; reflexivity).
  destruct C as [ -> | [ -> | -> ] ]; reflexivity.
Qed.

(** C8, as the code has it. When the scan of a text reaches, outside a
    string, a closing bracket that differs from the closer of the innermost
    open block, and the pending buffer is not a digits-and-dots run with
    several dots, [tokenize()] fails with the mismatched-brackets error
    naming that closer and the character met, at the offset of the
    character. *)
Theorem mismatched_closer (text : string) (opts : Options) (n : nat)
    (t : Tokenizer) (c : ascii) (l : loc) (b : Block) :
  turns n (new_Tokenizer text opts) = Return t ->
  char_at t (position t) = Some c ->
  Str.includes "]})" c = true ->
  inString t = false ->
  top (tokenStack t) = Some l ->
  Heap.get (heap t) l = Some b ->
  closer b <> c ->
  malformed_number (tokenBuffer t) = false ->
  exists e, run text opts = Throw e
            /\ kind e = MismatchedBrackets (closer b) c
            /\ offset e = position t.
Proof.
  intros T G C S Top B N M.
  unfold run. rewrite (tokenize_turns _ _ _ T).
  destruct (flushBuffer_returns _ M) as [t1 F].
  destruct (flushBuffer_same_cursor _ _ F).
  destruct (flushBuffer_brackets _ _ F _ _ B) as (b' & B' & _ & Cl).
  apply Ascii.eqb_neq in N.
  exists (error (MismatchedBrackets (closer b) c) t1).
  split; [|split; [reflexivity|exact sc_position0]].
  apply tokenize_iteration_throw; [exact (get_lt _ _ _ G)|].
  unfold iteration. rewrite G, (dispatch_closer t c G C S).
  unfold finishBlock. rewrite F. simpl.
  rewrite sc_stack0, Top, B', Cl, N. reflexivity.
Qed.

Lemma mismatched_closer_witness :
  exists e, run "[1,2,3)" default_options = Throw e
            /\ kind e = MismatchedBrackets "]" ")"
            /\ offset e = 6.
Proof.
  pose (t := match turns 6 (new_Tokenizer "[1,2,3)" default_options) with
             | Return t => t
             | _ => new_Tokenizer "" default_options
             end).
  destruct (@mismatched_closer "[1,2,3)" default_options 6 t ")" 0
              {| opener := "["; closer := "]";
                 children := [Atom "number" "1" None; Atom "symbol" "," None;
                              Atom "number" "2" None; Atom "symbol" "," None] |})
    as (e & R & K & O);
    try (vm_compute; reflexivity).
  - discriminate.
  - exists e. split; [exact R|]. split; [exact K|exact O].
Defined.

(** The diagnostic of the scenario, as rendered. *)
Lemma mismatched_closer_message :
  exists e, run "[1,2,3)" default_options = Throw e
            /\ at_line e = 1 /\ at_column e = 7
            /\ message e
               = ("Mismatched brackets: expected ']' but got ')'"
                  ++ " at line 1, column 7 (position 6)"
                  ++ String Char.newline "Context: [1,2,3)"
                  ++ String Char.newline "               ^")%string.
Proof. evaluate_calls. eexists. split; [reflexivity|]. repeat split. Qed.

(** The claim as the spec words it fails when the buffer pending at the
    closer is a number with two dots: the flush throws first. *)
Lemma mismatched_closer_after_bad_number :
  exists e, run "[1.2.3)" default_options = Throw e
            /\ kind e = InvalidNumberFormat "1.2.3"
            /\ kind e <> MismatchedBrackets "]" ")".
Proof.
  evaluate_calls. eexists. split; [reflexivity|]. split; [reflexivity|discriminate].
Qed.

(** ** String literals *)

Lemma length_append (s1 s2 : string) :
  String.length (s1 ++ s2) = String.length s1 + String.length s2.
Proof. induction s1 as [|a s1 IH]; simpl; [reflexivity|now rewrite IH]. Qed.

Lemma get_append (s1 s2 : string) (n : nat) :
  String.get (String.length s1 + n) (s1 ++ s2) = String.get n s2.
Proof. induction s1 as [|a s1 IH]; simpl; [reflexivity|exact IH]. Qed.

Lemma append_assoc (s1 s2 s3 : string) :
  ((s1 ++ s2) ++ s3 = s1 ++ (s2 ++ s3))%string.
Proof. induction s1 as [|a s1 IH]; simpl; [reflexivity|now rewrite IH]. Qed.

Lemma append_empty (s : string) : (s ++ "")%string = s.
Proof. induction s as [|a s IH]; simpl; [reflexivity|now rewrite IH]. Qed.

Lemma copied_nothing (t : Tokenizer) : copied "" (column t) t = t.
Proof.
  unfold copied. destruct t; simpl.
  rewrite append_empty, Nat.add_0_r. reflexivity.
Qed.

Lemma copied_copied (b1 b2 : string) (col1 col2 : nat) (t : Tokenizer) :
  copied b2 col2 (copied b1 col1 t) = copied (b1 ++ b2) col2 t.
Proof.
  unfold copied. destruct t; simpl.
  rewrite append_assoc, length_append, Nat.add_assoc. reflexivity.
Qed.

(** Inside a string, the turns of the loop copy the body piece by piece. *)
Lemma string_body_turns (q : ascii) (ps : list piece) :
  forall (t : Tokenizer) (pre rest : string),
    inString t = true ->
    stringDelimiter t = Some q ->
    forallb (piece_ok q) ps = true ->
    input t = (pre ++ raw ps ++ String q rest)%string ->
    position t = String.length pre ->
    exists col, turns (length ps) t = Return (copied (raw ps) col t).
Proof.
  induction ps as [|p ps IH]; intros t pre rest S D Ok I P.
  { exists (column t). simpl. rewrite copied_nothing. reflexivity. }
  simpl in Ok. apply andb_true_iff in Ok. destruct Ok as [Okp Ok].
  destruct p as [c|c]; simpl in Okp.
  - apply andb_true_iff in Okp. destruct Okp as [Nq Nb].
    apply negb_true_iff in Nq, Nb.
    assert (G : char_at t (position t) = Some c).
    { unfold char_at. rewrite I, P, <- (Nat.add_0_r (String.length pre)).
      rewrite get_append. reflexivity. }
    assert (E : exists col,
               iteration t = Return (copied (String c "") col t)).
    { unfold iteration, dispatch, handleStringContent. rewrite G, S, D. simpl.
      rewrite Nb, (Ascii.eqb_sym q c), Nq. simpl.
      exists (if negb (Ascii.eqb c Char.newline) && negb (Ascii.eqb c Char.cr)
              then column t + 1 else column t).
      unfold copied, Str.push. simpl.
      destruct (_ && _); destruct t; simpl; reflexivity. }
    destruct E as [col1 E].
    destruct (IH (copied (String c "") col1 t) (pre ++ String c "")%string rest)
      as [col T]; auto.
    + simpl. rewrite I, append_assoc. reflexivity.
    + simpl. rewrite P, length_append. reflexivity.
    + exists col. cbn [turns length raw]. rewrite E. simpl. rewrite T.
      rewrite copied_copied. reflexivity.
  - assert (G : char_at t (position t) = Some Char.backslash).
    { unfold char_at. rewrite I, P, <- (Nat.add_0_r (String.length pre)).
      rewrite get_append. reflexivity. }
    assert (G1 : String.get (position t + 1) (input t) = Some c).
    { rewrite I, P, get_append. reflexivity. }
    assert (L : (position t + 1 <? String.length (input t)) = true)
      by (apply Nat.ltb_lt; exact (get_lt _ _ _ G1)).
    assert (E : exists col,
               iteration t
               = Return (copied (String Char.backslash (String c "")) col t)).
    { unfold iteration, dispatch, handleStringContent. rewrite G, S. simpl.
      rewrite L. unfold char_at. simpl. rewrite G1.
      exists (column t + 1). unfold copied, Str.push. simpl.
      destruct t; simpl. rewrite append_assoc, <- Nat.add_assoc. reflexivity. }
    destruct E as [col1 E].
    destruct (IH (copied (String Char.backslash (String c "")) col1 t)
                (pre ++ String Char.backslash (String c ""))%string rest)
      as [col T]; auto.
    + simpl. rewrite I, append_assoc. reflexivity.
    + simpl. rewrite P, length_append. reflexivity.
    + exists col. cbn [turns length raw]. rewrite E. simpl. rewrite T.
      rewrite copied_copied. reflexivity.
Qed.

Lemma raw_nonempty (ps : list piece) :
  ps <> [] -> (0 <? String.length (raw ps)) = true.
Proof. destruct ps as [|[c|c] ps]; [contradiction|reflexivity|reflexivity]. Qed.

Lemma quote_is_not (q : ascii) :
  Char.is_quote q = true ->
  Ascii.eqb q Char.slash = false /\ Ascii.eqb q Char.backslash = false
  /\ Ascii.eqb q Char.newline = false /\ Ascii.eqb q Char.cr = false.
Proof.
  intros H. destruct (is_quote_cases _ H) as [ -> | [ -> | -> ] ];
    repeat split; reflexivity.
Qed.

(** The turn of the loop at the closing quote. *)
Lemma closing_quote_turn (t : Tokenizer) (q : ascii) :
  inString t = true -> stringDelimiter t = Some q -> Char.is_quote q = true ->
  char_at t (position t) = Some q ->
  iteration t
  = Return (set_column (column t + 1)
              (set_position (position t + 1)
                 (set_string false None (finishToken "string" t)))).
Proof.
  intros S D Q G.
  destruct (quote_is_not _ Q) as (_ & Nback & Nnl & Ncr).
  unfold iteration, dispatch, handleStringContent.
  rewrite G, S, D, Nback, Nnl, Ncr.
  cbn [andb negb is_char bind]. rewrite Ascii.eqb_refl.
  destruct (finishToken_same_cursor "string" t).
  cbn [position column set_string set_position]. rewrite sc_position0, sc_column0.
  reflexivity.
Qed.

(** The instance after the closing quote, in terms of the instance flushed
    at the opening quote. *)
Lemma close_literal (t1 : Tokenizer) (q : ascii) (body : string) (col : nat) :
  tokenBuffer t1 = "" -> (0 <? String.length body) = true ->
  let t4 := copied body col
              (set_column (column t1 + 1)
                 (set_position (position t1 + 1) (set_string true (Some q) t1))) in
  set_column (column t4 + 1)
    (set_position (position t4 + 1)
       (set_string false None (finishToken "string" t4)))
  = after_literal body (col + 1) t1.
Proof.
  intros B L. destruct t1 as [i ts tb st p ln cl ins sd cb op hp].
  cbn [tokenBuffer] in B. subst tb.
  cbv beta iota zeta delta
    [after_literal finishToken copied set_column set_position set_string
       set_tokenBuffer input tokens tokenBuffer tokenStack position line column
       inString stringDelimiter currentBlock options heap String.append].
  rewrite L.
  cbv beta iota zeta delta
    [addToken set_column set_position set_string set_tokenBuffer set_heap
       set_tokens input tokens tokenBuffer tokenStack position line column
       inString stringDelimiter currentBlock options heap].
  destruct cb; f_equal; lia.
Qed.

(** C2, as the code has it. A well-formed string literal (an opening quote,
    a non-empty body in which the quote occurs only behind a backslash, the
    same quote again) is emitted as one string token whose value is the raw,
    still-escaped body alone, without the opening and closing quote
    characters: wherever the scanner meets the literal outside a string, and
    in particular when the literal is the whole text. *)
Theorem string_literal_value (q : ascii) (ps : list piece) :
  Char.is_quote q = true ->
  forallb (piece_ok q) ps = true ->
  ps <> [] ->
  (forall (t t1 : Tokenizer) (pre rest : string),
      inString t = false ->
      input t = (pre ++ String q (raw ps ++ String q rest))%string ->
      position t = String.length pre ->
      flushBuffer t = Return t1 ->
      exists col,
        turns (S (length ps + 1)) t = Return (after_literal (raw ps) col t1))
  /\ (forall opts : Options,
         result_of (run (String q (raw ps ++ String q "")) opts)
         = Return (TokenArray [Atom "string" (raw ps) None])).
Proof.
  intros Q Ok Ne.
  destruct (quote_is_not _ Q) as (Nslash & Nback & Nnl & Ncr).
  assert (Met : forall (t t1 : Tokenizer) (pre rest : string),
             inString t = false ->
             input t = (pre ++ String q (raw ps ++ String q rest))%string ->
             position t = String.length pre ->
             flushBuffer t = Return t1 ->
             exists col,
               turns (S (length ps + 1)) t = Return (after_literal (raw ps) col t1)).
  { intros t t1 pre rest S I P F.
    destruct (flushBuffer_same_cursor _ _ F).
    pose proof (flushBuffer_buffer _ _ F) as B.
    assert (G : char_at t (position t) = Some q).
    { unfold char_at. rewrite I, P, <- (Nat.add_0_r (String.length pre)).
      rewrite get_append. reflexivity. }
    (* the opening quote *)
    set (t3 := set_column (column t1 + 1)
                 (set_position (position t1 + 1) (set_string true (Some q) t1))).
    assert (E1 : iteration t = Return t3).
    { unfold iteration, dispatch. rewrite G, S. simpl.
      rewrite (checkComment_first t q G Nslash), (checkRegex_first t q G Nslash).
      rewrite andb_false_r, Q. unfold startString. rewrite F. simpl.
      rewrite Nnl, Ncr. reflexivity. }
    (* the body *)
    destruct (string_body_turns q ps t3 (pre ++ String q "")%string rest)
      as [col E2]; auto.
    { simpl. rewrite sc_input0, I, append_assoc. reflexivity. }
    { simpl. rewrite sc_position0, P, length_append. reflexivity. }
    (* the closing quote *)
    set (t4 := copied (raw ps) col t3) in *.
    assert (G4 : char_at t4 (position t4) = Some q).
    { unfold char_at. simpl. rewrite sc_input0, sc_position0, I, P.
      replace (String.length pre + 1 + String.length (raw ps))
        with (String.length (pre ++ String q (raw ps)) + 0)
        by (rewrite length_append; simpl; lia).
      replace (pre ++ String q (raw ps ++ String q rest))%string
        with ((pre ++ String q (raw ps)) ++ String q rest)%string
        by (rewrite append_assoc; reflexivity).
      rewrite get_append. reflexivity. }
    assert (E3 : iteration t4 = Return (after_literal (raw ps) (col + 1) t1)).
    { rewrite (closing_quote_turn t4 q eq_refl eq_refl Q G4).
      apply f_equal, close_literal; [exact B|exact (raw_nonempty _ Ne)]. }
    exists (col + 1).
    cbn [turns]. rewrite E1. simpl.
    replace (length ps + 1) with (length ps + 1 + 0) by lia.
    clear - E2 E3.
    revert E2. generalize t3 as u. generalize (length ps) as k.
    induction k as [|k IH]; intros u E2; simpl in *.
    - injection E2 as ->. rewrite E3. reflexivity.
    - destruct (iteration u); simpl in *; try discriminate. apply IH, E2. }
  split; [exact Met|].
  intros opts.
  set (text := String q (raw ps ++ String q "")).
  destruct (Met (new_Tokenizer text opts) (new_Tokenizer text opts) "" "")
    as [col T]; auto.
  unfold run. rewrite (tokenize_turns _ _ _ T).
  rewrite tokenize_at_end.
  - reflexivity.
  - unfold after_literal, addToken, text. simpl. rewrite length_append. simpl. lia.
Qed.

Lemma string_literal_value_witness :
  let body := raw [Plain "a"; Escape Char.dquote; Plain "b"] in
  let text := String Char.dquote (body ++ String Char.dquote "")%string in
  (exists col,
      turns 5 (new_Tokenizer text default_options)
      = Return (after_literal body col (new_Tokenizer text default_options)))
  /\ result_of (run text default_options)
     = Return (TokenArray [Atom "string" body None]).
Proof.
  intros body text.
  destruct (@string_literal_value Char.dquote
              [Plain "a"; Escape Char.dquote; Plain "b"] eq_refl eq_refl)
    as [Met Alone].
  - discriminate.
  - split; [|exact (Alone default_options)].
    exact (Met (new_Tokenizer text default_options)
               (new_Tokenizer text default_options) "" ""
               eq_refl eq_refl eq_refl eq_refl).
Defined.

(** The claim as the spec words it fails: the value of the token for the
    four-character literal is the two-character body, with no quote in it. *)
Lemma string_value_without_quotes :
  result_of (run (String Char.dquote ("ab" ++ String Char.dquote "")) default_options)
  = Return (TokenArray [Atom "string" "ab" None])
  /\ Str.includes "ab" Char.dquote = false
  /\ "ab" <> String Char.dquote ("ab" ++ String Char.dquote "")%string.
Proof. split; [vm_compute; reflexivity|]. split; [reflexivity|discriminate]. Qed.

(** * Further properties of the scanner *)

(** ** What a scan relates *)

(** A relation between instances that every elementary update stays within
    relates an instance to the one each method, and [tokenize()], leaves. *)
Section Relation.

Variable R : Tokenizer -> Tokenizer -> Prop.

Hypothesis R_refl : forall t, R t t.
Hypothesis R_trans : forall t1 t2 t3, R t1 t2 -> R t2 t3 -> R t1 t3.
Hypothesis R_tokenBuffer : forall v t, R t (set_tokenBuffer v t).
Hypothesis R_position : forall v t, R t (set_position v t).
Hypothesis R_line : forall k t, R t (set_line (line t + k) t).
Hypothesis R_column : forall v t, R t (set_column v t).
Hypothesis R_string : forall flag d t, R t (set_string flag d t).
Hypothesis R_addToken : forall tok t, R t (addToken tok t).
Hypothesis R_openBlock : forall char t, R t (openBlock char t).
Hypothesis R_closeBlock : forall t, R t (closeBlock t).

Ltac chain :=
  repeat match goal with
         | |- R ?t ?t => apply R_refl
         | |- R ?t (set_tokenBuffer ?v ?u) =>
             apply (R_trans t u); [|apply R_tokenBuffer]
         | |- R ?t (set_position ?v ?u) =>
             apply (R_trans t u); [|apply R_position]
         | |- R ?t (set_column ?v ?u) =>
             apply (R_trans t u); [|apply R_column]
         | |- R ?t (set_string ?f ?d ?u) =>
             apply (R_trans t u); [|apply R_string]
         | |- R ?t (set_line (line ?u + ?k) ?u) =>
             apply (R_trans t u); [|apply R_line]
         | |- R ?t (addToken ?tok ?u) =>
             apply (R_trans t u); [|apply R_addToken]
         | |- R ?t (openBlock ?c ?u) =>
             apply (R_trans t u); [|apply R_openBlock]
         | |- R ?t (closeBlock ?u) =>
             apply (R_trans t u); [|apply R_closeBlock]
         end.

Lemma finishToken_relates (type : string) (t : Tokenizer) :
  R t (finishToken type t).
Proof. unfold finishToken. destruct (0 <? _); chain. Qed.

Lemma flushBuffer_relates (t t' : Tokenizer) :
  flushBuffer t = Return t' -> R t t'.
Proof.
  unfold flushBuffer. intros H.
  repeat match type of H with
         | (if ?b then _ else _) = _ => destruct b
         end;
    try discriminate; injection H as <-;
    auto using finishToken_relates.
Qed.

Lemma handleStringContent_relates (char : ascii) (t : Tokenizer) :
  R t (handleStringContent char t).
Proof.
  unfold handleStringContent.
  destruct (_ && _).
  - destruct (char_at _ _); chain.
  - destruct (is_char _ _); chain. apply finishToken_relates.
Qed.

Lemma handleComment_relates (t t' : Tokenizer) :
  handleComment t = Return t' -> R t t'.
Proof.
  unfold handleComment. intros H.
  bind_case H t1 E. apply flushBuffer_relates in E.
  apply (R_trans t t1); [exact E|]. clear E.
  destruct (Str.startsWith _ "//").
  { injection H as <-. destruct (preserveComments _); chain. }
  destruct (Str.startsWith _ "/*"); [|injection H as <-; chain].
  destruct (Str.indexOf _ _ _); [|discriminate].
  injection H as <-.
  destruct (preserveComments _), (1 <? _); chain.
Qed.

Lemma handleRegex_relates (t t' : Tokenizer) :
  handleRegex t = Return t' -> R t t'.
Proof.
  unfold handleRegex. intros H.
  bind_case H t1 E. apply flushBuffer_relates in E.
  apply (R_trans t t1); [exact E|]. clear E.
  destruct (scan_regex _ _ _ _ _) as [[p r]|]; [|discriminate].
  injection H as <-. chain.
Qed.

Lemma updatePosition_relates (char : ascii) (t : Tokenizer) :
  R t (updatePosition char t).
Proof.
  unfold updatePosition.
  destruct (Ascii.eqb char Char.newline); [chain|].
  destruct (Ascii.eqb char Char.cr); [|chain].
  destruct (is_char _ _); chain.
Qed.

Lemma handleMultiCharOperator_relates (t t' : Tokenizer) :
  handleMultiCharOperator t = Return t' -> R t t'.
Proof.
  unfold handleMultiCharOperator. intros H.
  bind_case H t1 E. apply flushBuffer_relates in E.
  apply (R_trans t t1); [exact E|]. clear E.
  repeat match type of H with
         | (if ?b then _ else _) = _ => destruct b
         end;
    injection H as <-; chain.
Qed.

Lemma startBlock_relates (char : ascii) (t t' : Tokenizer) :
  startBlock char t = Return t' -> R t t'.
Proof.
  unfold startBlock. intros H.
  bind_case H t1 E. apply flushBuffer_relates in E.
  injection H as <-. apply (R_trans t t1); [exact E|apply R_openBlock].
Qed.

Lemma finishBlock_relates (char : ascii) (t t' : Tokenizer) :
  finishBlock char t = Return t' -> R t t'.
Proof.
  unfold finishBlock. intros H.
  bind_case H t1 E. apply flushBuffer_relates in E.
  destruct (top _); [|discriminate].
  destruct (Heap.get _ _); [|discriminate].
  destruct (negb _); [discriminate|].
  injection H as <-. apply (R_trans t t1); [exact E|apply R_closeBlock].
Qed.

Lemma dispatch_relates (char : ascii) (t t' : Tokenizer) :
  dispatch char t = Return t' -> R t t'.
Proof.
  unfold dispatch. intros H.
  destruct (inString t);
    [injection H as <-; apply handleStringContent_relates|].
  destruct (checkComment t); [exact (handleComment_relates _ _ H)|].
  destruct (_ && checkRegex t); [exact (handleRegex_relates _ _ H)|].
  destruct (Char.is_quote char).
  { unfold startString in H. bind_case H t1 E.
    apply flushBuffer_relates in E. injection H as <-.
    apply (R_trans t t1); [exact E|apply R_string]. }
  destruct (Char.is_space char).
  { bind_case H t1 E. apply flushBuffer_relates in E.
    injection H as <-. apply (R_trans t t1); [exact E|].
    match goal with
    | |- R _ (updatePosition _ ?u) =>
        apply (R_trans t1 u); [|apply updatePosition_relates]
    end.
    destruct (preserveWhitespace _); chain. }
  destruct (_ || _); [injection H as <-; chain|].
  destruct (Char.is_ident char); [injection H as <-; chain|].
  destruct (checkMultiCharOperator t);
    [exact (handleMultiCharOperator_relates _ _ H)|].
  destruct (Str.includes _ char).
  { bind_case H t1 E. apply flushBuffer_relates in E.
    injection H as <-. apply (R_trans t t1); [exact E|apply R_addToken]. }
  destruct (Str.includes _ char); [exact (startBlock_relates _ _ _ H)|].
  destruct (Str.includes _ char); [exact (finishBlock_relates _ _ _ H)|discriminate].
Qed.

Lemma iteration_relates (t t' : Tokenizer) :
  iteration t = Return t' -> R t t'.
Proof.
  unfold iteration. intros H.
  destruct (char_at _ _) as [char|]; [|discriminate].
  bind_case H t1 E. apply dispatch_relates in E.
  injection H as <-. apply (R_trans t t1); [exact E|].
  destruct (_ && _); chain.
Qed.

Lemma turns_relates (n : nat) (t t' : Tokenizer) :
  turns n t = Return t' -> R t t'.
Proof.
  revert t. induction n as [|n IH]; intros t H; simpl in H.
  - injection H as <-. apply R_refl.
  - bind_case H t1 E. apply (R_trans t t1).
    + exact (iteration_relates _ _ E).
    + exact (IH _ H).
Qed.

Lemma scan_relates (fuel : nat) (t t' : Tokenizer) :
  scan fuel t = Return t' -> R t t'.
Proof.
  revert t. induction fuel as [|fuel IH]; intros t; simpl;
    destruct (position t <? String.length (input t));
    try discriminate; try (intros [= <-]; apply R_refl).
  intros H. bind_case H t1 E. apply (R_trans t t1).
  - exact (iteration_relates _ _ E).
  - exact (IH _ H).
Qed.

Lemma tokenize_relates (t t' : Tokenizer) (res : Scanned) :
  tokenize t = Return (res, t') -> R t t'.
Proof.
  unfold tokenize. intros H.
  bind_case H t1 E. apply scan_relates in E.
  apply finish_return in H. destruct H as (F & _).
  apply (R_trans t t1); [exact E|exact (flushBuffer_relates _ _ F)].
Qed.

End Relation.

(** ** The output only grows *)

Lemma extends_refl (A : Type) (l : list A) : extends l l.
Proof. exists []. symmetry. apply app_nil_r. Qed.

Lemma extends_trans (A : Type) (l1 l2 l3 : list A) :
  extends l1 l2 -> extends l2 l3 -> extends l1 l3.
Proof. intros [m1 ->] [m2 ->]. exists (m1 ++ m2). symmetry. apply app_assoc. Qed.

Lemma grown_refl (t : Tokenizer) : grown t t.
Proof.
  constructor; auto using extends_refl.
  intros l b G. exists b. auto using extends_refl.
Qed.

Lemma grown_trans (t1 t2 t3 : Tokenizer) : grown t1 t2 -> grown t2 t3 -> grown t1 t3.
Proof.
  intros [I1 O1 L1 T1 H1] [I2 O2 L2 T2 H2]. constructor; try congruence.
  - lia.
  - eauto using extends_trans.
  - intros l b G. destruct (H1 l b G) as (b1 & G1 & Op1 & Cl1 & E1).
    destruct (H2 l b1 G1) as (b2 & G2 & Op2 & Cl2 & E2).
    exists b2. repeat split; try congruence. eauto using extends_trans.
Qed.

(** Only the line, the top-level array and the store matter to [grown]. *)
Lemma grown_fields (t u : Tokenizer) :
  input u = input t -> options u = options t -> line t <= line u ->
  tokens u = tokens t -> heap u = heap t -> grown t u.
Proof.
  intros I O L T H. constructor; auto.
  - rewrite T. apply extends_refl.
  - intros l b G. rewrite H. exists b. auto using extends_refl.
Qed.

Lemma addToken_grown (tok : Token) (t : Tokenizer) : grown t (addToken tok t).
Proof.
  unfold addToken. destruct (currentBlock t) as [c|]; constructor; simpl; auto.
  - apply extends_refl.
  - intros l b G. unfold Heap.push_child. rewrite get_update, G.
    destruct (l =? c); simpl.
    + eexists. repeat split. exists [tok]. reflexivity.
    + exists b. auto using extends_refl.
  - exists [tok]. reflexivity.
  - intros l b G. exists b. auto using extends_refl.
Qed.

Lemma get_snoc (h : Heap) (b new : Block) (l : loc) :
  Heap.get h l = Some b -> Heap.get (h ++ [new]) l = Some b.
Proof.
  unfold Heap.get. intros G. rewrite nth_error_app1; [exact G|].
  apply nth_error_Some. congruence.
Qed.

Lemma openBlock_grown (char : ascii) (t : Tokenizer) : grown t (openBlock char t).
Proof.
  set (new := {| opener := char; closer := closers char; children := [] |}).
  set (u := set_heap (heap t ++ [new]) t).
  assert (G1 : grown t u).
  { constructor; simpl; auto using extends_refl.
    intros l b G. exists b. split; [exact (get_snoc _ _ _ _ G)|].
    auto using extends_refl. }
  apply (grown_trans t u); [exact G1|].
  apply (grown_trans u (addToken (BlockRef (length (heap t))) u));
    [apply addToken_grown|].
  apply grown_fields; reflexivity || apply le_n.
Qed.

Lemma closeBlock_grown (t : Tokenizer) : grown t (closeBlock t).
Proof. apply grown_fields; reflexivity || apply le_n. Qed.

Lemma turns_grown (n : nat) (t t' : Tokenizer) :
  turns n t = Return t' -> grown t t'.
Proof.
  apply turns_relates; auto using grown_refl, addToken_grown, openBlock_grown,
    closeBlock_grown.
  - exact grown_trans.
  - intros; apply grown_fields; reflexivity || apply le_n.
  - intros; apply grown_fields; reflexivity || apply le_n.
  - intros; apply grown_fields; simpl; reflexivity || lia.
  - intros; apply grown_fields; reflexivity || apply le_n.
  - intros; apply grown_fields; reflexivity || apply le_n.
Qed.

Lemma tokenize_grown (t t' : Tokenizer) (res : Scanned) :
  tokenize t = Return (res, t') -> grown t t'.
Proof.
  apply tokenize_relates; auto using grown_refl, addToken_grown, openBlock_grown,
    closeBlock_grown.
  - exact grown_trans.
  - intros; apply grown_fields; reflexivity || apply le_n.
  - intros; apply grown_fields; reflexivity || apply le_n.
  - intros; apply grown_fields; simpl; reflexivity || lia.
  - intros; apply grown_fields; reflexivity || apply le_n.
  - intros; apply grown_fields; reflexivity || apply le_n.
Qed.

(** X1. Scanning only ever appends: whatever the scanner has emitted after
    some turns of the loop is still there, unchanged and in the same order,
    after any further turns and when [tokenize()] returns; the top-level array
    and the children of every block only get longer, no block changes its
    brackets, and the line counter never goes back. *)
Theorem scan_only_appends (m : nat) (t t' : Tokenizer) :
  turns m t = Return t' ->
  grown t t'
  /\ (forall res t'', tokenize t' = Return (res, t'') -> grown t t'').
Proof.
  intros T. pose proof (turns_grown _ _ _ T) as G. split; [exact G|].
  intros res t'' F. exact (grown_trans _ _ _ G (tokenize_grown _ _ _ F)).
Qed.

Lemma scan_only_appends_witness :
  exists t t',
    turns 2 (new_Tokenizer "a (b" default_options) = Return t
    /\ tokens t = [Atom "identifier" "a" None]
    /\ turns 2 t = Return t'
    /\ grown t t'.
Proof.
  evaluate (turns 2 (new_Tokenizer "a (b" default_options)).
  eexists. eexists. split; [reflexivity|]. split; [reflexivity|].
  match goal with
  | |- turns 2 ?t = _ /\ _ => evaluate (turns 2 t)
  end.
  split; [reflexivity|].
  refine (proj1 (@scan_only_appends 2 _ _ _)). vm_compute. reflexivity.
Defined.

(** ** More on strings *)

Lemma substring_length (s : string) (n m : nat) :
  String.length (substring n m s) = Nat.min m (String.length s - n).
Proof.
  revert n m; induction s as [|a s IH]; intros [|n] [|m]; simpl;
    rewrite ?IH, ?Nat.sub_0_r; reflexivity.
Qed.

Lemma slice_from_length (s : string) (n : nat) :
  String.length (Str.slice_from s n) = String.length s - n.
Proof. unfold Str.slice_from. rewrite substring_length. lia. Qed.

Lemma substring_all (s : string) (m : nat) :
  String.length s <= m -> substring 0 m s = s.
Proof.
  revert m; induction s as [|a s IH]; intros [|m] H; simpl in *;
    try reflexivity; try lia.
  rewrite IH by lia. reflexivity.
Qed.

Lemma slice_from_0 (s : string) : Str.slice_from s 0 = s.
Proof. unfold Str.slice_from. rewrite Nat.sub_0_r. apply substring_all, le_n. Qed.

Lemma slice_from_S (a : ascii) (s : string) (n : nat) :
  Str.slice_from (String a s) (S n) = Str.slice_from s n.
Proof. reflexivity. Qed.

(** A slice is the head of the rest of the text. *)
Lemma substring_of_rest (s : string) (n m : nat) :
  substring n m s = substring 0 m (Str.slice_from s n).
Proof.
  revert n; induction s as [|a s IH]; intros [|n].
  - rewrite slice_from_0. reflexivity.
  - destruct m; reflexivity.
  - rewrite slice_from_0. reflexivity.
  - rewrite slice_from_S, <- IH. reflexivity.
Qed.

Lemma startsWith_length (s p : string) :
  Str.startsWith s p = true -> String.length p <= String.length s.
Proof.
  revert s; induction p as [|a p IH]; intros [|b s] H; simpl in *;
    try discriminate; try lia.
  apply andb_true_iff in H. destruct H as [_ H]. apply IH in H. lia.
Qed.

Lemma startsWith_substring (s p : string) (m : nat) :
  Str.startsWith s p = true -> String.length p <= m ->
  Str.startsWith (substring 0 m s) p = true.
Proof.
  revert s m; induction p as [|a p IH]; intros s m H L.
  - destruct (substring 0 m s); reflexivity.
  - destruct s as [|b s]; [discriminate|]. destruct m as [|m]; [simpl in L; lia|].
    cbn [Str.startsWith] in H. apply andb_true_iff in H. destruct H as [H1 H2].
    cbn [substring Str.startsWith]. rewrite H1. simpl in L.
    rewrite (IH s m H2) by lia. reflexivity.
Qed.

(** [find] answers with a place where the pattern sits, and there is none
    before it. *)
Lemma find_sound (p s : string) (k : nat) :
  Str.find p s = Some k ->
  Str.startsWith (Str.slice_from s k) p = true
  /\ k + String.length p <= String.length s.
Proof.
  revert k; induction s as [|a s IH]; intros k; cbn [Str.find];
    destruct (Str.startsWith _ p) eqn:E.
  - intros [= <-]. split; [exact E|]. apply startsWith_length in E. lia.
  - discriminate.
  - intros [= <-]. rewrite slice_from_0.
    split; [exact E|]. apply startsWith_length in E. lia.
  - destruct (Str.find p s) as [j|]; [|discriminate]. intros [= <-].
    destruct (IH j eq_refl) as [I1 I2]. split; [exact I1|simpl; lia].
Qed.

Lemma find_first (p s : string) (k j : nat) :
  Str.find p s = Some k -> j < k -> Str.startsWith (Str.slice_from s j) p = false.
Proof.
  revert k j; induction s as [|a s IH]; intros k j; cbn [Str.find];
    destruct (Str.startsWith _ p) eqn:E.
  - intros [= <-]. lia.
  - discriminate.
  - intros [= <-]. lia.
  - destruct (Str.find p s) as [i|] eqn:F; [|discriminate]. intros [= <-] L.
    destruct j as [|j].
    + rewrite slice_from_0. exact E.
    + apply (IH i j eq_refl). lia.
Qed.

Lemma find_none (p s : string) (j : nat) :
  Str.find p s = None -> Str.startsWith (Str.slice_from s j) p = false.
Proof.
  revert j; induction s as [|a s IH]; intros j; cbn [Str.find];
    destruct (Str.startsWith _ p) eqn:E; try discriminate.
  - intros _. destruct j; exact E.
  - destruct (Str.find p s) as [i|] eqn:F; [discriminate|]. intros _.
    destruct j as [|j].
    + rewrite slice_from_0. exact E.
    + apply (IH j eq_refl).
Qed.

Lemma slice_from_slice_from (s : string) (n k : nat) :
  Str.slice_from (Str.slice_from s n) k = Str.slice_from s (n + k).
Proof.
  revert n; induction s as [|a s IH]; intros [|n].
  - rewrite slice_from_0. reflexivity.
  - destruct k; reflexivity.
  - rewrite slice_from_0. reflexivity.
  - rewrite slice_from_S. cbn [Nat.add]. rewrite slice_from_S. apply IH.
Qed.

(** ** What the regex sub-scanner consumes *)

Lemma append_push (s w : string) (c : ascii) :
  (Str.push s c ++ w)%string = (s ++ String c w)%string.
Proof. unfold Str.push. rewrite append_assoc. reflexivity. Qed.

Lemma scan_flags_consumes (rest : string) (pos : nat) (regex : string) :
  exists k, scan_flags rest pos regex = (pos + k, (regex ++ substring 0 k rest)%string)
            /\ k <= String.length rest.
Proof.
  revert pos regex; induction rest as [|c rest IH]; intros pos regex; simpl.
  - exists 0. rewrite Nat.add_0_r, append_empty. split; [reflexivity|lia].
  - destruct (Char.is_flag c).
    + destruct (IH (pos + 1) (Str.push regex c)) as (k & E & L).
      exists (S k). rewrite E, append_push. simpl.
      split; [f_equal; lia|lia].
    + exists 0. rewrite Nat.add_0_r, append_empty. split; [reflexivity|lia].
Qed.

Lemma scan_regex_consumes (rest : string) (pos : nat) (regex : string)
    (escaped inCharClass : bool) (p : nat) (r : string) :
  scan_regex rest pos regex escaped inCharClass = Some (p, r) ->
  exists k, p = pos + S k /\ S k <= String.length rest
            /\ r = (regex ++ substring 0 (S k) rest)%string.
Proof.
  revert pos regex escaped inCharClass.
  induction rest as [|c rest IH]; intros pos regex escaped inCharClass; simpl;
    [discriminate|].
  assert (Step : forall e i,
             scan_regex rest (pos + 1) (Str.push regex c) e i = Some (p, r) ->
             exists k, p = pos + S k /\ S k <= S (String.length rest)
                       /\ r = (regex ++ String c (substring 0 k rest))%string).
  { intros e i H. apply IH in H. destruct H as (k & -> & L & ->).
    exists (S k). rewrite append_push. split; [lia|]. split; [lia|reflexivity]. }
  intros H.
  repeat match type of H with
         | (if ?b then _ else _) = _ => destruct b
         end;
    try discriminate; try (exact (Step _ _ H)).
  injection H as H.
  destruct (scan_flags_consumes rest (pos + 1) (Str.push regex c)) as (k & E & L).
  rewrite E in H. injection H as <- <-.
  exists k. rewrite append_push. split; [lia|]. split; [lia|reflexivity].
Qed.

(** ** The shape of what is emitted *)

Lemma shaped_fields (t u : Tokenizer) :
  tokens u = tokens t -> heap u = heap t -> shaped t -> shaped u.
Proof. unfold shaped, all_tokens. intros -> ->. tauto. Qed.

Lemma addToken_shaped (tok : Token) (t : Tokenizer) :
  token_ok tok = true -> shaped t -> shaped (addToken tok t).
Proof.
  unfold shaped, all_tokens, addToken. intros Ok [[Ht Hc] Hb].
  destruct (currentBlock t); simpl; repeat split; auto.
  - apply update_Forall; [|exact Hc]. intros b Q; simpl. apply Forall_app; auto.
  - apply update_Forall; [|exact Hb]. intros b Q. exact Q.
  - apply Forall_app; auto.
Qed.

Lemma openBlock_shaped (char : ascii) (t : Tokenizer) :
  Str.includes "[{(" char = true -> shaped t -> shaped (openBlock char t).
Proof.
  intros C [[Ht Hc] Hb].
  set (new := {| opener := char; closer := closers char; children := [] |}).
  assert (G : shaped (addToken (BlockRef (length (heap t)))
                        (set_heap (heap t ++ [new]) t))).
  { apply addToken_shaped; [reflexivity|].
    repeat split; simpl; auto.
    - apply Forall_app; split; [exact Hc|]. repeat constructor.
    - apply Forall_app; split; [exact Hb|]. constructor; [|constructor].
      unfold block_ok, new. cbn [opener closer]. rewrite C, Ascii.eqb_refl.
      reflexivity. }
  revert G. apply shaped_fields; reflexivity.
Qed.

Lemma finishToken_shaped (type : string) (t : Tokenizer) :
  (tokenBuffer t <> "" -> token_ok (Atom type (tokenBuffer t) None) = true) ->
  shaped t -> shaped (finishToken type t).
Proof.
  unfold finishToken. intros Ok S.
  destruct (tokenBuffer t) as [|c b] eqn:B; simpl; [exact S|].
  rewrite <- B in *.
  apply (shaped_fields (addToken (Atom type (tokenBuffer t) None) t));
    try reflexivity.
  apply addToken_shaped; [|exact S]. apply Ok. rewrite B. discriminate.
Qed.

Lemma flushBuffer_shaped (t t' : Tokenizer) :
  shaped t -> flushBuffer t = Return t' -> shaped t'.
Proof.
  unfold flushBuffer. intros S H.
  destruct (0 <? _); [|injection H as <-; exact S].
  destruct (Str.all Char.is_numeric (tokenBuffer t)) eqn:A.
  - destruct (1 <? _) eqn:D; [discriminate|]. injection H as <-.
    apply finishToken_shaped; [|exact S]. intros Ne.
    apply Nat.ltb_ge, Nat.leb_le in D.
    unfold token_ok. rewrite A, D.
    destruct (tokenBuffer t); [contradiction|reflexivity].
  - injection H as <-. apply finishToken_shaped; [|exact S]. intros Ne.
    unfold token_ok. rewrite A.
    destruct (tokenBuffer t); [contradiction|reflexivity].
Qed.

Lemma string_token_ok (v : string) :
  v <> "" -> token_ok (Atom "string" v None) = true.
Proof. destruct v; [contradiction|reflexivity]. Qed.

Lemma comment_token_ok (v : string) :
  Str.startsWith v "//" || Str.startsWith v "/*" = true ->
  token_ok (Atom "comment" v None) = true.
Proof.
  intros H. destruct v as [|a v]; [discriminate|].
  unfold token_ok. rewrite H. reflexivity.
Qed.

Lemma regex_token_ok (v : string) :
  Str.startsWith v "/" = true -> token_ok (Atom "regex" v None) = true.
Proof.
  intros H. destruct v as [|a v]; [discriminate|].
  unfold token_ok. rewrite H. reflexivity.
Qed.

Lemma whitespace_token_ok (c : ascii) :
  Char.is_space c = true -> token_ok (Atom "whitespace" (chr c) None) = true.
Proof. intros H. unfold token_ok, chr. rewrite H. reflexivity. Qed.

Lemma symbol_char_token_ok (c : ascii) :
  Str.includes "+-*/:;,=<>!&|%^~?" c = true -> Char.is_ident c = false ->
  token_ok (Atom "symbol" (chr c) None) = true.
Proof.
  intros H I. unfold Char.is_ident in I. rewrite !orb_false_iff in I.
  destruct I as (_ & I).
  assert (G : Str.includes symbolChars c = true).
  { cbn [Str.includes symbolChars] in *. rewrite I in H. exact H. }
  unfold token_ok, chr. rewrite G. reflexivity.
Qed.

Lemma symbol_op_token_ok (v : string) :
  In v symbolOps -> token_ok (Atom "symbol" v None) = true.
Proof.
  intros H. repeat (destruct H as [<-|H]; [reflexivity|]). destruct H.
Qed.

Lemma one_of_In (v : string) (ops : list string) :
  Str.one_of v ops = true -> In v ops.
Proof.
  unfold Str.one_of. intros H. apply existsb_exists in H.
  destruct H as (x & I & E). apply String.eqb_eq in E. subst. exact I.
Qed.

(** The text of a line comment ends at least two characters on, inside the
    text. *)
Lemma line_comment_end (s : string) (n : nat) :
  Str.startsWith (Str.slice_from s n) "//" = true ->
  n + 2 <= match Str.indexOf s (chr Char.newline) n with
           | Some i => i
           | None => String.length s
           end
  /\ match Str.indexOf s (chr Char.newline) n with
     | Some i => i < String.length s
     | None => True
     end.
Proof.
  intros H. pose proof (startsWith_length _ _ H) as L.
  rewrite slice_from_length in L. simpl in L.
  unfold Str.indexOf. destruct (String.length s <? n) eqn:B;
    [apply Nat.ltb_lt in B; lia|].
  destruct (Str.find _ _) as [k|] eqn:F; simpl; [|split; [lia|exact I]].
  destruct (find_sound _ _ _ F) as [Fs Fl]. rewrite slice_from_length in Fl.
  simpl in Fl. split; [|lia].
  destruct (Str.slice_from s n) as [|a [|b r]]; cbn [Str.startsWith] in H;
    rewrite ?andb_false_r in H; try discriminate.
  rewrite !andb_true_iff in H.
  destruct H as (Ha & Hb & _). apply Ascii.eqb_eq in Ha, Hb. subst a b.
  destruct k as [|[|k]]; [discriminate|discriminate|lia].
Qed.

Lemma handleStringContent_shaped (char : ascii) (t : Tokenizer) :
  shaped t -> shaped (handleStringContent char t).
Proof.
  unfold handleStringContent. intros S.
  destruct (_ && _).
  - destruct (char_at _ _); revert S; apply shaped_fields; reflexivity.
  - destruct (is_char _ _).
    + apply (shaped_fields (finishToken "string" t)); try reflexivity.
      apply finishToken_shaped; [apply string_token_ok|exact S].
    + revert S. apply shaped_fields; reflexivity.
Qed.

Lemma handleComment_shaped (t t' : Tokenizer) :
  shaped t -> handleComment t = Return t' -> shaped t'.
Proof.
  unfold handleComment. intros S H.
  bind_case H t1 E. pose proof (flushBuffer_shaped _ _ S E) as S1. clear S E.
  destruct (Str.startsWith _ "//") eqn:L.
  { injection H as <-.
    destruct (line_comment_end _ _ L) as [B _].
    match goal with
    | |- shaped (set_position _ ?u) =>
        apply (shaped_fields u); try reflexivity
    end.
    destruct (preserveComments _); [|exact S1].
    apply addToken_shaped; [|exact S1]. apply comment_token_ok.
    unfold Str.slice. rewrite substring_of_rest.
    rewrite (startsWith_substring _ _ _ L) by (simpl; lia). reflexivity. }
  destruct (Str.startsWith _ "/*") eqn:M; [|injection H as <-; exact S1].
  destruct (Str.indexOf _ _ _) as [endIndex|] eqn:I; [|discriminate].
  apply indexOf_ge in I. injection H as <-.
  match goal with
  | |- shaped (set_position _ (if _ then set_column _ (set_line _ ?u)
                               else set_line _ ?u)) =>
      apply (shaped_fields u); [destruct (1 <? _); reflexivity
                               |destruct (1 <? _); reflexivity|]
  end.
  destruct (preserveComments _); [|exact S1].
  apply addToken_shaped; [|exact S1]. apply comment_token_ok.
  unfold Str.slice. rewrite substring_of_rest.
  rewrite (startsWith_substring _ _ _ M) by (simpl; lia).
  apply orb_true_r.
Qed.

Lemma handleRegex_shaped (t t' : Tokenizer) :
  shaped t -> handleRegex t = Return t' -> shaped t'.
Proof.
  unfold handleRegex. intros S H.
  bind_case H t1 E. pose proof (flushBuffer_shaped _ _ S E) as S1. clear S E.
  destruct (scan_regex _ _ _ _ _) as [[p r]|] eqn:R; [|discriminate].
  injection H as <-.
  apply (shaped_fields (addToken (Atom "regex" r None) t1)); try reflexivity.
  apply addToken_shaped; [|exact S1]. apply regex_token_ok.
  apply scan_regex_consumes in R. destruct R as (k & _ & _ & ->).
  destruct (substring _ _ _); reflexivity.
Qed.

Lemma updatePosition_shaped (char : ascii) (t : Tokenizer) :
  shaped t -> shaped (updatePosition char t).
Proof.
  unfold updatePosition.
  destruct (Ascii.eqb char Char.newline); [apply shaped_fields; reflexivity|].
  destruct (Ascii.eqb char Char.cr); [|auto].
  destruct (is_char _ _); apply shaped_fields; reflexivity.
Qed.

(** The operator found at a character that is no identifier character is
    one of the operators that can be emitted. *)
Lemma operator_at (t : Tokenizer) (c : ascii) (n : nat) (ops : list string) :
  char_at t (position t) = Some c -> Char.is_ident c = false ->
  incl ops twoCharOps \/ incl ops threeCharOps ->
  Str.one_of (Str.slice (Str.slice (input t) (position t) (position t + 3)) 0 (S n))
    ops = true ->
  In (Str.slice (Str.slice (input t) (position t) (position t + 3)) 0 (S n))
    symbolOps.
Proof.
  unfold char_at, Str.slice. intros G I Sub H.
  replace (position t + 3 - position t) with 3 in * by lia.
  rewrite (substring_get _ _ _ _ G) in *.
  cbn [Nat.sub substring] in *.
  apply one_of_In in H.
  set (v := String c _) in *.
  assert (K : In v twoCharOps \/ In v threeCharOps)
    by (destruct Sub as [Sub|Sub]; [left|right]; apply Sub, H).
  unfold Char.is_ident in I. rewrite !orb_false_iff in I. destruct I as (_ & I).
  apply Ascii.eqb_neq in I.
  destruct K as [K|K]; cbn [In twoCharOps threeCharOps] in K;
    repeat (destruct K as [K|K];
            [first [ rewrite <- K; cbn [In symbolOps]; tauto
                   | exfalso; unfold v in K; injection K as K _; auto ]|]);
    destruct K.
Qed.

Lemma handleMultiCharOperator_shaped (t t' : Tokenizer) (c : ascii) :
  char_at t (position t) = Some c -> Char.is_ident c = false ->
  shaped t -> handleMultiCharOperator t = Return t' -> shaped t'.
Proof.
  unfold handleMultiCharOperator. intros G I S H.
  destruct (flushBuffer t) as [t1| |] eqn:E; cbn [bind] in H; try discriminate.
  pose proof (flushBuffer_shaped _ _ S E) as S1.
  destruct (flushBuffer_same_cursor _ _ E).
  assert (G1 : char_at t1 (position t1) = Some c)
    by (unfold char_at; rewrite sc_input0, sc_position0; exact G).
  clear S E.
  destruct (Str.one_of _ threeCharOps) eqn:T3.
  { injection H as <-.
    match goal with
    | |- shaped (set_position _ ?u) => apply (shaped_fields u); try reflexivity
    end.
    apply addToken_shaped; [|exact S1]. apply symbol_op_token_ok.
    apply (operator_at t1 c 2 threeCharOps G1 I); [right; apply incl_refl|exact T3]. }
  destruct (Str.one_of _ twoCharOps) eqn:T2; [|injection H as <-; exact S1].
  injection H as <-.
  match goal with
  | |- shaped (set_position _ ?u) => apply (shaped_fields u); try reflexivity
  end.
  apply addToken_shaped; [|exact S1]. apply symbol_op_token_ok.
  apply (operator_at t1 c 1 twoCharOps G1 I); [left; apply incl_refl|exact T2].
Qed.

Lemma dispatch_shaped (char : ascii) (t t' : Tokenizer) :
  char_at t (position t) = Some char ->
  shaped t -> dispatch char t = Return t' -> shaped t'.
Proof.
  unfold dispatch. intros G S H.
  destruct (inString t);
    [injection H as <-; apply handleStringContent_shaped, S|].
  destruct (checkComment t); [exact (handleComment_shaped _ _ S H)|].
  destruct (_ && checkRegex t); [exact (handleRegex_shaped _ _ S H)|].
  destruct (Char.is_quote char).
  { unfold startString in H. bind_case H t1 E.
    pose proof (flushBuffer_shaped _ _ S E) as S1. injection H as <-.
    revert S1. apply shaped_fields; reflexivity. }
  destruct (Char.is_space char) eqn:W.
  { bind_case H t1 E. pose proof (flushBuffer_shaped _ _ S E) as S1.
    injection H as <-. apply updatePosition_shaped.
    destruct (preserveWhitespace _); [|exact S1].
    apply addToken_shaped; [apply whitespace_token_ok, W|exact S1]. }
  destruct (_ || _);
    [injection H as <-; revert S; apply shaped_fields; reflexivity|].
  destruct (Char.is_ident char) eqn:I;
    [injection H as <-; revert S; apply shaped_fields; reflexivity|].
  destruct (checkMultiCharOperator t);
    [exact (handleMultiCharOperator_shaped _ _ _ G I S H)|].
  destruct (Str.includes _ char) eqn:Y.
  { bind_case H t1 E. pose proof (flushBuffer_shaped _ _ S E) as S1.
    injection H as <-.
    apply addToken_shaped; [apply symbol_char_token_ok; assumption|exact S1]. }
  destruct (Str.includes "[{(" char) eqn:O.
  { unfold startBlock in H. bind_case H t1 E.
    pose proof (flushBuffer_shaped _ _ S E) as S1. injection H as <-.
    apply openBlock_shaped; assumption. }
  destruct (Str.includes "]})" char); [|discriminate].
  unfold finishBlock in H. bind_case H t1 E.
  pose proof (flushBuffer_shaped _ _ S E) as S1.
  destruct (top _); [|discriminate].
  destruct (Heap.get _ _); [|discriminate].
  destruct (negb _); [discriminate|].
  injection H as <-. revert S1. apply shaped_fields; reflexivity.
Qed.

Lemma iteration_shaped (t t' : Tokenizer) :
  shaped t -> iteration t = Return t' -> shaped t'.
Proof.
  unfold iteration. intros S H.
  destruct (char_at _ _) as [char|] eqn:G; [|discriminate].
  bind_case H t1 E. pose proof (dispatch_shaped _ _ _ G S E) as S1.
  injection H as <-. revert S1.
  destruct (_ && _); apply shaped_fields; reflexivity.
Qed.

Lemma turns_shaped (n : nat) (t t' : Tokenizer) :
  shaped t -> turns n t = Return t' -> shaped t'.
Proof.
  revert t. induction n as [|n IH]; intros t S H; simpl in H.
  - injection H as <-. exact S.
  - bind_case H t1 E. exact (IH _ (iteration_shaped _ _ S E) H).
Qed.

Lemma scan_shaped (fuel : nat) (t t' : Tokenizer) :
  shaped t -> scan fuel t = Return t' -> shaped t'.
Proof.
  revert t. induction fuel as [|fuel IH]; intros t S; simpl;
    destruct (position t <? String.length (input t));
    try discriminate; try (intros [= <-]; exact S).
  intros H. bind_case H t1 E. exact (IH _ (iteration_shaped _ _ S E) H).
Qed.

Lemma tokenize_shaped (t t' : Tokenizer) (res : Scanned) :
  shaped t -> tokenize t = Return (res, t') -> shaped t'.
Proof.
  unfold tokenize. intros S H.
  bind_case H t1 E. apply (scan_shaped _ _ _ S) in E.
  apply finish_return in H. destruct H as (F & _).
  exact (flushBuffer_shaped _ _ E F).
Qed.

Lemma new_shaped (text : string) (opts : Options) : shaped (new_Tokenizer text opts).
Proof. repeat split; constructor. Qed.

(** X2. Every token object of a successful [tokenize()] has the shape of the
    branch that emitted it: no [position], a non-empty value, and one of the
    seven types, where a number is a digits-and-dots run with at most one
    dot, an identifier is not such a run, a symbol is one of the symbol
    characters or operators (never a minus, [--] or [-=], which the
    identifier branch takes first), whitespace is one whitespace character,
    a comment starts with [//] or [/*] and a regex with a slash; in
    particular no token of type [keyword] is ever emitted. *)
Theorem emitted_tokens_are_shaped (text : string) (opts : Options)
    (res : Scanned) (t' : Tokenizer) (tok : Token) :
  run text opts = Return (res, t') ->
  reachable tok t' ->
  token_ok tok = true
  /\ type_of tok <> "keyword"
  /\ (type_of tok = "symbol" ->
      value_of tok <> Some "-" /\ value_of tok <> Some "--"
      /\ value_of tok <> Some "-=").
Proof.
  intros H Re.
  pose proof (tokenize_shaped _ _ _ (new_shaped text opts) H) as [[St Sc] _].
  assert (Ok : token_ok tok = true).
  { destruct Re as [I|(l & b & G & I)].
    - rewrite Forall_forall in St. exact (St _ I).
    - apply nth_error_In in G. rewrite Forall_forall in Sc.
      specialize (Sc _ G). rewrite Forall_forall in Sc. exact (Sc _ I). }
  split; [exact Ok|]. destruct tok as [ty v p|l]; simpl; [|split; discriminate].
  split.
  - intros ->. unfold token_ok in Ok. cbn [String.eqb Ascii.eqb Bool.eqb] in Ok.
    rewrite andb_false_r in Ok. discriminate.
  - intros ->. repeat split; intros [= ->]; destruct p; discriminate.
Qed.

Lemma emitted_tokens_are_shaped_witness :
  exists t',
    run "x - 1 -- y" default_options
    = Return (TokenArray [Atom "identifier" "x" None; Atom "identifier" "-" None;
                          Atom "number" "1" None; Atom "identifier" "--" None;
                          Atom "identifier" "y" None], t')
    /\ token_ok (Atom "identifier" "--" None) = true.
Proof.
  evaluate (run "x - 1 -- y" default_options).
  eexists. split; [reflexivity|].
  refine (proj1 (@emitted_tokens_are_shaped "x - 1 -- y" default_options _ _
                   (Atom "identifier" "--" None) _ _)).
  - vm_compute. reflexivity.
  - left. simpl. tauto.
Defined.

(** X3. Every block object of a successful [tokenize()] carries one of the
    three bracket pairs: its opener is [[], [{] or [(] and its closer the
    matching one. *)
Theorem blocks_have_matching_brackets (text : string) (opts : Options)
    (res : Scanned) (t' : Tokenizer) (l : loc) (b : Block) :
  run text opts = Return (res, t') ->
  Heap.get (heap t') l = Some b ->
  (opener b = "[" /\ closer b = "]")%char
  \/ (opener b = "{" /\ closer b = "}")%char
  \/ (opener b = "(" /\ closer b = ")")%char.
Proof.
  intros H G.
  pose proof (tokenize_shaped _ _ _ (new_shaped text opts) H) as [_ Sb].
  apply nth_error_In in G. rewrite Forall_forall in Sb. specialize (Sb _ G).
  unfold block_ok in Sb. apply andb_true_iff in Sb. destruct Sb as [O C].
  apply Ascii.eqb_eq in C. rewrite C.
  cbn [Str.includes] in O. rewrite orb_false_r, !orb_true_iff, !Ascii.eqb_eq in O.
  destruct O as [ -> | [ -> | -> ] ]; auto.
Qed.

Lemma blocks_have_matching_brackets_witness :
  exists t' b,
    run "f({})" default_options
    = Return (TokenArray [Atom "identifier" "f" None; BlockRef 0], t')
    /\ Heap.get (heap t') 1 = Some b
    /\ ((opener b = "[" /\ closer b = "]")%char
        \/ (opener b = "{" /\ closer b = "}")%char
        \/ (opener b = "(" /\ closer b = ")")%char).
Proof.
  evaluate (run "f({})" default_options).
  do 2 eexists. split; [reflexivity|]. split; [vm_compute; reflexivity|].
  refine (@blocks_have_matching_brackets "f({})" default_options _ _ 1 _ _ _);
    vm_compute; reflexivity.
Defined.

(** ** The store is a forest *)

Lemma later_ref_more (lo n m : nat) (tok : Token) :
  n <= m -> later_ref lo n tok -> later_ref lo m tok.
Proof. intros L. destruct tok; simpl; [auto|lia]. Qed.

Lemma sound_fields (t u : Tokenizer) :
  tokens u = tokens t -> heap u = heap t -> tokenStack u = tokenStack t ->
  currentBlock u = currentBlock t -> sound t -> sound u.
Proof. unfold sound, well_formed. intros -> -> -> ->. tauto. Qed.

Lemma well_formed_current (t : Tokenizer) (c : loc) :
  well_formed t -> currentBlock t = Some c -> c < length (heap t).
Proof.
  intros [C S] E. rewrite E in C. symmetry in C. apply top_In in C.
  rewrite Forall_forall in S. exact (S _ C).
Qed.

(** Appending a token that refers, if at all, to a later object keeps the
    forest. *)
Lemma addToken_forest (tok : Token) (t : Tokenizer) :
  (forall c, currentBlock t = Some c -> later_ref (S c) (length (heap t)) tok) ->
  later_ref 0 (length (heap t)) tok ->
  forest (tokens t) (heap t) ->
  forest (tokens (addToken tok t)) (heap (addToken tok t)).
Proof.
  unfold forest, addToken. intros Hc H0 [Ft Fh].
  destruct (currentBlock t) as [c|]; simpl.
  - unfold Heap.push_child. rewrite update_length. split; [exact Ft|].
    intros l b G. rewrite get_update in G.
    destruct (l =? c) eqn:E.
    + apply Nat.eqb_eq in E. subst l.
      destruct (Heap.get (heap t) c) as [b0|] eqn:G0; [|discriminate].
      injection G as <-. simpl. apply Forall_app. split; [exact (Fh _ _ G0)|].
      constructor; [exact (Hc c eq_refl)|constructor].
    + exact (Fh _ _ G).
  - split; [|exact Fh]. apply Forall_app. split; [exact Ft|].
    constructor; [exact H0|constructor].
Qed.

Lemma addToken_sound (type value : string) (t : Tokenizer) :
  sound t -> sound (addToken (Atom type value None) t).
Proof.
  intros [W F]. split; [apply addToken_well_formed, W|].
  apply addToken_forest; simpl; auto.
Qed.

Lemma snoc_forest (toks : list Token) (h : Heap) (new : Block) :
  children new = [] -> forest toks h -> forest toks (h ++ [new]).
Proof.
  unfold forest. intros E [Ft Fh]. rewrite length_app. simpl. split.
  - eapply Forall_impl; [|exact Ft]. intros tok. apply later_ref_more. lia.
  - intros l b G. unfold Heap.get in G.
    destruct (Nat.lt_ge_cases l (length h)) as [L|L].
    + rewrite nth_error_app1 in G by exact L.
      eapply Forall_impl; [|exact (Fh _ _ G)]. intros tok.
      apply later_ref_more. lia.
    + rewrite nth_error_app2 in G by exact L.
      destruct (l - length h) as [|k]; simpl in G.
      * injection G as <-. rewrite E. constructor.
      * destruct k; discriminate.
Qed.

Lemma openBlock_sound (char : ascii) (t : Tokenizer) :
  sound t -> sound (openBlock char t).
Proof.
  intros [W F]. split; [apply openBlock_well_formed, W|].
  set (new := {| opener := char; closer := closers char; children := [] |}).
  set (u := set_heap (heap t ++ [new]) t).
  assert (Fu : forest (tokens u) (heap u))
    by (apply snoc_forest; [reflexivity|exact F]).
  assert (G : forest (tokens (addToken (BlockRef (length (heap t))) u))
                (heap (addToken (BlockRef (length (heap t))) u))).
  { apply addToken_forest; [| |exact Fu]; simpl; rewrite length_app; simpl.
    - intros c E. pose proof (well_formed_current t c W E). lia.
    - lia. }
  exact G.
Qed.

Lemma closeBlock_sound (t : Tokenizer) : sound t -> sound (closeBlock t).
Proof.
  intros [W F]. split; [apply closeBlock_well_formed, W|exact F].
Qed.

Lemma new_sound (text : string) (opts : Options) : sound (new_Tokenizer text opts).
Proof.
  split; [split; constructor|]. split; [constructor|].
  intros l b G. destruct l; discriminate.
Qed.

Lemma tokenize_sound (t t' : Tokenizer) (res : Scanned) :
  sound t -> tokenize t = Return (res, t') -> sound t'.
Proof.
  apply tokenize_keeps; auto using addToken_sound, openBlock_sound, closeBlock_sound;
    intros; eapply sound_fields; try eassumption; reflexivity.
Qed.

(** ** The store is connected *)

Lemma connected_grown (t u : Tokenizer) :
  grown t u -> length (heap u) = length (heap t) ->
  connected (tokens t) (heap t) -> connected (tokens u) (heap u).
Proof.
  intros [_ _ _ [more ->] Gh] L C l Ll. rewrite L in Ll.
  destruct (C l Ll) as [I|(l' & b' & Lt & G & I)].
  - left. apply in_or_app. left. exact I.
  - right. destruct (Gh _ _ G) as (b'' & G' & _ & _ & [m E]).
    exists l', b''. repeat split; auto. rewrite E. apply in_or_app. left. exact I.
Qed.

Lemma addToken_length (tok : Token) (t : Tokenizer) :
  length (heap (addToken tok t)) = length (heap t).
Proof.
  unfold addToken. destruct (currentBlock t); simpl; [|reflexivity].
  unfold Heap.push_child. apply update_length.
Qed.

Lemma addToken_last (tok : Token) (t : Tokenizer) :
  match currentBlock t with
  | Some c => forall b, Heap.get (heap t) c = Some b ->
                        exists b', Heap.get (heap (addToken tok t)) c = Some b'
                                   /\ children b' = children b ++ [tok]
  | None => tokens (addToken tok t) = tokens t ++ [tok]
  end.
Proof.
  unfold addToken. destruct (currentBlock t) as [c|]; simpl; [|reflexivity].
  intros b G. unfold Heap.push_child. rewrite get_update, Nat.eqb_refl, G.
  simpl. eexists. split; reflexivity.
Qed.

Lemma openBlock_connected (char : ascii) (t : Tokenizer) :
  well_formed t -> connected (tokens t) (heap t) ->
  connected (tokens (openBlock char t)) (heap (openBlock char t)).
Proof.
  intros W C.
  set (new := {| opener := char; closer := closers char; children := [] |}).
  set (u := set_heap (heap t ++ [new]) t).
  set (v := addToken (BlockRef (length (heap t))) u).
  change (connected (tokens v) (heap v)).
  assert (Lv : length (heap v) = S (length (heap t))).
  { unfold v. rewrite addToken_length. simpl. rewrite length_app. simpl. lia. }
  pose proof (openBlock_grown char t) as G.
  assert (Gv : grown t v)
    by (revert G; intros [I O L T H]; constructor; assumption).
  intros l Ll. rewrite Lv in Ll.
  destruct (Nat.eq_dec l (length (heap t))) as [->|Ne].
  - pose proof (addToken_last (BlockRef (length (heap t))) u) as A. fold v in A.
    change (currentBlock u) with (currentBlock t) in A.
    destruct (currentBlock t) as [c|] eqn:Cur.
    + pose proof (well_formed_current t c W Cur) as Lc.
      destruct (Heap.get (heap t) c) as [bc|] eqn:Gc;
        [|apply nth_error_None in Gc; lia].
      destruct (A bc (get_snoc _ _ new _ Gc)) as (b' & G' & E).
      right. exists c, b'. repeat split; auto. rewrite E.
      apply in_or_app. right. left. reflexivity.
    + left. rewrite A. apply in_or_app. right. left. reflexivity.
  - destruct Gv as [_ _ _ [more E] Gh]. assert (Lt : l < length (heap t)) by lia.
    destruct (C l Lt) as [I|(l' & b' & Lt' & G' & I)].
    + left. rewrite E. apply in_or_app. left. exact I.
    + right. destruct (Gh _ _ G') as (b'' & G'' & _ & _ & [m Em]).
      exists l', b''. repeat split; auto. rewrite Em.
      apply in_or_app. left. exact I.
Qed.

(** The references of the instance are sound and reach every block. *)
Lemma tokenize_linked (t t' : Tokenizer) (res : Scanned) :
  sound t /\ connected (tokens t) (heap t) ->
  tokenize t = Return (res, t') ->
  sound t' /\ connected (tokens t') (heap t').
Proof.
  apply (tokenize_keeps (fun u => sound u /\ connected (tokens u) (heap u))).
  - intros v u [S C]. split; [revert S; apply sound_fields; reflexivity|exact C].
  - intros v u [S C]. split; [revert S; apply sound_fields; reflexivity|exact C].
  - intros v u [S C]. split; [revert S; apply sound_fields; reflexivity|exact C].
  - intros v u [S C]. split; [revert S; apply sound_fields; reflexivity|exact C].
  - intros f d u [S C]. split; [revert S; apply sound_fields; reflexivity|exact C].
  - intros ty v u [S C]. split; [apply addToken_sound, S|].
    revert C. apply connected_grown; [apply addToken_grown|apply addToken_length].
  - intros c u [S C]. split; [apply openBlock_sound, S|].
    apply openBlock_connected; [exact (proj1 S)|exact C].
  - intros u [S C]. split; [apply closeBlock_sound, S|exact C].
Qed.

Lemma new_linked (text : string) (opts : Options) :
  sound (new_Tokenizer text opts)
  /\ connected (tokens (new_Tokenizer text opts)) (heap (new_Tokenizer text opts)).
Proof. split; [apply new_sound|]. intros l L. simpl in L. lia. Qed.

(** ** What the queries traverse *)

Lemma search_at_depth (p : Token -> bool) (h : Heap) (d : nat) :
  forall toks tok,
    In tok (searchRecursive d p h toks) <-> p tok = true /\ at_depth h toks d tok.
Proof.
  induction d as [|d IH]; intros toks tok; simpl; [tauto|].
  rewrite in_flat_map. split.
  - intros (token & I & H). apply in_app_or in H. destruct H as [H|H].
    + destruct (p token) eqn:P; [|destruct H].
      destruct H as [<-|[]]. auto.
    + destruct token as [ty v ps|l]; [destruct H|].
      apply IH in H. destruct H as [P A]. split; [exact P|]. right. eauto.
  - intros (P & [I|(l & I & A)]).
    + exists tok. split; [exact I|]. apply in_or_app. left. rewrite P. left.
      reflexivity.
    + exists (BlockRef l). split; [exact I|]. apply in_or_app. right.
      apply IH. auto.
Qed.

Lemma at_depth_more (h : Heap) (d d' : nat) :
  d <= d' -> forall toks tok, at_depth h toks d tok -> at_depth h toks d' tok.
Proof.
  revert d'. induction d as [|d IH]; intros [|d'] L toks tok A; simpl in *;
    try tauto; try lia.
  destruct A as [I|(l & I & A)]; [left; exact I|].
  right. exists l. split; [exact I|]. apply (IH d'); [lia|exact A].
Qed.

Lemma at_depth_child (h : Heap) (l : loc) (tok : Token) (d : nat) :
  forall toks, at_depth h toks d (BlockRef l) -> In tok (Heap.children_of h l) ->
               at_depth h toks (S d) tok.
Proof.
  induction d as [|d IH]; intros toks A I; simpl in A; [destruct A|].
  destruct A as [A|(l1 & I1 & A)].
  - right. exists l. split; [exact A|]. destruct d; left; exact I.
  - right. exists l1. split; [exact I1|]. apply IH; assumption.
Qed.

Lemma children_of_get (h : Heap) (l : loc) (b : Block) :
  Heap.get h l = Some b -> Heap.children_of h l = children b.
Proof. unfold Heap.children_of. intros ->. reflexivity. Qed.

Lemma at_depth_in_store (h : Heap) (d : nat) :
  forall toks tok,
    at_depth h toks d tok ->
    In tok toks \/ exists l b, Heap.get h l = Some b /\ In tok (children b).
Proof.
  induction d as [|d IH]; intros toks tok A; simpl in A; [destruct A|].
  destruct A as [I|(l & I & A)]; [left; exact I|]. right.
  apply IH in A. destruct A as [A|A]; [|exact A].
  unfold Heap.children_of in A.
  destruct (Heap.get h l) as [b|] eqn:G; [eauto|destruct A].
Qed.

(** In a connected store the block allocated [l]-th lies at most [l + 1]
    arrays deep. *)
Lemma block_at_depth (toks : list Token) (h : Heap) :
  connected toks h ->
  forall l, l < length h -> at_depth h toks (S l) (BlockRef l).
Proof.
  intros C l. induction l as [l IH] using lt_wf_ind. intros L.
  destruct (C l L) as [I|(l' & b' & Lt & G & I)]; [left; exact I|].
  apply (at_depth_more h (S (S l'))); [lia|].
  apply (at_depth_child h l'); [apply IH; lia|].
  rewrite (children_of_get _ _ _ G). exact I.
Qed.

Lemma reachable_at_depth (t : Tokenizer) (tok : Token) :
  connected (tokens t) (heap t) ->
  (reachable tok t <-> at_depth (heap t) (tokens t) (S (length (heap t))) tok).
Proof.
  intros C. split.
  - intros [I|(l & b & G & I)]; [left; exact I|].
    assert (L : l < length (heap t)) by (apply nth_error_Some; unfold Heap.get in G; congruence).
    apply (at_depth_more (heap t) (S (S l))); [lia|].
    apply (at_depth_child (heap t) l); [apply block_at_depth; assumption|].
    rewrite (children_of_get _ _ _ G). exact I.
  - apply at_depth_in_store.
Qed.

Lemma count_of_bump (type type' : string) (m : ByType) :
  count_of type (bump type' m)
  = count_of type m + (if String.eqb type' type then 1 else 0).
Proof.
  unfold count_of. induction m as [|[k n] m IH]; simpl.
  - destruct (String.eqb type' type); reflexivity.
  - destruct (String.eqb k type') eqn:E; simpl.
    + apply String.eqb_eq in E. subst k.
      destruct (String.eqb type' type); lia.
    + destruct (String.eqb k type) eqn:F; [|exact IH].
      apply String.eqb_eq in F. subst k. rewrite String.eqb_sym, E. lia.
Qed.

Lemma countRecursive_cons (d : nat) (h : Heap) (token : Token) (toks : list Token)
    (stats : nat * ByType) :
  countRecursive (S d) h (token :: toks) stats
  = countRecursive (S d) h toks
      match token with
      | BlockRef l =>
          countRecursive d h (Heap.children_of h l)
            (fst stats + 1, bump "block" (snd stats))
      | Atom type _ _ => (fst stats + 1, bump type (snd stats))
      end.
Proof. destruct token; reflexivity. Qed.

Lemma searchRecursive_cons (d : nat) (p : Token -> bool) (h : Heap) (token : Token)
    (toks : list Token) :
  searchRecursive (S d) p h (token :: toks)
  = (if p token then [token] else [])
    ++ match token with
       | BlockRef l => searchRecursive d p h (Heap.children_of h l)
       | Atom _ _ _ => []
       end
    ++ searchRecursive (S d) p h toks.
Proof. simpl. rewrite app_assoc. reflexivity. Qed.

(** [countRecursive] counts what [searchRecursive] lists. *)
Lemma count_search (h : Heap) (type : string) (d : nat) :
  forall toks stats,
    fst (countRecursive d h toks stats)
    = fst stats + length (searchRecursive d (fun _ => true) h toks)
    /\ count_of type (snd (countRecursive d h toks stats))
       = count_of type (snd stats)
         + length (searchRecursive d (fun tok => String.eqb (type_of tok) type) h toks).
Proof.
  induction d as [|d IH]; intros toks stats; [simpl; lia|].
  revert stats. induction toks as [|token toks IHt]; intros stats; [simpl; lia|].
  rewrite countRecursive_cons, !searchRecursive_cons, !length_app.
  destruct token as [ty v ps|l].
  - destruct (IHt (fst stats + 1, bump ty (snd stats))) as [E1 E2].
    rewrite E1, E2. cbn [fst snd type_of length]. rewrite count_of_bump.
    destruct (String.eqb ty type); cbn [length]; lia.
  - destruct (IH (Heap.children_of h l) (fst stats + 1, bump "block" (snd stats)))
      as [C1 C2].
    destruct (IHt (countRecursive d h (Heap.children_of h l)
                     (fst stats + 1, bump "block" (snd stats)))) as [E1 E2].
    rewrite E1, E2, C1, C2. cbn [fst snd type_of length]. rewrite count_of_bump.
    destruct (String.eqb "block" type); cbn [length]; lia.
Qed.

Lemma run_scanned (text : string) (opts : Options) (res : Scanned) (t' : Tokenizer) :
  run text opts = Return (res, t') -> scanned t' = TokenArray (tokens t').
Proof.
  intros H. pose proof (tokenize_returns_array _ _ _ _ H) as R.
  unfold run, tokenize in H. bind_case H t1 E.
  apply finish_return in H. destruct H as (_ & _ & _ & ->). exact R.
Qed.

Lemma listing_unique (p : Token -> bool) (h : Heap) (toks out : list Token) :
  listing p h toks out -> forall out', listing p h toks out' -> out' = out.
Proof.
  induction 1 as [|ty v ps rest out L IH|l b rest inner out G Li IHi Lo IHo];
    intros out' L'; inversion L'; subst.
  - reflexivity.
  - f_equal. apply IH. assumption.
  - assert (b0 = b) by congruence. subst b0.
    f_equal. f_equal; [apply IHi|apply IHo]; assumption.
Qed.

(** On a store in which blocks refer only to blocks allocated later, a bound
    above the number of objects is never reached, and [searchRecursive]
    builds the listing. *)
Lemma search_listing (p : Token -> bool) (h : Heap) :
  nested h ->
  forall d lo toks,
    Forall (later_ref lo (length h)) toks -> length h - lo < d ->
    listing p h toks (searchRecursive d p h toks).
Proof.
  intros N. induction d as [|d IH]; intros lo toks A L; [lia|].
  induction toks as [|token toks IHt]; [constructor|].
  inversion A as [|? ? Rt Rl]; subst.
  rewrite searchRecursive_cons. destruct token as [ty v ps|l].
  - cbn [app]. constructor. apply IHt, Rl.
  - simpl in Rt. destruct Rt as [Lo Hi].
    destruct (Heap.get h l) as [b|] eqn:G;
      [|apply nth_error_None in G; lia].
    rewrite (children_of_get _ _ _ G).
    apply (listing_block p h l b); [exact G| |apply IHt, Rl].
    apply (IH (S l)); [apply N, G|lia].
Qed.

(** X4. After a successful [tokenize()], what [find(predicate)] returns,
    when it returns, is one list and no other: the tokens that satisfy the
    predicate in the order of a walk that takes each token of an array in
    turn and, at a block, the children of the block before the rest of the
    array; each token is listed once for each place it has in the tree. Its
    elements are the elements of the top-level array and of the blocks'
    children that satisfy the predicate. *)
Theorem find_returns_the_matching_tokens (text : string) (opts : Options)
    (res : Scanned) (t' : Tokenizer) (predicate : Token -> bool)
    (found : list Token) :
  run text opts = Return (res, t') ->
  find predicate t' = Some found ->
  listing predicate (heap t') (tokens t') found
  /\ (forall other, listing predicate (heap t') (tokens t') other -> other = found)
  /\ forall tok, In tok found <-> reachable tok t' /\ predicate tok = true.
Proof.
  intros H F. unfold find in F. rewrite (run_scanned _ _ _ _ H) in F.
  assert (E : found = searchRecursive (S (length (heap t'))) predicate (heap t')
                        (tokens t')) by congruence.
  clear F. subst found.
  destruct (tokenize_linked _ _ _ (new_linked text opts) H) as [[_ [Ft Fc]] C].
  assert (L : listing predicate (heap t') (tokens t')
                (searchRecursive (S (length (heap t'))) predicate (heap t')
                   (tokens t')))
    by (apply (search_listing predicate (heap t') Fc _ 0); [exact Ft|lia]).
  split; [exact L|]. split; [apply listing_unique, L|].
  intros tok. rewrite search_at_depth, (reachable_at_depth _ _ C). tauto.
Qed.

Lemma find_returns_the_matching_tokens_witness :
  let is_number tok := String.eqb (type_of tok) "number" in
  exists t',
    run "f(1, [2, 1], 1)" default_options
    = Return (TokenArray [Atom "identifier" "f" None; BlockRef 0], t')
    /\ find is_number t'
       = Some [Atom "number" "1" None; Atom "number" "2" None;
               Atom "number" "1" None; Atom "number" "1" None]
    /\ listing is_number (heap t') (tokens t')
         [Atom "number" "1" None; Atom "number" "2" None;
          Atom "number" "1" None; Atom "number" "1" None].
Proof.
  intros is_number.
  eassert (H : run "f(1, [2, 1], 1)" default_options = Return (_, _))
    by (vm_compute; reflexivity).
  match type of H with
  | _ = Return (_, ?t) =>
      exists t;
      eassert (F : find is_number t = Some _) by (vm_compute; reflexivity)
  end.
  split; [exact H|]. split; [exact F|].
  exact (proj1 (@find_returns_the_matching_tokens _ _ _ _ is_number _ H F)).
Defined.

(** X5. After a successful [tokenize()], [getStats()] agrees with [find]:
    [total] is the number of tokens [find] returns for the predicate that is
    always true, the count recorded for a type (zero when the type has no
    entry) is the number of tokens [find] returns for that type, and [lines]
    is the scanner's line counter. *)
Theorem getStats_counts_what_find_lists (text : string) (opts : Options)
    (res : Scanned) (t' : Tokenizer) :
  run text opts = Return (res, t') ->
  exists stats every,
    getStats t' = Some stats
    /\ find (fun _ => true) t' = Some every
    /\ total stats = length every
    /\ lines stats = line t'
    /\ forall type,
         exists of_type,
           find (fun tok => String.eqb (type_of tok) type) t' = Some of_type
           /\ count_of type (byType stats) = length of_type.
Proof.
  intros H. unfold getStats, find. rewrite (run_scanned _ _ _ _ H).
  destruct (countRecursive _ _ _ _) as [n m] eqn:E.
  do 2 eexists. split; [reflexivity|]. split; [reflexivity|].
  cbn [total lines byType].
  pose proof (count_search (heap t') "" (S (length (heap t'))) (tokens t') (0, []))
    as [C _].
  rewrite E in C. split; [exact C|]. split; [reflexivity|].
  intros type. eexists. split; [reflexivity|].
  pose proof (count_search (heap t') type (S (length (heap t'))) (tokens t') (0, []))
    as [_ C2].
  rewrite E in C2. exact C2.
Qed.

Lemma getStats_counts_what_find_lists_witness :
  exists t' stats,
    run "f(1, [2])" default_options
    = Return (TokenArray [Atom "identifier" "f" None; BlockRef 0], t')
    /\ getStats t' = Some stats
    /\ total stats = 6
    /\ byType stats = [("identifier", 1); ("block", 2); ("number", 2); ("symbol", 1)].
Proof.
  eassert (H : run "f(1, [2])" default_options = Return (_, _))
    by (vm_compute; reflexivity).
  destruct (@getStats_counts_what_find_lists "f(1, [2])" default_options _ _ H)
    as (stats & every & G & F & T & _).
  eexists. exists stats. split; [exact H|]. split; [exact G|].
  vm_compute in G. injection G as <-. split; reflexivity.
Defined.

(** ** What [filter] does to the tree *)

Lemma subseq_refl (A : Type) (l : list A) : subseq l l.
Proof. induction l; constructor; assumption. Qed.

Lemma subseq_trans (A : Type) (l1 l2 l3 : list A) :
  subseq l1 l2 -> subseq l2 l3 -> subseq l1 l3.
Proof.
  intros H12 H23. revert l1 H12.
  induction H23 as [|x l2 l3 H IH|x l2 l3 H IH]; intros l1 H12.
  - exact H12.
  - inversion H12; subst; constructor; auto.
  - constructor. auto.
Qed.

Lemma subseq_Forall (A : Type) (Q : A -> Prop) (l l' : list A) :
  subseq l l' -> Forall Q l' -> Forall Q l.
Proof.
  induction 1; intros F; [constructor| |]; inversion F; subst; auto.
Qed.

Lemma shrunk_refl (h : Heap) : shrunk h h.
Proof. split; [reflexivity|]. intros l b G. exists b. auto using subseq_refl. Qed.

Lemma shrunk_trans (h1 h2 h3 : Heap) : shrunk h1 h2 -> shrunk h2 h3 -> shrunk h1 h3.
Proof.
  intros [L1 S1] [L2 S2]. split; [congruence|]. intros l b G.
  destruct (S1 _ _ G) as (b1 & G1 & O1 & C1 & Q1).
  destruct (S2 _ _ G1) as (b2 & G2 & O2 & C2 & Q2).
  exists b2. repeat split; try congruence. eauto using subseq_trans.
Qed.

Lemma set_children_shrunk (h : Heap) (l : loc) (b : Block) (cs : list Token) :
  Heap.get h l = Some b -> subseq cs (children b) ->
  shrunk h (Heap.set_children h l cs).
Proof.
  intros G Q. unfold Heap.set_children. split; [apply update_length|].
  intros l' b' G'. rewrite get_update. destruct (l' =? l) eqn:E.
  - apply Nat.eqb_eq in E. subst l'. rewrite G' in *. injection G as <-.
    simpl. eexists. repeat split. exact Q.
  - exists b'. auto using subseq_refl.
Qed.

Lemma filtered_refl (type : string) (h : Heap) : filtered type h h.
Proof. intros l. left. reflexivity. Qed.

Lemma filtered_trans (type : string) (h1 h2 h3 : Heap) :
  filtered type h1 h2 -> filtered type h2 h3 -> filtered type h1 h3.
Proof.
  intros F1 F2 l. destruct (F2 l) as [E|F]; [|right; exact F].
  rewrite E. apply F1.
Qed.

Lemma set_children_filtered (type : string) (h : Heap) (l : loc) (cs : list Token) :
  Forall (stays type) cs -> filtered type h (Heap.set_children h l cs).
Proof.
  intros F l'. unfold Heap.children_of, Heap.set_children. rewrite get_update.
  destruct (l' =? l) eqn:E; [|left; reflexivity].
  destruct (Heap.get h l'); simpl; [right; exact F|left; reflexivity].
Qed.

(** The loop of [filterRecursive] over one array, from the tokens kept so
    far. *)
Lemma filterRecursive_spec (type : string) (d : nat) :
  forall toks h kept h',
    filterRecursive d type toks h = Some (kept, h') ->
    subseq kept toks /\ Forall (stays type) kept
    /\ shrunk h h' /\ filtered type h h'.
Proof.
  induction d as [|d IH]; intros toks h kept h'; [discriminate|].
  cbn [filterRecursive].
  set (F := fun (acc : option (list Token * Heap)) (token : Token) => _).
  assert (Fnone : forall l, fold_left F l None = None)
    by (induction l; [reflexivity|assumption]).
  assert (Loop : forall l k0 h0 k h1,
             fold_left F l (Some (k0, h0)) = Some (k, h1) ->
             exists k1, k = k0 ++ k1 /\ subseq k1 l /\ Forall (stays type) k1
                        /\ shrunk h0 h1 /\ filtered type h0 h1).
  { induction l as [|token l IHl]; intros k0 h0 k h1 H.
    - injection H as <- <-. exists []. rewrite app_nil_r.
      split; [reflexivity|]. split; [apply subseq_nil|]. split; [constructor|].
      split; [apply shrunk_refl|apply filtered_refl].
    - cbn [fold_left] in H.
      destruct (F (Some (k0, h0)) token) as [[k0' h0']|] eqn:Step;
        [|rewrite Fnone in H; discriminate].
      destruct (IHl _ _ _ _ H) as (k1 & -> & Q1 & A1 & S1 & R1).
      unfold F in Step.
      destruct (String.eqb (type_of token) type) eqn:T.
      { injection Step as <- <-. exists (token :: k1).
        split; [rewrite <- app_assoc; reflexivity|].
        split; [constructor; exact Q1|].
        split; [|split; assumption].
        constructor; [|exact A1]. apply String.eqb_eq in T.
        destruct token; [exact T|exact I]. }
      destruct token as [ty v ps|l'].
      { injection Step as <- <-. exists k1.
        split; [reflexivity|]. split; [constructor; exact Q1|].
        split; [exact A1|split; assumption]. }
      destruct (Heap.get h0 l') as [b|] eqn:G; [|discriminate].
      destruct (filterRecursive d type (children b) h0) as [[cs h2]|] eqn:Rec;
        [|discriminate].
      destruct (IH _ _ _ _ Rec) as (Qc & Ac & Sc & Rc).
      destruct (proj2 Sc _ _ G) as (b2 & G2 & O2 & C2 & Q2).
      assert (S0 : shrunk h0 (Heap.set_children h2 l' cs)).
      { split; [unfold Heap.set_children; rewrite update_length; exact (proj1 Sc)|].
        intros l'' b'' G''. unfold Heap.set_children. rewrite get_update.
        destruct (l'' =? l') eqn:E.
        - apply Nat.eqb_eq in E. subst l''.
          assert (b'' = b) by congruence. subst b''.
          rewrite G2. simpl. eexists. split; [reflexivity|]. simpl.
          split; [exact O2|]. split; [exact C2|exact Qc].
        - exact (proj2 Sc _ _ G''). }
      assert (R0 : filtered type h0 (Heap.set_children h2 l' cs))
        by (apply (filtered_trans type h0 h2); [exact Rc|];
            apply set_children_filtered, Ac).
      injection Step as <- <-.
      pose proof (shrunk_trans _ _ _ S0 S1) as S01.
      pose proof (filtered_trans _ _ _ _ R0 R1) as R01.
      destruct (0 <? length cs).
      + exists (BlockRef l' :: k1).
        split; [rewrite <- app_assoc; reflexivity|].
        split; [constructor; exact Q1|].
        split; [constructor; [exact I|exact A1]|split; assumption].
      + exists k1.
        split; [reflexivity|]. split; [constructor; exact Q1|].
        split; [exact A1|split; assumption]. }
  intros H. destruct (Loop _ _ _ _ _ H) as (k1 & -> & Q & A & S & R).
  auto.
Qed.

(** X6. [filter(type)] only ever removes: the array it returns is the
    top-level array with elements left out, every object in it that is no
    block has the requested type, the top-level array itself is untouched,
    no block is added, dropped or given other brackets, and the children of
    a block afterwards are its former children with elements left out;
    a block whose children were reassigned holds only blocks and objects of
    the requested type. *)
Theorem filter_only_removes (type : string) (t t' : Tokenizer) (kept : list Token) :
  filter type t = Some (kept, t') ->
  subseq kept (tokens t)
  /\ Forall (stays type) kept
  /\ tokens t' = tokens t
  /\ shrunk (heap t) (heap t')
  /\ filtered type (heap t) (heap t').
Proof.
  unfold filter, scanned. destruct (currentBlock t); [discriminate|].
  destruct (filterRecursive _ _ _ _) as [[k h]|] eqn:F; [|discriminate].
  intros [= <- <-]. apply filterRecursive_spec in F.
  destruct F as (Q & A & S & R). simpl. auto.
Qed.

Lemma filter_only_removes_witness :
  exists t t',
    run "(a 1) b 2" default_options
    = Return (TokenArray [BlockRef 0; Atom "identifier" "b" None;
                          Atom "number" "2" None], t)
    /\ filter "number" t = Some ([BlockRef 0; Atom "number" "2" None], t')
    /\ subseq [BlockRef 0; Atom "number" "2" None] (tokens t)
    /\ shrunk (heap t) (heap t').
Proof.
  eassert (H : run "(a 1) b 2" default_options = Return (_, _))
    by (vm_compute; reflexivity).
  match type of H with
  | _ = Return (_, ?t) =>
      exists t;
      eassert (F : filter "number" t = Some (_, _)) by (vm_compute; reflexivity)
  end.
  eexists. split; [exact H|]. split; [exact F|].
  destruct (@filter_only_removes _ _ _ _ F) as (Q & _ & _ & S & _).
  split; [exact Q|exact S].
Defined.

(** ** The offset stays inside the text *)

Lemma indexOf_sound (s p : string) (from i : nat) :
  Str.indexOf s p from = Some i ->
  from <= i /\ i + String.length p <= String.length s
  /\ Str.startsWith (Str.slice_from s i) p = true.
Proof.
  unfold Str.indexOf. destruct (String.length s <? from) eqn:B; [discriminate|].
  apply Nat.ltb_ge in B.
  destruct (Str.find _ _) as [k|] eqn:F; simpl; [|discriminate].
  intros [= <-]. destruct (find_sound _ _ _ F) as [Fs Fl].
  rewrite slice_from_length in Fl. rewrite slice_from_slice_from in Fs.
  split; [lia|]. split; [lia|exact Fs].
Qed.

Lemma operator_length (s : string) (n m : nat) (ops : list string) :
  Forall (fun op => String.length op = m) ops ->
  Str.one_of (Str.slice (Str.slice s n (n + 3)) 0 m) ops = true ->
  0 < m <= 3 -> n + m <= String.length s.
Proof.
  intros A H L. apply one_of_In in H. rewrite Forall_forall in A.
  apply A in H. unfold Str.slice in H. rewrite !substring_length in H. lia.
Qed.

Lemma handleStringContent_inside (char : ascii) (t : Tokenizer) :
  position t < String.length (input t) ->
  position (handleStringContent char t)
  < String.length (input (handleStringContent char t)).
Proof.
  unfold handleStringContent. intros L.
  destruct (Ascii.eqb char Char.backslash); simpl.
  - destruct (position t + 1 <? String.length (input t)) eqn:B.
    + apply Nat.ltb_lt in B. unfold char_at. simpl.
      destruct (String.get _ _); exact B.
    + destruct (is_char _ _); simpl; [|exact L].
      destruct (finishToken_same_cursor "string" t). congruence.
  - destruct (is_char _ _); simpl; [|exact L].
    destruct (finishToken_same_cursor "string" t). congruence.
Qed.

Lemma handleComment_inside (t t' : Tokenizer) :
  position t < String.length (input t) ->
  handleComment t = Return t' -> position t' < String.length (input t').
Proof.
  unfold handleComment. intros L H.
  bind_case H t1 E. cursor E.
  destruct (Str.startsWith _ "//") eqn:S1.
  - injection H as <-.
    destruct (line_comment_end _ _ S1) as [B1 B2].
    assert (K : match Str.indexOf (input t1) (chr Char.newline) (position t1) with
                | Some i => i | None => String.length (input t1) end
                <= String.length (input t1))
      by (destruct (Str.indexOf _ _ _); lia).
    destruct (preserveComments (options t1));
      [match goal with
       | |- context [addToken ?tok t1] => destruct (addToken_same_cursor tok t1)
       end|];
      simpl; try rewrite sc_input1; lia.
  - destruct (Str.startsWith _ "/*"); [|injection H as <-; congruence].
    destruct (Str.indexOf _ _ _) as [endIndex|] eqn:I; [|discriminate].
    apply indexOf_sound in I. destruct I as (_ & I & _). simpl in I.
    injection H as <-.
    destruct (preserveComments (options t1));
      [match goal with
       | |- context [addToken ?tok t1] => destruct (addToken_same_cursor tok t1)
       end|];
      destruct (1 <? _); simpl; try rewrite sc_input1; lia.
Qed.

Lemma handleRegex_inside (t t' : Tokenizer) :
  handleRegex t = Return t' -> position t' < String.length (input t').
Proof.
  unfold handleRegex. intros H.
  bind_case H t1 E.
  destruct (scan_regex _ _ _ _ _) as [[p r]|] eqn:R; [|discriminate].
  apply scan_regex_consumes in R. destruct R as (k & -> & Lk & _).
  rewrite slice_from_length in Lk. injection H as <-.
  destruct (addToken_same_cursor (Atom "regex" r None) t1).
  simpl. rewrite sc_input0. lia.
Qed.

Lemma updatePosition_inside (char : ascii) (t : Tokenizer) :
  position t < String.length (input t) ->
  position (updatePosition char t) < String.length (input (updatePosition char t)).
Proof.
  unfold updatePosition, peek, char_at. intros L.
  destruct (Ascii.eqb char Char.newline); [exact L|].
  destruct (Ascii.eqb char Char.cr); [|exact L].
  destruct (String.get _ _) as [c|] eqn:G; simpl; [|exact L].
  destruct (Ascii.eqb c Char.newline); simpl; [|exact L].
  exact (get_lt _ _ _ G).
Qed.

Lemma handleMultiCharOperator_inside (t t' : Tokenizer) :
  position t < String.length (input t) ->
  handleMultiCharOperator t = Return t' -> position t' < String.length (input t').
Proof.
  unfold handleMultiCharOperator. intros L H.
  destruct (flushBuffer t) as [t1| |] eqn:E; cbn [bind] in H; try discriminate.
  cursor E.
  destruct (Str.one_of _ threeCharOps) eqn:T3.
  { injection H as <-.
    apply operator_length in T3; [|repeat constructor|lia].
    match goal with
    | |- context [addToken ?tok t1] => destruct (addToken_same_cursor tok t1)
    end.
    simpl. rewrite sc_input1, sc_position1. lia. }
  destruct (Str.one_of _ twoCharOps) eqn:T2; [|injection H as <-; congruence].
  injection H as <-.
  apply operator_length in T2; [|repeat constructor|lia].
  match goal with
  | |- context [addToken ?tok t1] => destruct (addToken_same_cursor tok t1)
  end.
  simpl. rewrite sc_input1, sc_position1. lia.
Qed.


Lemma startBlock_inside (char : ascii) (t t' : Tokenizer) :
  position t < String.length (input t) ->
  startBlock char t = Return t' -> position t' < String.length (input t').
Proof.
  unfold startBlock. intros L H.
  bind_case H t1 E. cursor E. injection H as <-.
  unfold openBlock, addToken; simpl. destruct (currentBlock t1); simpl; congruence.
Qed.

Lemma finishBlock_inside (char : ascii) (t t' : Tokenizer) :
  position t < String.length (input t) ->
  finishBlock char t = Return t' -> position t' < String.length (input t').
Proof.
  unfold finishBlock. intros L H.
  bind_case H t1 E. cursor E.
  destruct (top _); [|discriminate].
  destruct (Heap.get _ _); [|discriminate].
  destruct (negb _); [discriminate|].
  injection H as <-. simpl. congruence.
Qed.

Lemma dispatch_inside (char : ascii) (t t' : Tokenizer) :
  position t < String.length (input t) ->
  dispatch char t = Return t' -> position t' < String.length (input t').
Proof.
  unfold dispatch. intros L H.
  destruct (inString t).
  { injection H as <-. apply handleStringContent_inside, L. }
  destruct (checkComment t); [eauto using handleComment_inside|].
  destruct (_ && checkRegex t); [eauto using handleRegex_inside|].
  destruct (Char.is_quote char).
  { unfold startString in H. bind_case H t1 E. cursor E. injection H as <-.
    simpl. congruence. }
  destruct (Char.is_space char).
  { bind_case H t1 E. cursor E. injection H as <-.
    apply updatePosition_inside.
    destruct (preserveWhitespace (options t1)); [|congruence].
    match goal with
    | |- context [addToken ?tok t1] => destruct (addToken_same_cursor tok t1)
    end.
    congruence. }
  destruct (_ || _); [injection H as <-; exact L|].
  destruct (Char.is_ident char); [injection H as <-; exact L|].
  destruct (checkMultiCharOperator t); [eauto using handleMultiCharOperator_inside|].
  destruct (Str.includes _ char).
  { bind_case H t1 E. cursor E. injection H as <-.
    destruct (addToken_same_cursor (Atom "symbol" (chr char) None) t1).
    congruence. }
  destruct (Str.includes _ char); [eauto using startBlock_inside|].
  destruct (Str.includes _ char); [eauto using finishBlock_inside|discriminate].
Qed.

(** A turn never carries the offset past the end of the text. *)
Lemma iteration_inside (t t' : Tokenizer) :
  iteration t = Return t' -> position t' <= String.length (input t').
Proof.
  unfold iteration, char_at. intros H.
  destruct (String.get _ _) as [char|] eqn:G; [|discriminate].
  apply get_lt in G.
  bind_case H t1 E. apply dispatch_inside in E; [|exact G].
  injection H as <-. destruct (_ && _); simpl; lia.
Qed.

Lemma turns_inside (n : nat) (t t' : Tokenizer) :
  position t <= String.length (input t) ->
  turns n t = Return t' -> position t' <= String.length (input t').
Proof.
  revert t. induction n as [|n IH]; intros t L H; simpl in H.
  - injection H as <-. exact L.
  - bind_case H t1 E. apply iteration_inside in E. eauto.
Qed.

(** ** Where an error is raised *)

Lemma error_same_cursor (k : ErrorKind) (t t' : Tokenizer) :
  same_cursor t t' -> error k t' = error k t.
Proof.
  intros []. unfold error.
  rewrite sc_input0, sc_options0, sc_position0, sc_line0, sc_column0.
  reflexivity.
Qed.

Lemma flushBuffer_throw (t : Tokenizer) (e : Error) :
  flushBuffer t = Throw e ->
  e = error (InvalidNumberFormat (tokenBuffer t)) t
  /\ malformed_number (tokenBuffer t) = true.
Proof.
  unfold flushBuffer, malformed_number.
  destruct (0 <? _); [|discriminate].
  destruct (Str.all _ _); [|discriminate].
  destruct (1 <? _); [|discriminate].
  intros [= <-]. auto.
Qed.

Ltac flush_throw E H :=
  injection H as <-; apply flushBuffer_throw in E; destruct E as [-> ?];
  eexists; split; [reflexivity|]; simpl; auto.

Lemma checkComment_slash (t : Tokenizer) (c : ascii) :
  char_at t (position t) = Some c -> checkComment t = true -> c = Char.slash.
Proof.
  intros G H. destruct (Ascii.eqb c Char.slash) eqn:N.
  - apply Ascii.eqb_eq, N.
  - rewrite (checkComment_first _ _ G N) in H. discriminate.
Qed.

Lemma checkRegex_slash (t : Tokenizer) (c : ascii) :
  char_at t (position t) = Some c -> checkRegex t = true -> c = Char.slash.
Proof.
  intros G H. destruct (Ascii.eqb c Char.slash) eqn:N.
  - apply Ascii.eqb_eq, N.
  - rewrite (checkRegex_first _ _ G N) in H. discriminate.
Qed.

(** Every [throw] in the loop body happens before the cursor has moved. *)
Lemma dispatch_throw (char : ascii) (t : Tokenizer) (e : Error) :
  char_at t (position t) = Some char ->
  dispatch char t = Throw e -> exists k, e = error k t /\ raised k t.
Proof.
  unfold dispatch. intros G H.
  destruct (inString t); [discriminate|].
  destruct (checkComment t) eqn:C.
  { apply (checkComment_slash _ _ G) in C. subst char.
    unfold handleComment in H.
    destruct (flushBuffer t) as [t1| |] eqn:E; cbn [bind] in H;
      [|flush_throw E H|discriminate].
    destruct (Str.startsWith _ "//"); [discriminate|].
    destruct (Str.startsWith _ "/*"); [|discriminate].
    destruct (Str.indexOf _ _ _); [discriminate|].
    injection H as <-. exists UnclosedComment.
    split; [apply error_same_cursor, flushBuffer_same_cursor, E|exact G]. }
  destruct (_ && checkRegex t) eqn:X.
  { apply andb_true_iff in X. destruct X as [_ X].
    apply (checkRegex_slash _ _ G) in X. subst char.
    unfold handleRegex in H.
    destruct (flushBuffer t) as [t1| |] eqn:E; cbn [bind] in H;
      [|flush_throw E H|discriminate].
    destruct (scan_regex _ _ _ _ _) as [[p r]|]; [discriminate|].
    injection H as <-. exists UnterminatedRegex.
    split; [apply error_same_cursor, flushBuffer_same_cursor, E|exact G]. }
  destruct (Char.is_quote char).
  { unfold startString in H.
    destruct (flushBuffer t) as [t1| |] eqn:E; cbn [bind] in H;
      [discriminate|flush_throw E H|discriminate]. }
  destruct (Char.is_space char).
  { destruct (flushBuffer t) as [t1| |] eqn:E; cbn [bind] in H;
      [discriminate|flush_throw E H|discriminate]. }
  destruct (_ || _); [discriminate|].
  destruct (Char.is_ident char); [discriminate|].
  destruct (checkMultiCharOperator t).
  { unfold handleMultiCharOperator in H.
    destruct (flushBuffer t) as [t1| |] eqn:E; cbn [bind] in H;
      [|flush_throw E H|discriminate].
    destruct (Str.one_of _ threeCharOps); [discriminate|].
    destruct (Str.one_of _ twoCharOps); discriminate. }
  destruct (Str.includes "+-*/:;,=<>!&|%^~?" char).
  { destruct (flushBuffer t) as [t1| |] eqn:E; cbn [bind] in H;
      [discriminate|flush_throw E H|discriminate]. }
  destruct (Str.includes "[{(" char).
  { unfold startBlock in H.
    destruct (flushBuffer t) as [t1| |] eqn:E; cbn [bind] in H;
      [discriminate|flush_throw E H|discriminate]. }
  destruct (Str.includes "]})" char).
  { unfold finishBlock in H.
    destruct (flushBuffer t) as [t1| |] eqn:E; cbn [bind] in H;
      [|flush_throw E H|discriminate].
    pose proof (flushBuffer_same_cursor _ _ E) as S.
    destruct (top _).
    - destruct (Heap.get _ _) as [current|]; [|discriminate].
      destruct (Ascii.eqb (closer current) char) eqn:Q; [discriminate|].
      injection H as <-. exists (MismatchedBrackets (closer current) char).
      split; [apply error_same_cursor, S|].
      split; [exact G|]. apply Ascii.eqb_neq, Q.
    - injection H as <-. exists (UnbalancedClosing char).
      split; [apply error_same_cursor, S|exact G]. }
  injection H as <-. exists (UnexpectedCharacter char). split; [reflexivity|exact G].
Qed.

Lemma iteration_throw (t : Tokenizer) (e : Error) :
  iteration t = Throw e -> exists k, e = error k t /\ raised k t.
Proof.
  unfold iteration. intros H.
  destruct (char_at t (position t)) as [char|] eqn:G; [|discriminate].
  destruct (dispatch char t) as [t1| |] eqn:E; cbn [bind] in H; try discriminate.
  injection H as <-. apply (dispatch_throw _ _ _ G E).
Qed.

Lemma top_none (stack : list loc) : top stack = None -> stack = [].
Proof.
  unfold top. intros H. apply nth_error_None in H.
  destruct stack; [reflexivity|simpl in H; lia].
Qed.

Lemma finish_throw (t : Tokenizer) (e : Error) :
  position t = String.length (input t) ->
  finish t = Throw e -> exists k, e = error k t /\ raised k t.
Proof.
  unfold finish. intros L H.
  destruct (flushBuffer t) as [t1| |] eqn:E; cbn [bind] in H;
    [|flush_throw E H|discriminate].
  pose proof (flushBuffer_same_cursor _ _ E) as S.
  destruct (top (tokenStack t1)) as [l|] eqn:T.
  - destruct (Heap.get _ _) as [unclosed|]; [|discriminate].
    injection H as <-. exists (UnclosedBlock (opener unclosed)).
    split; [apply error_same_cursor, S|]. split; [exact L|].
    destruct S. rewrite <- sc_stack0. intros N. rewrite N in T. discriminate.
  - destruct (inString t1) eqn:I; [|discriminate].
    injection H as <-. exists (UnclosedString (stringDelimiter t1)).
    split; [apply error_same_cursor, S|]. destruct S.
    split; [exact L|]. split; [rewrite <- sc_stack0; apply top_none, T|].
    split; congruence.
Qed.

(** A failing scan failed in some turn, at the instance that turn started
    from. *)
Lemma scan_throw (fuel : nat) (t : Tokenizer) (e : Error) :
  scan fuel t = Throw e ->
  exists n t1, turns n t = Return t1 /\ iteration t1 = Throw e.
Proof.
  revert t. induction fuel as [|fuel IH]; intros t; simpl;
    destruct (position t <? String.length (input t)); try discriminate.
  destruct (iteration t) as [t1| |] eqn:E; cbn [bind]; try discriminate.
  - intros H. apply IH in H. destruct H as (n & t2 & H1 & H2).
    exists (S n), t2. simpl. rewrite E. simpl. auto.
  - intros [= <-]. exists 0, t. simpl. auto.
Qed.

Lemma scan_turns (fuel : nat) (t t' : Tokenizer) :
  scan fuel t = Return t' -> exists n, turns n t = Return t'.
Proof.
  revert t. induction fuel as [|fuel IH]; intros t; simpl;
    destruct (position t <? String.length (input t)); try discriminate;
    try (intros [= <-]; exists 0; reflexivity).
  destruct (iteration t) as [t1| |] eqn:E; cbn [bind]; try discriminate.
  intros H. apply IH in H. destruct H as (n & H).
  exists (S n). simpl. rewrite E. exact H.
Qed.

(** X7. Every error [tokenize()] throws is built by [#error] on the instance
    as it stood when the failing turn of the loop began, or at the end of the
    text: offset, line and column in the error are those of that moment, the
    offset lies inside the text and the line is at least 1. What the [throw]
    site had checked holds there: the offending character is the one at the
    offset, an unclosed comment or unterminated regex is reported at its
    opening slash, unclosed blocks and strings are reported only at the end
    of the text (a block before a string), and a rejected number is the
    buffered digits-and-dots text with more than one dot. *)
Theorem error_raised_where_scan_stood (text : string) (opts : Options) (e : Error) :
  run text opts = Throw e ->
  exists n t k,
    turns n (new_Tokenizer text opts) = Return t
    /\ e = error k t /\ raised k t
    /\ offset e = position t /\ at_line e = line t /\ at_column e = column t
    /\ offset e <= String.length text /\ 1 <= at_line e.
Proof.
  unfold run, tokenize. intros H.
  assert (Done : forall n t k,
             turns n (new_Tokenizer text opts) = Return t ->
             e = error k t -> raised k t ->
             exists n t k,
               turns n (new_Tokenizer text opts) = Return t
               /\ e = error k t /\ raised k t
               /\ offset e = position t /\ at_line e = line t
               /\ at_column e = column t
               /\ offset e <= String.length text /\ 1 <= at_line e).
  { intros n t k T -> R. exists n, t, k.
    pose proof (turns_inside n (new_Tokenizer text opts) _ (Nat.le_0_l _) T) as L.
    destruct (turns_input _ _ _ T) as [I _].
    destruct (turns_grown _ _ _ T) as [_ _ G _ _].
    simpl in *. rewrite I in L. repeat split; auto. }
  destruct (scan _ _) as [t1| |] eqn:E; cbn [bind] in H; try discriminate.
  - destruct (scan_turns _ _ _ E) as (n & T).
    pose proof (turns_inside n (new_Tokenizer text opts) _ (Nat.le_0_l _) T) as L.
    pose proof (scan_end _ _ _ E) as L'.
    apply finish_throw in H; [|lia]. destruct H as (k & -> & R). eauto.
  - injection H as <-. apply scan_throw in E. destruct E as (n & t1 & T & X).
    apply iteration_throw in X. destruct X as (k & -> & R). eauto.
Qed.

Lemma error_raised_where_scan_stood_witness :
  exists n t k,
    turns n (new_Tokenizer "a = [1 @" default_options) = Return t
    /\ error (UnexpectedCharacter "@") (set_position 7 (set_column 8
         (new_Tokenizer "a = [1 @" default_options))) = error k t
    /\ raised k t.
Proof.
  eassert (H : run "a = [1 @" default_options = Throw _)
    by (vm_compute; reflexivity).
  destruct (@error_raised_where_scan_stood _ _ _ H) as (n & t & k & T & E & R & _).
  exists n, t, k. split; [exact T|]. split; [|exact R].
  rewrite <- E. vm_compute. reflexivity.
Defined.


(** ** The options are honoured *)

Lemma allowed_fields (t u : Tokenizer) :
  tokens u = tokens t -> heap u = heap t -> options u = options t ->
  allowed t -> allowed u.
Proof. unfold allowed, all_tokens. intros -> -> ->. tauto. Qed.

Lemma addToken_allowed (tok : Token) (t : Tokenizer) :
  permitted (options t) tok = true -> allowed t -> allowed (addToken tok t).
Proof.
  unfold allowed, all_tokens, addToken. intros Ok [Ht Hc].
  destruct (currentBlock t); simpl; split; auto.
  - apply update_Forall; [|exact Hc]. intros b Q; simpl. apply Forall_app; auto.
  - apply Forall_app; auto.
Qed.

Lemma openBlock_allowed (char : ascii) (t : Tokenizer) :
  allowed t -> allowed (openBlock char t).
Proof.
  intros [Ht Hc].
  set (new := {| opener := char; closer := closers char; children := [] |}).
  assert (G : allowed (addToken (BlockRef (length (heap t)))
                         (set_heap (heap t ++ [new]) t))).
  { apply addToken_allowed; [reflexivity|].
    split; simpl; auto.
    apply Forall_app; split; [exact Hc|]. repeat constructor. }
  revert G. apply allowed_fields; reflexivity.
Qed.

Lemma finishToken_allowed (type : string) (t : Tokenizer) :
  permitted (options t) (Atom type (tokenBuffer t) None) = true ->
  allowed t -> allowed (finishToken type t).
Proof.
  unfold finishToken. intros Ok S.
  destruct (0 <? _); [|exact S].
  apply (allowed_fields (addToken (Atom type (tokenBuffer t) None) t));
    try reflexivity.
  apply addToken_allowed; assumption.
Qed.

Lemma flushBuffer_allowed (t t' : Tokenizer) :
  allowed t -> flushBuffer t = Return t' -> allowed t'.
Proof.
  unfold flushBuffer. intros S H.
  destruct (0 <? _); [|injection H as <-; exact S].
  destruct (Str.all Char.is_numeric (tokenBuffer t)).
  - destruct (1 <? _); [discriminate|]. injection H as <-.
    apply finishToken_allowed; [reflexivity|exact S].
  - injection H as <-. apply finishToken_allowed; [reflexivity|exact S].
Qed.

Lemma handleStringContent_allowed (char : ascii) (t : Tokenizer) :
  allowed t -> allowed (handleStringContent char t).
Proof.
  unfold handleStringContent. intros S.
  destruct (_ && _).
  - destruct (char_at _ _); revert S; apply allowed_fields; reflexivity.
  - destruct (is_char _ _).
    + apply (allowed_fields (finishToken "string" t)); try reflexivity.
      apply finishToken_allowed; [reflexivity|exact S].
    + revert S. apply allowed_fields; reflexivity.
Qed.

Lemma comment_allowed (v : string) (t : Tokenizer) :
  allowed t ->
  allowed (if preserveComments (options t)
           then addToken (Atom "comment" v None) t else t).
Proof.
  intros S. destruct (preserveComments (options t)) eqn:C; [|exact S].
  apply addToken_allowed; [|exact S]. unfold permitted. simpl. exact C.
Qed.

Lemma handleComment_allowed (t t' : Tokenizer) :
  allowed t -> handleComment t = Return t' -> allowed t'.
Proof.
  unfold handleComment. intros S H.
  bind_case H t1 E. pose proof (flushBuffer_allowed _ _ S E) as S1. clear S E.
  destruct (Str.startsWith _ "//").
  { injection H as <-.
    match goal with
    | |- allowed (set_position _ ?u) =>
        apply (allowed_fields u); try reflexivity
    end.
    apply comment_allowed, S1. }
  destruct (Str.startsWith _ "/*"); [|injection H as <-; exact S1].
  destruct (Str.indexOf _ _ _) as [endIndex|]; [|discriminate].
  injection H as <-.
  match goal with
  | |- allowed (set_position _ (if _ then set_column _ (set_line _ ?u)
                                else set_line _ ?u)) =>
      apply (allowed_fields u); [destruct (1 <? _); reflexivity
                                |destruct (1 <? _); reflexivity
                                |destruct (1 <? _); reflexivity|]
  end.
  apply comment_allowed, S1.
Qed.

Lemma handleRegex_allowed (t t' : Tokenizer) :
  allowRegex (options t) = true ->
  allowed t -> handleRegex t = Return t' -> allowed t'.
Proof.
  unfold handleRegex. intros A S H.
  bind_case H t1 E. pose proof (flushBuffer_allowed _ _ S E) as S1.
  cursor E. clear S E.
  destruct (scan_regex _ _ _ _ _) as [[p r]|]; [|discriminate].
  injection H as <-.
  apply (allowed_fields (addToken (Atom "regex" r None) t1)); try reflexivity.
  apply addToken_allowed; [|exact S1].
  unfold permitted. simpl. congruence.
Qed.

Lemma updatePosition_allowed (char : ascii) (t : Tokenizer) :
  allowed t -> allowed (updatePosition char t).
Proof.
  unfold updatePosition.
  destruct (Ascii.eqb char Char.newline); [apply allowed_fields; reflexivity|].
  destruct (Ascii.eqb char Char.cr); [|auto].
  destruct (is_char _ _); apply allowed_fields; reflexivity.
Qed.

Lemma handleMultiCharOperator_allowed (t t' : Tokenizer) :
  allowed t -> handleMultiCharOperator t = Return t' -> allowed t'.
Proof.
  unfold handleMultiCharOperator. intros S H.
  destruct (flushBuffer t) as [t1| |] eqn:E; cbn [bind] in H; try discriminate.
  pose proof (flushBuffer_allowed _ _ S E) as S1. clear S E.
  destruct (Str.one_of _ threeCharOps).
  { injection H as <-.
    match goal with
    | |- allowed (set_position _ ?u) => apply (allowed_fields u); try reflexivity
    end.
    apply addToken_allowed; [reflexivity|exact S1]. }
  destruct (Str.one_of _ twoCharOps); [|injection H as <-; exact S1].
  injection H as <-.
  match goal with
  | |- allowed (set_position _ ?u) => apply (allowed_fields u); try reflexivity
  end.
  apply addToken_allowed; [reflexivity|exact S1].
Qed.

Lemma dispatch_allowed (char : ascii) (t t' : Tokenizer) :
  allowed t -> dispatch char t = Return t' -> allowed t'.
Proof.
  unfold dispatch. intros S H.
  destruct (inString t);
    [injection H as <-; apply handleStringContent_allowed, S|].
  destruct (checkComment t); [exact (handleComment_allowed _ _ S H)|].
  destruct (_ && checkRegex t) eqn:X.
  { apply andb_true_iff in X. destruct X as [A _].
    exact (handleRegex_allowed _ _ A S H). }
  destruct (Char.is_quote char).
  { unfold startString in H. bind_case H t1 E.
    pose proof (flushBuffer_allowed _ _ S E) as S1. injection H as <-.
    revert S1. apply allowed_fields; reflexivity. }
  destruct (Char.is_space char).
  { bind_case H t1 E. pose proof (flushBuffer_allowed _ _ S E) as S1.
    injection H as <-. apply updatePosition_allowed.
    destruct (preserveWhitespace _) eqn:W; [|exact S1].
    apply addToken_allowed; [|exact S1]. unfold permitted. simpl. exact W. }
  destruct (_ || _);
    [injection H as <-; revert S; apply allowed_fields; reflexivity|].
  destruct (Char.is_ident char);
    [injection H as <-; revert S; apply allowed_fields; reflexivity|].
  destruct (checkMultiCharOperator t);
    [exact (handleMultiCharOperator_allowed _ _ S H)|].
  destruct (Str.includes "+-*/:;,=<>!&|%^~?" char).
  { bind_case H t1 E. pose proof (flushBuffer_allowed _ _ S E) as S1.
    injection H as <-. apply addToken_allowed; [reflexivity|exact S1]. }
  destruct (Str.includes "[{(" char).
  { unfold startBlock in H. bind_case H t1 E.
    pose proof (flushBuffer_allowed _ _ S E) as S1. injection H as <-.
    apply openBlock_allowed; assumption. }
  destruct (Str.includes "]})" char); [|discriminate].
  unfold finishBlock in H. bind_case H t1 E.
  pose proof (flushBuffer_allowed _ _ S E) as S1.
  destruct (top _); [|discriminate].
  destruct (Heap.get _ _); [|discriminate].
  destruct (negb _); [discriminate|].
  injection H as <-. revert S1. apply allowed_fields; reflexivity.
Qed.

Lemma iteration_allowed (t t' : Tokenizer) :
  allowed t -> iteration t = Return t' -> allowed t'.
Proof.
  unfold iteration. intros S H.
  destruct (char_at _ _) as [char|]; [|discriminate].
  bind_case H t1 E. pose proof (dispatch_allowed _ _ _ S E) as S1.
  injection H as <-. revert S1.
  destruct (_ && _); apply allowed_fields; reflexivity.
Qed.

Lemma scan_allowed (fuel : nat) (t t' : Tokenizer) :
  allowed t -> scan fuel t = Return t' -> allowed t'.
Proof.
  revert t. induction fuel as [|fuel IH]; intros t S; simpl;
    destruct (position t <? String.length (input t));
    try discriminate; try (intros [= <-]; exact S).
  intros H. bind_case H t1 E. exact (IH _ (iteration_allowed _ _ S E) H).
Qed.

Lemma tokenize_allowed (t t' : Tokenizer) (res : Scanned) :
  allowed t -> tokenize t = Return (res, t') -> allowed t'.
Proof.
  unfold tokenize. intros S H.
  bind_case H t1 E. apply (scan_allowed _ _ _ S) in E.
  apply finish_return in H. destruct H as (F & _).
  exact (flushBuffer_allowed _ _ E F).
Qed.

(** X8. The three switches are honoured: with [preserveWhitespace] off no
    token of type [whitespace] is in the result of [tokenize()], with
    [preserveComments] off none of type [comment], and with [allowRegex] off
    none of type [regex]; at any depth of nesting. *)
Theorem switched_off_tokens_are_absent (text : string) (opts : Options)
    (res : Scanned) (t' : Tokenizer) (tok : Token) :
  run text opts = Return (res, t') ->
  reachable tok t' ->
  (preserveWhitespace opts = false -> type_of tok <> "whitespace")
  /\ (preserveComments opts = false -> type_of tok <> "comment")
  /\ (allowRegex opts = false -> type_of tok <> "regex").
Proof.
  intros H Re.
  assert (N : allowed (new_Tokenizer text opts)) by (split; constructor).
  pose proof (tokenize_allowed _ _ _ N H) as [St Sc].
  destruct (tokenize_grown _ _ _ H) as [_ O _ _ _]. simpl in O.
  rewrite O in St, Sc.
  assert (Ok : permitted opts tok = true).
  { destruct Re as [I|(l & b & G & I)].
    - rewrite Forall_forall in St. exact (St _ I).
    - apply nth_error_In in G. rewrite Forall_forall in Sc.
      specialize (Sc _ G). rewrite Forall_forall in Sc. exact (Sc _ I). }
  unfold permitted in Ok.
  repeat split; intros Off Ty; rewrite Ty, Off in Ok; discriminate.
Qed.

Lemma switched_off_tokens_are_absent_witness :
  exists t',
    run "a /* b */ c // d" (with_preserveComments false default_options)
    = Return (TokenArray [Atom "identifier" "a" None;
                          Atom "identifier" "c" None], t')
    /\ type_of (Atom "identifier" "c" None) <> "comment".
Proof.
  eassert (H : run "a /* b */ c // d" (with_preserveComments false default_options)
               = Return (_, _)) by (vm_compute; reflexivity).
  eexists. split; [exact H|].
  refine (proj1 (proj2 (@switched_off_tokens_are_absent _ _ _ _
                          (Atom "identifier" "c" None) H _)) _).
  - left. simpl. tauto.
  - reflexivity.
Defined.


(** ** The instance after a successful call *)

Lemma flushBuffer_empties (t t' : Tokenizer) :
  flushBuffer t = Return t' -> tokenBuffer t' = "".
Proof.
  unfold flushBuffer, finishToken.
  destruct (0 <? String.length (tokenBuffer t)) eqn:B.
  - destruct (Str.all _ _); [destruct (1 <? _); [discriminate|]|];
      intros [= <-]; reflexivity.
  - intros [= <-]. destruct (tokenBuffer t); [reflexivity|discriminate].
Qed.

(** X9. When [tokenize()] returns, the whole text has been read and nothing
    is pending: the offset is the length of the text, the buffer is empty,
    no block is open (the stack is empty and [#currentBlock] is null), no
    string literal is open, and the value returned is the top-level array. *)
Theorem successful_scan_is_complete (text : string) (opts : Options)
    (res : Scanned) (t' : Tokenizer) :
  run text opts = Return (res, t') ->
  input t' = text /\ options t' = opts
  /\ position t' = String.length text
  /\ tokenBuffer t' = ""
  /\ tokenStack t' = [] /\ currentBlock t' = None
  /\ inString t' = false
  /\ res = TokenArray (tokens t').
Proof.
  intros H.
  pose proof (tokenize_returns_array _ _ _ _ H) as A.
  destruct (tokenize_grown _ _ _ H) as [I O _ _ _]. simpl in I, O.
  unfold run, tokenize in H. bind_case H t1 E.
  destruct (scan_turns _ _ _ E) as (n & T).
  pose proof (turns_inside n (new_Tokenizer text opts) _ (Nat.le_0_l _) T) as L.
  pose proof (scan_end _ _ _ E) as L'.
  apply finish_return in H. destruct H as (F & S & Q & R).
  pose proof (flushBuffer_empties _ _ F) as B.
  apply top_none in S.
  destruct (flushBuffer_same_cursor _ _ F).
  repeat split; auto.
  - rewrite <- I, sc_input0, sc_position0. lia.
  - unfold scanned in R. destruct (currentBlock t'); [|reflexivity].
    rewrite A in R. discriminate.
Qed.

Lemma successful_scan_is_complete_witness :
  exists res t',
    run "f(a, [1])" default_options = Return (res, t')
    /\ position t' = 9 /\ tokenStack t' = [] /\ res = TokenArray (tokens t').
Proof.
  eassert (H : run "f(a, [1])" default_options = Return (_, _))
    by (vm_compute; reflexivity).
  do 2 eexists. split; [exact H|].
  destruct (@successful_scan_is_complete _ _ _ _ H)
    as (_ & _ & P & _ & S & _ & _ & R).
  split; [exact P|]. split; [exact S|exact R].
Defined.

(** ** The message of [#error] *)

Lemma count_no_newline_append (a b : string) :
  Str.count Char.newline (a ++ b)
  = Str.count Char.newline a + Str.count Char.newline b.
Proof.
  induction a as [|x a IH]; [reflexivity|].
  cbn [append Str.count]. rewrite IH. lia.
Qed.

Lemma count_repeat_space (n : nat) : Str.count Char.newline (Str.repeat " " n) = 0.
Proof. induction n as [|n IH]; [reflexivity|exact IH]. Qed.

(** X10. The message of [#error] ends in two parts, each after a line feed:
    [Context: ] followed by the context, and nine spaces followed by the
    pointer. The context is the slice of at most 40 characters of the text
    around the offset, taken as it is. The pointer part is nothing but
    spaces and then one caret, and the caret has the index in the pointer
    part that the character of the text at the offset has in the context
    part (no character when the offset is the end of the text). The pointer
    part holds no line feed; the context part holds every line feed of the
    slice, so it is a single line, with the caret at the column of the
    character in the line before, exactly when the slice holds no line
    feed. *)
Theorem caret_marks_the_offset (k : ErrorKind) (t : Tokenizer) :
  (exists headline,
      message (error k t)
      = (headline ++ String Char.newline "" ++ context_line t
         ++ String Char.newline "" ++ pointer_line t)%string)
  /\ pointer_line t
     = (Str.repeat " " (9 + Nat.min (position t) 20) ++ "^")%string
  /\ String.get (9 + Nat.min (position t) 20) (context_line t)
     = String.get (position t) (input t)
  /\ context_of t
     = Str.slice (input t) (position t - 20)
         (Nat.min (String.length (input t)) (position t + 20))
  /\ String.length (context_of t) <= 40
  /\ Str.count Char.newline (pointer_line t) = 0
  /\ Str.count Char.newline (context_line t)
     = Str.count Char.newline (context_of t).
Proof.
  split; [eexists; reflexivity|].
  assert (P : pointer_line t
              = (Str.repeat " " (9 + Nat.min (position t) 20) ++ "^")%string).
  { unfold pointer_line, pointer_of, context_start.
    replace (position t - (position t - 20)) with (Nat.min (position t) 20) by lia.
    reflexivity. }
  split; [exact P|]. split; [|split; [reflexivity|]].
  - change (String.get (9 + Nat.min (position t) 20) (context_line t))
      with (String.get (Nat.min (position t) 20) (context_of t)).
    unfold context_of, context_start.
    replace (Nat.min (position t) 20) with (position t - (position t - 20)) by lia.
    destruct (String.get (position t) (input t)) as [c|] eqn:G.
    + apply get_lt in G as L.
      unfold Str.slice.
      rewrite substring_correct1 by lia.
      replace (position t - (position t - 20) + (position t - 20)) with (position t)
        by lia.
      exact G.
    + apply get_ge in G. unfold Str.slice.
      apply substring_correct2. lia.
  - split; [unfold context_of, context_start, Str.slice;
            rewrite substring_length; lia|].
    split; [|reflexivity].
    rewrite P, count_no_newline_append, count_repeat_space. reflexivity.
Qed.


(** ** Line breaks *)

Lemma updatePosition_line_break (c : ascii) (t : Tokenizer) :
  c = Char.newline \/ c = Char.cr ->
  line (updatePosition c t) = line t + 1
  /\ column (updatePosition c t) = 1
  /\ position (updatePosition c t)
     = position t + (if Ascii.eqb c Char.cr && is_char (peek t) Char.newline
                     then 1 else 0).
Proof.
  unfold updatePosition. intros [ -> | -> ]; cbn [Ascii.eqb Bool.eqb Char.newline Char.cr andb].
  - simpl. auto.
  - destruct (is_char (peek t) Char.newline); simpl; auto.
Qed.

(** X11. A line feed or carriage return outside a string literal ends the
    line: the turn of the loop that reads it adds one to the line counter
    and sets the column to 1, and a carriage return directly followed by a
    line feed is consumed with it as one line break. Inside a string literal
    the same characters leave line and column as they were. *)
Theorem line_break_turn (t t' : Tokenizer) (c : ascii) :
  c = Char.newline \/ c = Char.cr ->
  char_at t (position t) = Some c ->
  iteration t = Return t' ->
  if inString t
  then line t' = line t /\ column t' = column t /\ position t' = position t + 1
  else line t' = line t + 1 /\ column t' = 1
       /\ position t' = position t
                        + (if Ascii.eqb c Char.cr && is_char (peek t) Char.newline
                           then 2 else 1).
Proof.
  intros C G H. unfold iteration in H. rewrite G in H.
  assert (K : negb (Ascii.eqb c Char.newline) && negb (Ascii.eqb c Char.cr) = false)
    by (destruct C as [ -> | -> ]; reflexivity).
  rewrite K in H. clear K.
  unfold dispatch in H. destruct (inString t) eqn:S.
  - cbn [bind] in H. injection H as <-.
    unfold handleStringContent.
    replace (Ascii.eqb c Char.backslash) with false
      by (destruct C as [ -> | -> ]; reflexivity).
    cbn [andb].
    destruct (is_char _ _); simpl; auto.
    destruct (finishToken_same_cursor "string" t). auto.
  - rewrite (checkComment_first t c G), (checkRegex_first t c G), andb_false_r in H
      by (destruct C as [ -> | -> ]; reflexivity).
    replace (Char.is_quote c) with false in H
      by (destruct C as [ -> | -> ]; reflexivity).
    replace (Char.is_space c) with true in H
      by (destruct C as [ -> | -> ]; reflexivity).
    destruct (flushBuffer t) as [t1| |] eqn:E; cbn [bind] in H; try discriminate.
    cursor E. injection H as <-.
    match goal with
    | |- context [updatePosition c ?u] =>
        assert (Q : same_cursor t1 u)
          by (destruct (preserveWhitespace (options t1));
              auto using addToken_same_cursor, same_cursor_refl);
        destruct Q;
        destruct (updatePosition_line_break c u C) as (Hl & Hc & Hp);
        assert (P : peek u = peek t)
          by (unfold peek, char_at; congruence)
    end.
    cbn [line column position set_position].
    rewrite Hl, Hc, Hp, P.
    repeat split; try congruence.
    rewrite sc_position1, sc_position0.
    destruct (Ascii.eqb c Char.cr && is_char (peek t) Char.newline); lia.
Qed.

Lemma line_break_turn_witness :
  exists t t',
    turns 1 (new_Tokenizer (String "a" (String Char.cr (String Char.newline "b")))
               default_options) = Return t
    /\ iteration t = Return t'
    /\ line t' = 2 /\ column t' = 1 /\ position t' = 3.
Proof.
  eassert (T : turns 1 (new_Tokenizer
                          (String "a" (String Char.cr (String Char.newline "b")))
                          default_options) = Return _)
    by (vm_compute; reflexivity).
  match type of T with
  | _ = Return ?t =>
      exists t;
      eassert (H : iteration t = Return _) by (vm_compute; reflexivity);
      pose proof (@line_break_turn t _ Char.cr (or_intror eq_refl) eq_refl H) as R
  end.
  eexists. split; [exact T|]. split; [exact H|]. exact R.
Defined.


(** ** Tokens that are slices of the text *)

(** X12. The value of a regex token is the text from its opening slash up
    to the new offset, which stays inside the text: [#handleRegex] copies,
    it never alters a character, and it leaves the offset on the last
    character it copied. *)
Theorem regex_token_is_source_text (t t' : Tokenizer) :
  char_at t (position t) = Some Char.slash ->
  handleRegex t = Return t' ->
  exists t1,
    flushBuffer t = Return t1
    /\ position t < position t' < String.length (input t)
    /\ t' = set_position (position t')
              (addToken (Atom "regex"
                           (Str.slice (input t) (position t) (position t' + 1))
                           None) t1).
Proof.
  unfold handleRegex. intros G H.
  bind_case H t1 E. cursor E. exists t1. split; [reflexivity|].
  destruct (scan_regex _ _ _ _ _) as [[p r]|] eqn:R; [|discriminate].
  apply scan_regex_consumes in R. destruct R as (k & -> & Lk & ->).
  rewrite slice_from_length in Lk. injection H as <-.
  cbn [position set_position].
  rewrite sc_position0, sc_input0 in *.
  replace (position t + 1 + S k - 1) with (position t + S k) by lia.
  split; [lia|].
  do 3 f_equal. unfold Str.slice.
  replace (position t + S k + 1 - position t) with (S (S k)) by lia.
  unfold char_at in G. rewrite (substring_get _ _ _ _ G).
  rewrite (substring_of_rest (input t) (S (position t))), Nat.add_1_r.
  reflexivity.
Qed.

Lemma regex_token_is_source_text_witness :
  exists t t1 t',
    turns 4 (new_Tokenizer "x = /a[/]b/gi.test(y)" default_options) = Return t
    /\ flushBuffer t = Return t1
    /\ position t' = 12
    /\ t' = set_position 12 (addToken (Atom "regex" "/a[/]b/gi" None) t1).
Proof.
  eassert (T : turns 4 (new_Tokenizer "x = /a[/]b/gi.test(y)" default_options)
               = Return _) by (vm_compute; reflexivity).
  match type of T with
  | _ = Return ?t =>
      exists t;
      eassert (H : handleRegex t = Return _) by (vm_compute; reflexivity);
      destruct (@regex_token_is_source_text t _ eq_refl H) as (t1 & F & _ & Q);
      match type of H with _ = Return ?t' => exists t1, t' end
  end.
  split; [exact T|]. split; [exact F|].
  split; [reflexivity|exact Q].
Defined.









(** ** Pretty printing *)

Lemma count_append (c : ascii) (a b : string) :
  Str.count c (a ++ b)%string = Str.count c a + Str.count c b.
Proof.
  induction a as [|x a IH]; [reflexivity|].
  cbn [append Str.count]. rewrite IH. lia.
Qed.

Lemma count_repeat_string (n : nat) :
  Str.count Char.newline (repeat_string "  " n) = 0.
Proof.
  induction n as [|n IH]; [reflexivity|].
  cbn [repeat_string]. rewrite count_append, IH. reflexivity.
Qed.

(** [JSON.stringify] leaves no line feed in a string. *)
Lemma quote_char_one_line (c : ascii) : Str.count Char.newline (quote_char c) = 0.
Proof. destruct c as [[] [] [] [] [] [] [] []]; vm_compute; reflexivity. Qed.

Lemma JSON_stringify_one_line (s : string) :
  Str.count Char.newline (JSON_stringify s) = 0.
Proof.
  unfold JSON_stringify. cbn [Str.count]. rewrite count_append.
  replace (Str.count Char.newline (String Char.dquote "")) with 0 by reflexivity.
  replace (if Ascii.eqb Char.dquote Char.newline then 1 else 0) with 0 by reflexivity.
  induction s as [|c s IH]; [reflexivity|].
  cbn [quote_chars]. rewrite count_append, quote_char_one_line. exact IH.
Qed.

Lemma token_ok_one_line (type value : string) (p : option Position) :
  token_ok (Atom type value p) = true ->
  Str.count Char.newline type = 0 /\ p = None.
Proof.
  unfold token_ok. intros H.
  apply andb_true_iff in H. destruct H as [H T].
  apply andb_true_iff in H. destruct H as [P _].
  split; [|destruct p; [discriminate|reflexivity]].
  repeat match type of T with
         | (if String.eqb type ?s then _ else _) = true =>
             let Q := fresh "Q" in
             destruct (String.eqb type s) eqn:Q;
             [apply String.eqb_eq in Q; subst type; reflexivity|]
         end.
  discriminate.
Qed.

Lemma fold_count (A : Type) (c : ascii) (f : A -> string) (l : list A) :
  forall init,
    Str.count c (fold_left (fun result x => (result ++ f x)%string) l init)
    = Str.count c init + list_sum (map (fun x => Str.count c (f x)) l).
Proof.
  induction l as [|x l IH]; intros init; simpl; [lia|].
  rewrite IH, count_append. lia.
Qed.

Lemma concat_count (A : Type) (c : ascii) (f : A -> string) (l : list A) :
  Str.count c (String.concat "" (map f l))
  = list_sum (map (fun x => Str.count c (f x)) l).
Proof.
  induction l as [|x l IH]; [reflexivity|].
  destruct l as [|y l]; [simpl; lia|].
  change (String.concat "" (map f (x :: y :: l)))
    with (f x ++ "" ++ String.concat "" (map f (y :: l)))%string.
  rewrite !count_append, IH. simpl. lia.
Qed.

Lemma search_sum (p : Token -> bool) (h : Heap) (d : nat) (toks : list Token) :
  length (searchRecursive d p h toks)
  = list_sum (map (fun x => length (searchRecursive d p h [x])) toks).
Proof.
  destruct d as [|d]; [induction toks; simpl; auto|].
  induction toks as [|token toks IH]; [reflexivity|].
  rewrite searchRecursive_cons, !length_app. cbn [map list_sum fold_right].
  fold (list_sum (map (fun x => length (searchRecursive (S d) p h [x])) toks)).
  rewrite <- IH, searchRecursive_cons, !length_app. simpl. lia.
Qed.

Lemma list_sum_ext_in (A : Type) (f g : A -> nat) (l : list A) :
  Forall (fun x => f x = g x) l -> list_sum (map f l) = list_sum (map g l).
Proof. induction 1; simpl; congruence. Qed.

(** [printToken] writes one line for the token and one for each token under
    it. *)
Lemma printToken_lines (h : Heap) :
  Forall (fun b => block_ok b = true) h ->
  Forall (fun b => Forall (printable h) (children b)) h ->
  forall d token level,
    printable h token ->
    Str.count Char.newline (printToken d h token level)
    = length (searchRecursive d (fun _ => true) h [token]).
Proof.
  intros Hb Hc. induction d as [|d IH]; intros token level [Ok Ref]; [reflexivity|].
  rewrite searchRecursive_cons, !length_app.
  destruct token as [type value p|l].
  - apply token_ok_one_line in Ok. destruct Ok as [Ty ->].
    cbn [printToken]. rewrite !count_append, count_repeat_string, Ty,
      JSON_stringify_one_line. reflexivity.
  - simpl in Ref. destruct Ref as [_ Ref].
    destruct (Heap.get h l) as [b|] eqn:G;
      [|apply nth_error_None in G; lia].
    cbn [printToken]. rewrite G, (children_of_get _ _ _ G).
    pose proof (nth_error_In _ _ G) as I.
    rewrite Forall_forall in Hb, Hc. specialize (Hb _ I). specialize (Hc _ I).
    rewrite fold_count, !count_append, count_repeat_string.
    rewrite (list_sum_ext_in _ _
               (fun x => length (searchRecursive d (fun _ => true) h [x])))
      by (eapply Forall_impl; [|exact Hc]; intros child Pc; apply IH, Pc).
    rewrite <- search_sum.
    unfold block_ok in Hb. apply andb_true_iff in Hb. destruct Hb as [O C].
    apply Ascii.eqb_eq in C. rewrite C.
    cbn [Str.includes] in O. rewrite orb_false_r, !orb_true_iff, !Ascii.eqb_eq in O.
    destruct O as [ -> | [ -> | -> ] ]; simpl; lia.
Qed.

(** X14. After a successful [tokenize()], [toString(indent)] prints one line
    for every token of the tree, blocks included: the number of line feeds in
    its output is the [total] of [getStats()], whatever line feeds, quotes
    or control characters the token values hold, since [JSON.stringify]
    escapes them. *)
Theorem toString_prints_one_line_per_token (text : string) (opts : Options)
    (res : Scanned) (t' : Tokenizer) (indent : nat) :
  run text opts = Return (res, t') ->
  exists out stats,
    toString indent t' = Some out
    /\ getStats t' = Some stats
    /\ Str.count Char.newline out = total stats.
Proof.
  intros H.
  pose proof (tokenize_shaped _ _ _ (new_shaped text opts) H) as [[St Sc] Sb].
  pose proof (tokenize_sound _ _ _ (new_sound text opts) H) as [_ [Ft Fc]].
  unfold toString, getStats. rewrite (run_scanned _ _ _ _ H).
  destruct (countRecursive _ _ _ _) as [n m] eqn:K.
  do 2 eexists. split; [reflexivity|]. split; [reflexivity|]. cbn [total].
  destruct (count_search (heap t') "" (S (length (heap t'))) (tokens t') (0, []))
    as [E _].
  rewrite K in E. cbn [fst] in E. rewrite E, Nat.add_0_l.
  assert (Pc : Forall (fun b => Forall (printable (heap t')) (children b)) (heap t')).
  { rewrite Forall_forall. intros b I.
    destruct (In_nth_error _ _ I) as [l G].
    specialize (Fc l b G). rewrite Forall_forall in Sc. specialize (Sc _ I).
    rewrite Forall_forall in *. intros tok J. split; [apply Sc, J|].
    specialize (Fc _ J). destruct tok; simpl in *; lia. }
  assert (Pt : Forall (printable (heap t')) (tokens t')).
  { rewrite Forall_forall in *. intros tok J. split; [apply St, J|apply Ft, J]. }
  rewrite concat_count, search_sum.
  apply list_sum_ext_in.
  eapply Forall_impl; [|exact Pt]. intros tok P.
  apply printToken_lines; assumption.
Qed.

Lemma toString_prints_one_line_per_token_witness :
  exists t' out,
    run (String Char.dquote ("a" ++ String Char.newline
                               ("b" ++ String Char.dquote " [x]")))%string
      default_options
    = Return (TokenArray [Atom "string" ("a" ++ String Char.newline "b")%string None;
                          BlockRef 0], t')
    /\ toString 0 t' = Some out
    /\ Str.count Char.newline out = 3.
Proof.
  eassert (H : run (String Char.dquote ("a" ++ String Char.newline
                                          ("b" ++ String Char.dquote " [x]")))%string
                 default_options = Return (_, _))
    by (vm_compute; reflexivity).
  destruct (@toString_prints_one_line_per_token _ _ _ _ 0 H)
    as (out & stats & P & G & E).
  do 2 eexists. split; [exact H|]. split; [exact P|].
  rewrite E. vm_compute in G. injection G as <-. reflexivity.
Defined.


(** ** [filter] on the result of a scan *)

Lemma shrunk_nested (h h' : Heap) : shrunk h h' -> nested h -> nested h'.
Proof.
  intros [L S] N l b' G'.
  assert (Lt : l < length h)
    by (rewrite <- L; apply nth_error_Some; unfold Heap.get in G'; congruence).
  destruct (Heap.get h l) as [b|] eqn:G;
    [|apply nth_error_None in G; lia].
  destruct (S _ _ G) as (b'' & G'' & _ & _ & Q).
  assert (b'' = b') by congruence. subst b''.
  rewrite L. exact (subseq_Forall _ _ _ _ Q (N _ _ G)).
Qed.

(** X15. What [filter(type)] leaves, when it returns on the result of a
    successful [tokenize()], is still a tree to walk: the top-level array is
    the one [tokenize()] returned, every reference in it, in the array
    [filter] returns and in the children of a block is to a block of the
    store, and a block still refers only to blocks created after it, so no
    block has come to contain itself. *)
Theorem filter_keeps_the_forest (text : string) (opts : Options)
    (res : Scanned) (t' t'' : Tokenizer) (type : string) (kept : list Token) :
  run text opts = Return (res, t') ->
  filter type t' = Some (kept, t'') ->
  tokens t'' = tokens t'
  /\ length (heap t'') = length (heap t')
  /\ (forall l, In (BlockRef l) kept \/ In (BlockRef l) (tokens t'') ->
                l < length (heap t''))
  /\ (forall l b l', Heap.get (heap t'') l = Some b ->
                     In (BlockRef l') (children b) ->
                     l < l' < length (heap t'')).
Proof.
  intros H F.
  pose proof (tokenize_sound _ _ _ (new_sound text opts) H) as [_ [Ft Fc]].
  unfold filter in F. rewrite (run_scanned _ _ _ _ H) in F.
  destruct (filterRecursive _ _ _ _) as [[k h]|] eqn:R; [|discriminate].
  injection F as <- <-.
  destruct (filterRecursive_spec _ _ _ _ _ _ R) as (Q & _ & S & _).
  pose proof (shrunk_nested _ _ S Fc) as N.
  cbn [tokens heap set_heap]. rewrite (proj1 S).
  split; [reflexivity|]. split; [reflexivity|]. split.
  - intros l [I|I].
    + pose proof (subseq_Forall _ _ _ _ Q Ft) as Fk.
      rewrite Forall_forall in Fk. apply Fk in I. simpl in I. lia.
    + rewrite Forall_forall in Ft. apply Ft in I. simpl in I. lia.
  - intros l b l' G I. specialize (N _ _ G). rewrite Forall_forall in N.
    apply N in I. simpl in I. rewrite (proj1 S) in I. lia.
Qed.

Lemma filter_keeps_the_forest_witness :
  exists t' t'',
    run "f(a, [1, b])" default_options
    = Return (TokenArray [Atom "identifier" "f" None; BlockRef 0], t')
    /\ filter "number" t' = Some ([BlockRef 0], t'')
    /\ tokens t'' = tokens t' /\ length (heap t'') = 2.
Proof.
  eassert (H : run "f(a, [1, b])" default_options = Return (_, _))
    by (vm_compute; reflexivity).
  match type of H with
  | _ = Return (_, ?t) =>
      exists t;
      eassert (F : filter "number" t = Some (_, _)) by (vm_compute; reflexivity)
  end.
  eexists. split; [exact H|]. split; [exact F|].
  destruct (@filter_keeps_the_forest _ _ _ _ _ _ _ H F) as (T & L & _).
  split; [exact T|exact L].
Defined.

(** X16. The token tree of a successful [tokenize()] is a forest hanging
    from the top-level array: every reference, in the top-level array or in
    a block's children, is to a block of the store; a block refers only to
    blocks created after it, so no block contains itself, directly or
    through others; and every block of the store is referred to from the
    top-level array or from a block created before it. *)
Theorem token_tree_is_a_forest (text : string) (opts : Options)
    (res : Scanned) (t' : Tokenizer) :
  run text opts = Return (res, t') ->
  (forall l, In (BlockRef l) (tokens t') -> l < length (heap t'))
  /\ (forall l b l', Heap.get (heap t') l = Some b ->
                     In (BlockRef l') (children b) ->
                     l < l' < length (heap t'))
  /\ (forall l, l < length (heap t') ->
                In (BlockRef l) (tokens t')
                \/ exists l' b', l' < l /\ Heap.get (heap t') l' = Some b'
                                 /\ In (BlockRef l) (children b')).
Proof.
  intros H.
  destruct (tokenize_linked _ _ _ (new_linked text opts) H) as [[_ [Ft Fc]] C].
  split; [|split; [|exact C]].
  - intros l I. rewrite Forall_forall in Ft. apply Ft in I. simpl in I. lia.
  - intros l b l' G I. specialize (Fc _ _ G). rewrite Forall_forall in Fc.
    apply Fc in I. simpl in I. lia.
Qed.

Lemma token_tree_is_a_forest_witness :
  exists t',
    run "a(b[c]){d}" default_options
    = Return (TokenArray [Atom "identifier" "a" None; BlockRef 0; BlockRef 2], t')
    /\ length (heap t') = 3
    /\ (In (BlockRef 1) (tokens t')
        \/ exists l' b', l' < 1 /\ Heap.get (heap t') l' = Some b'
                         /\ In (BlockRef 1) (children b')).
Proof.
  eassert (H : run "a(b[c]){d}" default_options = Return (_, _))
    by (vm_compute; reflexivity).
  eexists. split; [exact H|]. split; [reflexivity|].
  apply (proj2 (proj2 (@token_tree_is_a_forest _ _ _ _ H))).
  simpl. lia.
Defined.


Lemma substring_prefix (s : string) (p n m : nat) :
  substring 0 m (substring p n s) = substring p (Nat.min m n) s.
Proof.
  revert p n m. induction s as [|a s IH]; intros p n m.
  - destruct p, n, m; reflexivity.
  - destruct p as [|p].
    + destruct n as [|n]; destruct m as [|m]; try reflexivity.
      cbn [substring Nat.min]. rewrite (IH 0 n m). reflexivity.
    + cbn [substring]. apply IH.
Qed.

(** X17. [#handleMultiCharOperator], called where [#checkMultiCharOperator]
    holds, emits the operator that stands in the text at the offset: a
    symbol token whose value is the slice of the input from the old offset
    through the new one, three characters long when the three characters at
    the offset are [===] or [!==], otherwise the two-character operator;
    the offset is left on the last character of the operator. *)
Theorem operator_token_is_source_text (t t' : Tokenizer) :
  checkMultiCharOperator t = true ->
  handleMultiCharOperator t = Return t' ->
  exists t1 op,
    flushBuffer t = Return t1
    /\ op = Str.slice (input t) (position t) (position t' + 1)
    /\ position t' + 1 = position t + String.length op
    /\ (In op threeCharOps
        \/ In op twoCharOps
           /\ ~ In (Str.slice (input t) (position t) (position t + 3)) threeCharOps)
    /\ t' = set_position (position t') (addToken (Atom "symbol" op None) t1).
Proof.
  unfold checkMultiCharOperator, handleMultiCharOperator. intros C H.
  destruct (flushBuffer t) as [t1| |] eqn:E; cbn [bind] in H; try discriminate.
  cursor E. exists t1. rewrite sc_input0, sc_position0 in H.
  unfold Str.slice in *. rewrite !Nat.sub_0_r, !substring_prefix in *.
  replace (position t + 3 - position t) with 3 in * by lia.
  cbn [Nat.min] in *.
  destruct (Str.one_of (substring (position t) 3 (input t)) threeCharOps) eqn:T3.
  - injection H as <-.
    destruct (addToken_same_cursor
                (Atom "symbol" (substring (position t) 3 (input t)) None) t1).
    cbn [position set_position]. rewrite sc_position1, sc_position0.
    replace (position t + 2 + 1 - position t) with 3 by lia.
    apply one_of_In in T3.
    eexists. split; [reflexivity|]. split; [reflexivity|].
    split; [|split; [left; exact T3|reflexivity]].
    cbn [In threeCharOps] in T3.
    destruct T3 as [T3|[T3|[]]]; rewrite <- T3; simpl; lia.
  - rewrite C in H. injection H as <-.
    destruct (addToken_same_cursor
                (Atom "symbol" (substring (position t) 2 (input t)) None) t1).
    cbn [position set_position]. rewrite sc_position1, sc_position0.
    replace (position t + 1 + 1 - position t) with 2 by lia.
    apply one_of_In in C.
    eexists. split; [reflexivity|]. split; [reflexivity|].
    split; [|split; [right; split; [exact C|]|reflexivity]].
    + cbn [In twoCharOps] in C.
      repeat (destruct C as [C|C]; [rewrite <- C; simpl; lia|]). destruct C.
    + intros I. clear C.
      assert (K : Str.one_of (substring (position t) 3 (input t)) threeCharOps = true).
      { unfold Str.one_of. apply existsb_exists. eexists. split; [exact I|].
        apply String.eqb_refl. }
      congruence.
Qed.

Lemma operator_token_is_source_text_witness :
  exists t t1 t',
    turns 2 (new_Tokenizer "a !== b" default_options) = Return t
    /\ flushBuffer t = Return t1
    /\ handleMultiCharOperator t = Return t'
    /\ t' = set_position 4 (addToken (Atom "symbol" "!==" None) t1).
Proof.
  eassert (T : turns 2 (new_Tokenizer "a !== b" default_options) = Return _)
    by (vm_compute; reflexivity).
  match type of T with
  | _ = Return ?t =>
      exists t;
      eassert (H : handleMultiCharOperator t = Return _)
        by (vm_compute; reflexivity);
      destruct (@operator_token_is_source_text t _ eq_refl H)
        as (t1 & op & F & Eo & _ & _ & Q);
      match type of H with _ = Return ?t' => exists t1, t' end
  end.
  split; [exact T|]. split; [exact F|]. split; [exact H|].
  rewrite Eo in Q. exact Q.
Defined.


(** ** Options that are never read *)

Section Unread.

Variable o' : Options.

Lemma addToken_options (tok : Token) (t : Tokenizer) :
  addToken tok (set_options o' t) = set_options o' (addToken tok t).
Proof. unfold addToken. destruct t as [? ? ? ? ? ? ? ? ? [b|] ? ?]; reflexivity. Qed.

Lemma finishToken_options (type : string) (t : Tokenizer) :
  finishToken type (set_options o' t) = set_options o' (finishToken type t).
Proof.
  unfold finishToken. rewrite addToken_options.
  change (tokenBuffer (set_options o' t)) with (tokenBuffer t).
  destruct (0 <? _); reflexivity.
Qed.

Lemma error_options (k : ErrorKind) (t : Tokenizer) :
  agree (options t) o' -> error k (set_options o' t) = error k t.
Proof.
  intros (T & _). unfold error.
  change (options (set_options o' t)) with o'. rewrite <- T. reflexivity.
Qed.

Lemma flushBuffer_options (t : Tokenizer) :
  agree (options t) o' ->
  flushBuffer (set_options o' t) = map_outcome (set_options o') (flushBuffer t).
Proof.
  intros A. unfold flushBuffer. rewrite !finishToken_options, (error_options _ _ A).
  change (tokenBuffer (set_options o' t)) with (tokenBuffer t).
  repeat match goal with
         | |- context [if ?b then _ else _] => destruct b
         end; reflexivity.
Qed.

Lemma handleStringContent_options (char : ascii) (t : Tokenizer) :
  handleStringContent char (set_options o' t)
  = set_options o' (handleStringContent char t).
Proof.
  unfold handleStringContent. rewrite finishToken_options.
  change (position (set_options o' t)) with (position t).
  change (input (set_options o' t)) with (input t).
  change (stringDelimiter (set_options o' t)) with (stringDelimiter t).
  destruct (_ && _).
  - unfold char_at. cbn [input position set_position set_tokenBuffer set_options].
    destruct (String.get _ _); reflexivity.
  - destruct (is_char _ _); reflexivity.
Qed.

Lemma updatePosition_options (char : ascii) (t : Tokenizer) :
  updatePosition char (set_options o' t) = set_options o' (updatePosition char t).
Proof.
  unfold updatePosition, peek, char_at.
  cbn [input position set_options].
  destruct (Ascii.eqb char Char.newline); [reflexivity|].
  destruct (Ascii.eqb char Char.cr); [|reflexivity].
  destruct (is_char _ _); reflexivity.
Qed.

Lemma openBlock_options (char : ascii) (t : Tokenizer) :
  openBlock char (set_options o' t) = set_options o' (openBlock char t).
Proof.
  unfold openBlock, Heap.alloc. cbn [heap set_options].
  change (set_heap ?h (set_options o' t)) with (set_options o' (set_heap h t)).
  rewrite addToken_options. reflexivity.
Qed.

Lemma closeBlock_options (t : Tokenizer) :
  closeBlock (set_options o' t) = set_options o' (closeBlock t).
Proof. reflexivity. Qed.

Lemma bind_options (t : Tokenizer) (k k' : Tokenizer -> outcome Tokenizer) :
  agree (options t) o' ->
  (forall t1, flushBuffer t = Return t1 ->
              k (set_options o' t1) = map_outcome (set_options o') (k' t1)) ->
  bind (flushBuffer (set_options o' t)) k
  = map_outcome (set_options o') (bind (flushBuffer t) k').
Proof.
  intros A K. rewrite (flushBuffer_options _ A).
  destruct (flushBuffer t) as [t1| |]; cbn [map_outcome bind]; auto.
Qed.

Lemma handleComment_options (t : Tokenizer) :
  agree (options t) o' ->
  handleComment (set_options o' t)
  = map_outcome (set_options o') (handleComment t).
Proof.
  intros A. unfold handleComment. apply bind_options; [exact A|].
  intros t1 E. cursor E.
  assert (A1 : agree (options t1) o') by (rewrite sc_options0; exact A).
  rewrite (error_options _ _ A1), ?addToken_options.
  cbn [input position options line set_options].
  destruct A1 as (_ & _ & <- & _).
  destruct (Str.startsWith _ "//").
  { destruct (preserveComments (options t1)); rewrite ?addToken_options;
      reflexivity. }
  destruct (Str.startsWith _ "/*"); [|reflexivity].
  destruct (Str.indexOf _ _ _); [|reflexivity].
  destruct (preserveComments (options t1)); rewrite ?addToken_options;
    destruct (1 <? _); reflexivity.
Qed.

Lemma handleRegex_options (t : Tokenizer) :
  agree (options t) o' ->
  handleRegex (set_options o' t) = map_outcome (set_options o') (handleRegex t).
Proof.
  intros A. unfold handleRegex. apply bind_options; [exact A|].
  intros t1 E. cursor E.
  assert (A1 : agree (options t1) o') by (rewrite sc_options0; exact A).
  rewrite (error_options _ _ A1), ?addToken_options.
  cbn [input position set_options].
  destruct (scan_regex _ _ _ _ _) as [[p r]|]; rewrite ?addToken_options;
    reflexivity.
Qed.

Lemma handleMultiCharOperator_options (t : Tokenizer) :
  agree (options t) o' ->
  handleMultiCharOperator (set_options o' t)
  = map_outcome (set_options o') (handleMultiCharOperator t).
Proof.
  intros A. unfold handleMultiCharOperator.
  apply bind_options; [exact A|].
  intros t1 E. rewrite ?addToken_options. cbn [input position set_options].
  destruct (Str.one_of _ threeCharOps); [rewrite ?addToken_options; reflexivity|].
  destruct (Str.one_of _ twoCharOps); rewrite ?addToken_options; reflexivity.
Qed.

Lemma finishBlock_options (char : ascii) (t : Tokenizer) :
  agree (options t) o' ->
  finishBlock char (set_options o' t)
  = map_outcome (set_options o') (finishBlock char t).
Proof.
  intros A. unfold finishBlock. apply bind_options; [exact A|].
  intros t1 E. cursor E.
  assert (A1 : agree (options t1) o') by (rewrite sc_options0; exact A).
  rewrite !(error_options _ _ A1), closeBlock_options.
  cbn [tokenStack heap set_options].
  destruct (top _); [|reflexivity].
  destruct (Heap.get _ _); [|reflexivity].
  destruct (negb _); rewrite ?(error_options _ _ A1); reflexivity.
Qed.

Lemma dispatch_options (char : ascii) (t : Tokenizer) :
  agree (options t) o' ->
  dispatch char (set_options o' t)
  = map_outcome (set_options o') (dispatch char t).
Proof.
  intros A. unfold dispatch.
  rewrite handleStringContent_options, (handleComment_options _ A),
    (handleRegex_options _ A), (handleMultiCharOperator_options _ A),
    (finishBlock_options _ _ A), (error_options _ _ A).
  change (inString (set_options o' t)) with (inString t).
  change (checkComment (set_options o' t)) with (checkComment t).
  change (checkRegex (set_options o' t)) with (checkRegex t).
  change (checkMultiCharOperator (set_options o' t)) with (checkMultiCharOperator t).
  change (peek (set_options o' t)) with (peek t).
  change (tokenBuffer (set_options o' t)) with (tokenBuffer t).
  change (options (set_options o' t)) with o'.
  pose proof A as (_ & W & _ & <-).
  destruct (inString t); [reflexivity|].
  destruct (checkComment t); [reflexivity|].
  destruct (_ && checkRegex t); [reflexivity|].
  destruct (Char.is_quote char).
  { unfold startString. apply bind_options; [exact A|]. reflexivity. }
  destruct (Char.is_space char).
  { apply bind_options; [exact A|]. intros t1 E. cursor E.
    cbn [map_outcome]. rewrite <- updatePosition_options.
    change (options (set_options o' t1)) with o'.
    rewrite <- W, <- sc_options0.
    destruct (preserveWhitespace (options t1)); [rewrite addToken_options|];
      reflexivity. }
  destruct (_ || _); [reflexivity|].
  destruct (Char.is_ident char); [reflexivity|].
  destruct (checkMultiCharOperator t); [reflexivity|].
  destruct (Str.includes "+-*/:;,=<>!&|%^~?" char).
  { apply bind_options; [exact A|]. intros t1 E.
    rewrite addToken_options. reflexivity. }
  destruct (Str.includes "[{(" char).
  { unfold startBlock. apply bind_options; [exact A|]. intros t1 E.
    rewrite openBlock_options. reflexivity. }
  destruct (Str.includes "]})" char); reflexivity.
Qed.

Lemma iteration_options (t : Tokenizer) :
  agree (options t) o' ->
  iteration (set_options o' t) = map_outcome (set_options o') (iteration t).
Proof.
  intros A. unfold iteration.
  change (char_at (set_options o' t) (position (set_options o' t)))
    with (char_at t (position t)).
  destruct (char_at t (position t)) as [char|]; [|reflexivity].
  rewrite (dispatch_options _ _ A).
  destruct (dispatch char t) as [t1| |]; cbn [map_outcome bind]; try reflexivity.
  destruct (_ && _); reflexivity.
Qed.

Lemma scan_options (fuel : nat) :
  forall t, agree (options t) o' ->
            scan fuel (set_options o' t) = map_outcome (set_options o') (scan fuel t).
Proof.
  induction fuel as [|fuel IH]; intros t A; cbn [scan];
    change (position (set_options o' t)) with (position t);
    change (input (set_options o' t)) with (input t);
    destruct (position t <? String.length (input t)); try reflexivity.
  rewrite (iteration_options _ A).
  destruct (iteration t) as [t1| |] eqn:E; cbn [map_outcome bind]; try reflexivity.
  apply IH. apply iteration_advances in E. destruct E as (_ & -> & _). exact A.
Qed.

Lemma scan_keeps_options (fuel : nat) :
  forall t t', scan fuel t = Return t' -> options t' = options t.
Proof.
  induction fuel as [|fuel IH]; intros t t'; cbn [scan];
    destruct (position t <? String.length (input t)); try discriminate;
    try (intros [= <-]; reflexivity).
  intros H. bind_case H t1 E. apply iteration_advances in E.
  destruct E as (_ & <- & _). apply IH, H.
Qed.

Lemma finish_options (t : Tokenizer) :
  agree (options t) o' ->
  finish (set_options o' t)
  = map_outcome (fun r => (fst r, set_options o' (snd r))) (finish t).
Proof.
  intros A. unfold finish. rewrite (flushBuffer_options _ A).
  destruct (flushBuffer t) as [t1| |] eqn:E; cbn [map_outcome bind]; try reflexivity.
  cursor E.
  assert (A1 : agree (options t1) o') by (rewrite sc_options0; exact A).
  rewrite !(error_options _ _ A1).
  cbn [tokenStack heap inString stringDelimiter set_options].
  destruct (top _);
    [destruct (Heap.get _ _); rewrite ?(error_options _ _ A1); reflexivity|].
  destruct (inString t1); rewrite ?(error_options _ _ A1); reflexivity.
Qed.

Lemma tokenize_options (t : Tokenizer) :
  agree (options t) o' ->
  tokenize (set_options o' t)
  = map_outcome (fun r => (fst r, set_options o' (snd r))) (tokenize t).
Proof.
  intros A. unfold tokenize.
  change (position (set_options o' t)) with (position t).
  change (input (set_options o' t)) with (input t).
  rewrite (scan_options _ _ A).
  destruct (scan _ t) as [t1| |] eqn:E; cbn [map_outcome bind]; try reflexivity.
  apply finish_options. rewrite (scan_keeps_options _ _ _ E). exact A.
Qed.

End Unread.

(** X19. Only four options are ever read: [trackPosition],
    [preserveWhitespace], [preserveComments] and [allowRegex]. Two
    configurations that agree on these four give the same outcome on every
    text, whatever [customOperators], [hexNumbers], [binaryNumbers],
    [octalNumbers] and [templateLiterals] are: the same error, or the same
    value returned and the same instance but for the options object it
    holds. *)
Theorem unread_options_change_nothing (text : string) (o o' : Options) :
  agree o o' ->
  run text o'
  = map_outcome (fun r => (fst r, set_options o' (snd r))) (run text o).
Proof.
  intros A. unfold run.
  change (new_Tokenizer text o') with (set_options o' (new_Tokenizer text o)).
  apply tokenize_options. exact A.
Qed.


Lemma unread_options_change_nothing_witness :
  result_of (run "0xFF ** 2"
               {| trackPosition := true; preserveWhitespace := false;
                  preserveComments := true; allowRegex := true;
                  customOperators := ["**"]; hexNumbers := false;
                  binaryNumbers := false; octalNumbers := false;
                  templateLiterals := false |})
  = Return (TokenArray [Atom "identifier" "0xFF" None; Atom "symbol" "*" None;
                        Atom "symbol" "*" None; Atom "number" "2" None]).
Proof.
  rewrite (unread_options_change_nothing "0xFF ** 2" default_options)
    by (repeat split; reflexivity).
  vm_compute. reflexivity.
Defined.

(** ** The flush of a digits-and-dots buffer *)

Ltac grown_by L :=
  apply L;
  first [ exact grown_refl | exact grown_trans | exact addToken_grown
        | exact openBlock_grown | exact closeBlock_grown
        | intros; apply grown_fields; simpl; reflexivity || lia ].

Lemma handleComment_grown (t t' : Tokenizer) :
  handleComment t = Return t' -> grown t t'.
Proof. grown_by handleComment_relates. Qed.

Lemma handleRegex_grown (t t' : Tokenizer) :
  handleRegex t = Return t' -> grown t t'.
Proof. grown_by handleRegex_relates. Qed.

Lemma handleMultiCharOperator_grown (t t' : Tokenizer) :
  handleMultiCharOperator t = Return t' -> grown t t'.
Proof. grown_by handleMultiCharOperator_relates. Qed.

Lemma updatePosition_grown (char : ascii) (t : Tokenizer) :
  grown t (updatePosition char t).
Proof. grown_by updatePosition_relates. Qed.

(** At a delimiting character outside a string literal every branch of the
    loop body starts with the flush: its error is the error of the turn, and
    what follows it only appends. *)
Lemma dispatch_flushes (c : ascii) (t : Tokenizer) :
  inString t = false -> delimits c = true ->
  match flushBuffer t with
  | Throw e => dispatch c t = Throw e
  | Return t1 => forall t2, dispatch c t = Return t2 -> grown t1 t2
  | Stuck => True
  end.
Proof.
  intros S D. unfold delimits in D.
  apply andb_true_iff in D. destruct D as [D K].
  apply andb_true_iff in D. destruct D as [Dg Di].
  apply negb_true_iff in Dg, Di.
  assert (Dot : Ascii.eqb c Char.dot = false).
  { destruct (Ascii.eqb c Char.dot) eqn:Q; [|reflexivity].
    apply Ascii.eqb_eq in Q. subst c. discriminate. }
  unfold dispatch. rewrite S, Dg, Di, Dot. cbn [andb orb].
  destruct (flushBuffer t) as [t1| |] eqn:E; [| |exact I].
  - pose proof (flushBuffer_buffer _ _ E) as B.
    pose proof (flushBuffer_empty _ B) as E1.
    intros t2 H.
    destruct (checkComment t).
    { apply handleComment_grown. unfold handleComment in *.
      rewrite ?E in H; cbn [bind] in H. rewrite E1. exact H. }
    destruct (_ && checkRegex t).
    { apply handleRegex_grown. unfold handleRegex in *.
      rewrite ?E in H; cbn [bind] in H. rewrite E1. exact H. }
    destruct (Char.is_quote c).
    { unfold startString in H. rewrite ?E in H; cbn [bind] in H. injection H as <-.
      apply grown_fields; reflexivity || apply le_n. }
    destruct (Char.is_space c).
    { rewrite ?E in H; cbn [bind] in H. injection H as <-.
      match goal with
      | |- grown t1 (updatePosition c ?u) =>
          apply (grown_trans t1 u); [|apply updatePosition_grown]
      end.
      destruct (preserveWhitespace _); [apply addToken_grown|apply grown_refl]. }
    destruct (checkMultiCharOperator t).
    { apply handleMultiCharOperator_grown. unfold handleMultiCharOperator in *.
      rewrite ?E in H; cbn [bind] in H. rewrite E1. exact H. }
    destruct (Str.includes "+-*/:;,=<>!&|%^~?" c).
    { rewrite ?E in H; cbn [bind] in H. injection H as <-. apply addToken_grown. }
    destruct (Str.includes "[{(" c).
    { unfold startBlock in H. rewrite ?E in H; cbn [bind] in H. injection H as <-.
      apply openBlock_grown. }
    destruct (Str.includes "]})" c); [|discriminate].
    unfold finishBlock in H. rewrite ?E in H; cbn [bind] in H.
    destruct (top _); [|discriminate].
    destruct (Heap.get _ _); [|discriminate].
    destruct (negb _); [discriminate|].
    injection H as <-. apply closeBlock_grown.
  - destruct (checkComment t); [unfold handleComment; rewrite ?E; reflexivity|].
    destruct (_ && checkRegex t); [unfold handleRegex; rewrite ?E; reflexivity|].
    destruct (Char.is_quote c) eqn:Q;
      [unfold startString; rewrite ?E; reflexivity|].
    destruct (Char.is_space c) eqn:W; [rewrite ?E; reflexivity|].
    destruct (checkMultiCharOperator t);
      [unfold handleMultiCharOperator; rewrite ?E; reflexivity|].
    destruct (Str.includes "+-*/:;,=<>!&|%^~?" c) eqn:Y; [rewrite ?E; reflexivity|].
    destruct (Str.includes "[{(" c) eqn:O;
      [unfold startBlock; rewrite ?E; reflexivity|].
    destruct (Str.includes "]})" c) eqn:Cl;
      [unfold finishBlock; rewrite ?E; reflexivity|].
    discriminate.
Qed.

(** The array of a block, or the top-level array, only gets longer. *)
Lemma grown_array (here : option loc) (t t' : Tokenizer) :
  grown t t' ->
  match here with Some l => l < length (heap t) | None => True end ->
  extends (array_of here t) (array_of here t').
Proof.
  intros [_ _ _ T H] V. destruct here as [l|]; [|exact T]. simpl.
  destruct (Heap.get (heap t) l) as [b|] eqn:G;
    [|apply nth_error_None in G; lia].
  destruct (H _ _ G) as (b' & G' & _ & _ & X).
  unfold Heap.children_of. rewrite G, G'. exact X.
Qed.

Lemma nth_error_extends (A : Type) (l l' : list A) (x : A) :
  extends (l ++ [x]) l' -> nth_error l' (length l) = Some x.
Proof.
  intros [more ->]. rewrite <- app_assoc.
  rewrite nth_error_app2 by apply le_n. rewrite Nat.sub_diag. reflexivity.
Qed.

(** The flush of a well-formed number appends the number token to the
    array of the current block, or to the top-level array. *)
Lemma flushBuffer_appends (t : Tokenizer) :
  well_formed t ->
  tokenBuffer t <> "" ->
  Str.all Char.is_numeric (tokenBuffer t) = true ->
  Str.count Char.dot (tokenBuffer t) <= 1 ->
  exists t1,
    flushBuffer t = Return t1
    /\ tokenBuffer t1 = ""
    /\ array_of (currentBlock t) t1
       = array_of (currentBlock t) t ++ [Atom "number" (tokenBuffer t) None].
Proof.
  intros W Ne A C. unfold flushBuffer, finishToken.
  assert (L : (0 <? String.length (tokenBuffer t)) = true)
    by (destruct (tokenBuffer t); [contradiction|reflexivity]).
  apply Nat.ltb_ge in C. rewrite L, A, C.
  eexists. split; [reflexivity|]. split; [reflexivity|].
  pose proof (addToken_last (Atom "number" (tokenBuffer t) None) t) as Last.
  destruct (currentBlock t) as [c|] eqn:Cur; cbn [array_of heap tokens set_tokenBuffer].
  - pose proof (well_formed_current _ _ W Cur) as V.
    destruct (Heap.get (heap t) c) as [b|] eqn:G;
      [|apply nth_error_None in G; lia].
    destruct (Last _ eq_refl) as (b' & G' & Ch).
    unfold Heap.children_of. rewrite G', ?G. exact Ch.
  - exact Last.
Qed.

(** C7. The buffer is flushed where the scan, outside a string literal,
    stands at a delimiting character, and at the end of the text. When the
    scan of a text reaches such a place with a non-empty buffer made only of
    digits and dots, then with at most one dot the flush appends one number
    token with the buffered text to the array of the current block (the
    top-level array when no block is open) and empties the buffer, and that
    token is at that place of that array in whatever [tokenize()] returns;
    with more than one dot [tokenize()] throws the invalid-number error for
    the buffered text at the place the scan stands at. The run 1.2.3 makes
    [tokenize()] fail with that error under every configuration. *)
Theorem flushBuffer_digits_and_dots :
  (forall (text : string) (opts : Options) (n : nat) (t : Tokenizer),
      turns n (new_Tokenizer text opts) = Return t ->
      tokenBuffer t <> "" ->
      Str.all Char.is_numeric (tokenBuffer t) = true ->
      match char_at t (position t) with
      | Some c => inString t = false /\ delimits c = true
      | None => True
      end ->
      (Str.count Char.dot (tokenBuffer t) <= 1 ->
       (exists t1,
           flushBuffer t = Return t1
           /\ tokenBuffer t1 = ""
           /\ array_of (currentBlock t) t1
              = array_of (currentBlock t) t
                ++ [Atom "number" (tokenBuffer t) None])
       /\ forall res t',
            run text opts = Return (res, t') ->
            nth_error (array_of (currentBlock t) t')
              (length (array_of (currentBlock t) t))
            = Some (Atom "number" (tokenBuffer t) None))
      /\ (1 < Str.count Char.dot (tokenBuffer t) ->
          run text opts
          = Throw (error (InvalidNumberFormat (tokenBuffer t)) t)))
  /\ (forall opts : Options,
         exists e, run "1.2.3" opts = Throw e
                   /\ kind e = InvalidNumberFormat "1.2.3" /\ offset e = 5).
Proof.
  split.
  - intros text opts n t T Ne A Next.
    pose proof (turns_well_formed _ _ _ _ T) as W.
    pose proof (tokenize_turns _ _ _ T) as Run. fold (run text opts) in Run.
    pose proof (dispatch_flushes) as Flush.
    split; intros C.
    + destruct (flushBuffer_appends t W Ne A C) as (t1 & E & B & Arr).
      split; [exists t1; auto|]. intros res t' H. rewrite Run in H.
      assert (V : match currentBlock t with
                  | Some l => l < length (heap t1)
                  | None => True
                  end).
      { destruct (currentBlock t) as [l|] eqn:Cur; [|exact I].
        pose proof (well_formed_current _ _ W Cur) as V.
        assert (G : flushBuffer t = Return t1 -> grown t t1)
          by grown_by flushBuffer_relates.
        specialize (G E).
        destruct (Heap.get (heap t) l) as [b|] eqn:G0;
          [|apply nth_error_None in G0; lia].
        destruct (grown_heap _ _ G _ _ G0) as (b' & G' & _).
        apply nth_error_Some. unfold Heap.get in G'. congruence. }
      assert (G : grown t1 t').
      { destruct (char_at t (position t)) as [c|] eqn:Ch.
        - pose proof (get_lt _ _ _ Ch) as Lt.
          specialize (Flush c t (proj1 Next) (proj2 Next)). rewrite E in Flush.
          destruct (iteration t) as [t2| |] eqn:It.
          + rewrite (tokenize_iteration _ _ It) in H.
            apply tokenize_grown in H.
            apply (grown_trans t1 t2); [|exact H].
            unfold iteration in It. rewrite Ch in It.
            destruct (dispatch c t) as [u| |] eqn:Di; cbn [bind] in It;
              try discriminate.
            injection It as <-.
            apply (grown_trans t1 u); [apply Flush; reflexivity|].
            destruct (_ && _); apply grown_fields; reflexivity || apply le_n.
          + rewrite (tokenize_iteration_throw _ _ Lt It) in H. discriminate.
          + exfalso. exact (iteration_settles _ W Lt It).
        - apply get_ge in Ch. rewrite (tokenize_at_end _ Ch) in H.
          apply finish_return in H. destruct H as (F & _).
          assert (t' = t1) by congruence. subst t'. apply grown_refl. }
      apply nth_error_extends. rewrite <- Arr.
      apply grown_array; assumption.
    + assert (E : flushBuffer t
                  = Throw (error (InvalidNumberFormat (tokenBuffer t)) t)).
      { unfold flushBuffer.
        assert (L : (0 <? String.length (tokenBuffer t)) = true)
          by (destruct (tokenBuffer t); [contradiction|reflexivity]).
        apply Nat.ltb_lt in C. rewrite L, A, C. reflexivity. }
      rewrite Run.
      destruct (char_at t (position t)) as [c|] eqn:Ch.
      * pose proof (get_lt _ _ _ Ch) as Lt.
        specialize (Flush c t (proj1 Next) (proj2 Next)). rewrite E in Flush.
        apply (tokenize_iteration_throw _ _ Lt).
        unfold iteration. rewrite Ch, Flush. reflexivity.
      * apply get_ge in Ch. rewrite (tokenize_at_end _ Ch).
        unfold finish. rewrite E. reflexivity.
  - intros [tp pw pc ar co hx bn oc tl].
    destruct tp, ar; evaluate_calls; eexists; (split; [reflexivity|split; reflexivity]).
Qed.

Lemma flushBuffer_digits_and_dots_witness :
  (exists e,
      run "1.2.3" default_options = Throw e
      /\ kind e = InvalidNumberFormat "1.2.3")
  /\ exists t',
       run "f(1.5)" default_options
       = Return (TokenArray [Atom "identifier" "f" None; BlockRef 0], t')
       /\ nth_error (Heap.children_of (heap t') 0) 0
          = Some (Atom "number" "1.5" None).
Proof.
  split.
  - eassert (T : turns 5 (new_Tokenizer "1.2.3" default_options) = Return _)
      by (vm_compute; reflexivity).
    eexists. split.
    + refine (proj2 (proj1 flushBuffer_digits_and_dots _ _ _ _ T _ eq_refl I) _).
      * discriminate.
      * vm_compute. repeat constructor.
    + reflexivity.
  - eassert (T : turns 5 (new_Tokenizer "f(1.5)" default_options) = Return _)
      by (vm_compute; reflexivity).
    eassert (H : run "f(1.5)" default_options = Return (_, _))
      by (vm_compute; reflexivity).
    eexists. split; [exact H|].
    refine (proj2 (proj1 (proj1 flushBuffer_digits_and_dots _ _ _ _ T _
                            eq_refl (conj eq_refl eq_refl)) _) _ _ H).
    + discriminate.
    + vm_compute. repeat constructor.
Defined.
